(** * The Nix store with state paths: path naming, registry and reference graph

    A shallow embedding of [src/libstore/store-api.cc] and
    [src/libstore/local-store.cc].  Functions keep the names they have in
    the C++ source.  A C++ exception is a value [inl e] of the result type;
    a function that only reads the database returns its value, one that
    writes returns the new store.

    Code that the two files call but that lives elsewhere (hashing, the
    key/value backend, the archive layer, the derivation parser) is either
    a field of an interface class, or a definition whose comment starts
    with "Modelled from the spec".  Failing system calls (lstat, rename,
    chown) are outside the model. *)

From stdpp Require Import gmap strings list fin_maps sorting.
From Stdlib Require Import String Ascii NArith.

Local Open Scope string_scope.
Set Warnings "-clear-no-such-hyp".

(** ** Exceptions *)

(** One constructor per [throw] site of the two source files, named after
    the message, and one per way in which a helper that lives elsewhere
    fails. *)
Inductive Error :=
  | IllegalName (name : string)
  | InvalidCharacter (c : ascii) (name : string)
  | NotInStore (path : string)
  | NotInStateStore (path : string)
  | CannotSetReferences (path : string)
  | NotComponentOrStatePath (path : string)
  | PathNotValid (path : string)
  | InvalidReference (path ref : string)
  | MalformedSubstitute
  | IsStateDeriver (deriver : string)
  | EmptyUserArgument
  | NotAStatePath (path : string)
  | PathInUse (path referrer : string)
  | NoTimestampForRevision (revision : N)
  | WrongArchiveFormat
  | LacksSignature
  | SignatureMismatch
  | CannotReadDerivation (path : string)
  | SysError (what : string)
  | CorruptHash (path : string)
  | UnknownHashType (path : string)
  | AssertionFailed (what : string)
  | BadStream
  | BadHash (str : string)
  | DbError
  | ProgramFailed
  | EndIteratorDereferenced (key : string)
  | DoesNotTerminate.

Definition Result (A : Type) : Type := sum Error A.

#[global] Instance result_ret : MRet Result := λ A x, inr x.
#[global] Instance result_bind : MBind Result :=
  λ A B f m, match m with inl e => inl e | inr a => f a end.

Definition throw {A : Type} (e : Error) : Result A := inl e.

(** The value of a helper, or the exception [e] when it has none. *)
Definition orThrow {A : Type} (e : Error) (o : option A) : Result A :=
  match o with
  | Some a => mret a
  | None => throw e
  end.

(** ** Strings as [std::string] *)

(** [s.find(c, pos)]: the first index [>= pos] holding [c]. *)
Fixpoint find_char_from (c : ascii) (pos : nat) (s : string) : option nat :=
  match s with
  | EmptyString => None
  | String a s' =>
      match pos with
      | O => if Ascii.eqb a c then Some 0
             else S <$> find_char_from c 0 s'
      | S pos' => S <$> find_char_from c pos' s'
      end
  end.

(** [map.find(key)->second]; on a missing key the source dereferences the
    end iterator. *)
Definition find_second {V : Type} (m : gmap string V) (key : string) : Result V :=
  match m !! key with
  | Some v => mret v
  | None => throw (EndIteratorDereferenced key)
  end.

(** ** Hashes and derivations (hash.hh, derivations.hh) *)

Inductive HashType := htUnknown | htMD5 | htSHA1 | htSHA256.

Record Hash := mkHash { hash_type : HashType; hash_bytes : string }.

#[global] Instance HashType_eq_dec : EqDecision HashType.
Proof. solve_decision. Defined.

#[global] Instance Hash_eq_dec : EqDecision Hash.
Proof. solve_decision. Defined.

Record DerivationOutput := mkDerivationOutput { out_path : string }.

Record DerivationStateOutput := mkDerivationStateOutput {
  statepath : string;
  componentHash : string;
  stateIdentifier : string;
  username : string
}.

Record Derivation := mkDerivation {
  outputs : gmap string DerivationOutput;
  stateOutputs : gmap string DerivationStateOutput;
  env : gmap string string
}.

(** The globals and the hash primitives that store-api.cc uses and does
    not define. *)
Class Globals := {
  nixStore : string;
  nixStoreState : string;
  printHash : Hash → string;
  printHash32 : Hash → string;
  compressHash : Hash → nat → Hash;
  hashString : HashType → string → Hash;
  queryCallingUsername : string
}.

(** ** store-api.cc *)

Module StoreApi.
Section StoreApi.
Context `{G : Globals}.

Definition isInStore (path : string) : bool :=
  bool_decide (String.get 0 path = Some "/"%char)
  && String.eqb (substring 0 (String.length nixStore) path) nixStore
  && (String.length nixStore + 2 <=? String.length path)%nat
  && bool_decide (String.get (String.length nixStore) path = Some "/"%char).

Definition isInStateStore (path : string) : bool :=
  bool_decide (String.get 0 path = Some "/"%char)
  && String.eqb (substring 0 (String.length nixStoreState) path) nixStoreState
  && (String.length nixStoreState + 2 <=? String.length path)%nat
  && bool_decide (String.get (String.length nixStoreState) path = Some "/"%char).

Definition isStorePath (path : string) : bool :=
  isInStore path
  && bool_decide (find_char_from "/" (String.length nixStore + 1) path = None).

Definition isStatePath (path : string) : bool :=
  isInStateStore path
  && bool_decide (find_char_from "/" (String.length nixStoreState + 1) path = None).

Definition assertStorePath (path : string) : Result unit :=
  if negb (isStorePath path) then throw (NotInStore path) else mret tt.

Definition assertStatePath (path : string) : Result unit :=
  if negb (isStatePath path) then throw (NotInStateStore path) else mret tt.

Definition validChars : string := "+-._?=".

(** The condition of the [if] inside the loop of [checkStoreName]. *)
Definition nameCharOk (c : ascii) : bool :=
  let n := nat_of_ascii c in
  ((nat_of_ascii "A" <=? n)%nat && (n <=? nat_of_ascii "Z")%nat)
  || ((nat_of_ascii "a" <=? n)%nat && (n <=? nat_of_ascii "z")%nat)
  || ((nat_of_ascii "0" <=? n)%nat && (n <=? nat_of_ascii "9")%nat)
  || bool_decide (find_char_from c 0 validChars ≠ None).

Fixpoint checkStoreNameChars (name rest : string) : Result unit :=
  match rest with
  | EmptyString => mret tt
  | String c rest' =>
      if negb (nameCharOk c) then throw (InvalidCharacter c name)
      else checkStoreNameChars name rest'
  end.

Definition checkStoreName (name : string) : Result unit :=
  if String.eqb (substring 0 1 name) "." then throw (IllegalName name)
  else checkStoreNameChars name name.

Definition makeStorePath (type : string) (hash : Hash) (suffix : string)
  : Result string :=
  let s := type ++ ":sha256:" ++ printHash hash ++ ":"
           ++ nixStore ++ ":" ++ suffix in
  checkStoreName suffix;;
  mret (nixStore ++ "/"
        ++ printHash32 (compressHash (hashString htSHA256 s) 20)
        ++ "-" ++ suffix).

Definition makeStatePath (componentHash suffix stateIdentifier : string)
  : Result string :=
  let suffix_stateIdentifier := "-" ++ stateIdentifier in
  let username := queryCallingUsername in
  let s := ":sha256:" ++ componentHash ++ ":"
           ++ nixStoreState ++ ":" ++ suffix ++ ":" ++ stateIdentifier
           ++ ":" ++ username in
  checkStoreName suffix;;
  checkStoreName stateIdentifier;;
  mret (nixStoreState ++ "/"
        ++ printHash32 (compressHash (hashString htSHA256 s) 20)
        ++ "-" ++ suffix ++ suffix_stateIdentifier).

(** The message object that [checkStatePath] builds in its last
    statement. *)
Definition spoofedStatePathMessage : string :=
  "The statepath from the Derivation does not match the recalculated statepath, are u trying to spoof the statepath?".

(** The last statement of the source is the expression statement
    [Error(format(...));]: it constructs the exception object and drops
    it, there is no [throw] in front of it. *)
Definition checkStatePath (drv : Derivation) : Result unit :=
  so ← find_second (stateOutputs drv) "state";
  let drvPath := statepath so in
  let componentHash := componentHash so in
  suffix ← find_second (env drv) "name";
  let stateIdentifier := stateIdentifier so in
  calculatedPath ← makeStatePath componentHash suffix stateIdentifier;
  if negb (String.eqb drvPath calculatedPath)
  then let _constructed := spoofedStatePathMessage in mret tt
  else mret tt.

End StoreApi.
End StoreApi.

(** ** The key/value backend (db.hh) and the file system *)

Definition PathSet : Type := gset string.

Definition path_le (a b : string) : Prop := String.leb a b = true.

#[global] Instance path_le_dec (a b : string) : Decision (path_le a b).
Proof. unfold path_le. apply _. Defined.

(** [Paths(set.begin(), set.end())]: a [std::set<string>] is walked in
    increasing order. *)
Definition Paths_of (s : PathSet) : list string :=
  merge_sort path_le (elements s).

(** Modelled from the spec: a row of a table (db.cc is not under src/).
    Section 4.2 gives the backend get/set of a single string and
    getList/setList of an ordered multi-string, and section 9 asks for a
    tagged variant where a table holds both; a row remembers which of the
    two wrote it. *)
Inductive Value :=
  | VString (s : string)
  | VStrings (ss : list string).

(** Modelled from the spec: what is on disk under a path.  A recipe file
    is kept as the derivation it parses to (section 6, recipe extraction
    contract); anything else as its canonical archive (section 4.9). *)
Inductive FsObject :=
  | FsRecipe (drv : Derivation)
  | FsOther (nar : string).

(** Modelled from the spec: the export envelope of section 4.9 as the
    sequence of values that serialise.cc and archive.cc (not under src/)
    write to a sink or read from a source: the archive of a path, 32-bit
    integers, strings and string sets. *)
Inductive StreamItem :=
  | SArchive (obj : FsObject)
  | SInt (n : N)
  | SString (str : string)
  | SStringSet (strs : list string).

(** The packed-string framing of util.cc, which the backend and the
    substitute records share. *)
Class Codec := {
  packStrings : list string → string;
  unpackStrings : string → list string;
  string2Int : string → option Z
}.

(** What local-store.cc needs from util.cc, db.cc, hash.cc and the OpenSSL
    helper, and the default of the last argument of [queryXReferencesTxn],
    which local-store.hh declares.  The revision-aware methods of the
    backend get the tables they are called on; [db_setStateReferences]
    returns the new references table.  [None] is an exception of the
    helper itself. *)
Class Backend := {
  canonPath : string → string;
  parseHashType : string → HashType;
  parseHash : HashType → string → option Hash;
  hashPath : HashType → FsObject → Hash;
  hashStream : list StreamItem → Hash;
  defaultTimestamp : N;
  db_revisionToTimeStamp :
    gmap (string * N) Value → string → N → option N;
  db_queryStateReferences :
    gmap (string * N) Value → gmap (string * N) Value →
    string → N → N → list string;
  db_setStateReferences :
    gmap (string * N) Value → gmap (string * N) Value →
    string → list string → N → option (gmap (string * N) Value);
  rsaSign : string → option string;
  rsaVerify : string → option string
}.

(** Modelled from the spec: the registry of section 3, one field per table
    that local-store.cc opens and the functions below use, and the file
    system.  Tables keyed by a state path and a timestamp have the pair as
    key, so [mergeToDBKey] pairs and [splitDBKey] projects. *)
Record Store := mkStore {
  dbValidPaths : gmap string Value;
  dbValidStatePaths : gmap string Value;
  dbSubstitutes : gmap string Value;
  dbDerivers : gmap string Value;
  dbStateInfo : gmap string Value;
  dbComponentComponentReferences : gmap string Value;
  dbComponentStateReferences : gmap string Value;
  dbStateComponentReferences : gmap (string * N) Value;
  dbStateStateReferences : gmap (string * N) Value;
  dbStateRevisions : gmap (string * N) Value;
  dbSharedState : gmap string Value;
  fs : gmap string FsObject
}.

Definition emptyStore : Store :=
  mkStore ∅ ∅ ∅ ∅ ∅ ∅ ∅ ∅ ∅ ∅ ∅ ∅.

Definition set_dbValidPaths (t : gmap string Value) (s : Store) : Store :=
  mkStore t (dbValidStatePaths s) (dbSubstitutes s) (dbDerivers s)
    (dbStateInfo s) (dbComponentComponentReferences s)
    (dbComponentStateReferences s) (dbStateComponentReferences s)
    (dbStateStateReferences s) (dbStateRevisions s) (dbSharedState s) (fs s).

Definition set_dbValidStatePaths (t : gmap string Value) (s : Store) : Store :=
  mkStore (dbValidPaths s) t (dbSubstitutes s) (dbDerivers s)
    (dbStateInfo s) (dbComponentComponentReferences s)
    (dbComponentStateReferences s) (dbStateComponentReferences s)
    (dbStateStateReferences s) (dbStateRevisions s) (dbSharedState s) (fs s).

Definition set_dbSubstitutes (t : gmap string Value) (s : Store) : Store :=
  mkStore (dbValidPaths s) (dbValidStatePaths s) t (dbDerivers s)
    (dbStateInfo s) (dbComponentComponentReferences s)
    (dbComponentStateReferences s) (dbStateComponentReferences s)
    (dbStateStateReferences s) (dbStateRevisions s) (dbSharedState s) (fs s).

Definition set_dbDerivers (t : gmap string Value) (s : Store) : Store :=
  mkStore (dbValidPaths s) (dbValidStatePaths s) (dbSubstitutes s) t
    (dbStateInfo s) (dbComponentComponentReferences s)
    (dbComponentStateReferences s) (dbStateComponentReferences s)
    (dbStateStateReferences s) (dbStateRevisions s) (dbSharedState s) (fs s).

Definition set_dbStateInfo (t : gmap string Value) (s : Store) : Store :=
  mkStore (dbValidPaths s) (dbValidStatePaths s) (dbSubstitutes s)
    (dbDerivers s) t (dbComponentComponentReferences s)
    (dbComponentStateReferences s) (dbStateComponentReferences s)
    (dbStateStateReferences s) (dbStateRevisions s) (dbSharedState s) (fs s).

Definition set_dbComponentComponentReferences (t : gmap string Value)
  (s : Store) : Store :=
  mkStore (dbValidPaths s) (dbValidStatePaths s) (dbSubstitutes s)
    (dbDerivers s) (dbStateInfo s) t
    (dbComponentStateReferences s) (dbStateComponentReferences s)
    (dbStateStateReferences s) (dbStateRevisions s) (dbSharedState s) (fs s).

Definition set_dbComponentStateReferences (t : gmap string Value)
  (s : Store) : Store :=
  mkStore (dbValidPaths s) (dbValidStatePaths s) (dbSubstitutes s)
    (dbDerivers s) (dbStateInfo s) (dbComponentComponentReferences s)
    t (dbStateComponentReferences s)
    (dbStateStateReferences s) (dbStateRevisions s) (dbSharedState s) (fs s).

Definition set_dbStateComponentReferences (t : gmap (string * N) Value)
  (s : Store) : Store :=
  mkStore (dbValidPaths s) (dbValidStatePaths s) (dbSubstitutes s)
    (dbDerivers s) (dbStateInfo s) (dbComponentComponentReferences s)
    (dbComponentStateReferences s) t
    (dbStateStateReferences s) (dbStateRevisions s) (dbSharedState s) (fs s).

Definition set_dbStateStateReferences (t : gmap (string * N) Value)
  (s : Store) : Store :=
  mkStore (dbValidPaths s) (dbValidStatePaths s) (dbSubstitutes s)
    (dbDerivers s) (dbStateInfo s) (dbComponentComponentReferences s)
    (dbComponentStateReferences s) (dbStateComponentReferences s)
    t (dbStateRevisions s) (dbSharedState s) (fs s).

Definition set_dbSharedState (t : gmap string Value) (s : Store) : Store :=
  mkStore (dbValidPaths s) (dbValidStatePaths s) (dbSubstitutes s)
    (dbDerivers s) (dbStateInfo s) (dbComponentComponentReferences s)
    (dbComponentStateReferences s) (dbStateComponentReferences s)
    (dbStateStateReferences s) (dbStateRevisions s) t (fs s).

Definition set_fs (f : gmap string FsObject) (s : Store) : Store :=
  mkStore (dbValidPaths s) (dbValidStatePaths s) (dbSubstitutes s)
    (dbDerivers s) (dbStateInfo s) (dbComponentComponentReferences s)
    (dbComponentStateReferences s) (dbStateComponentReferences s)
    (dbStateStateReferences s) (dbStateRevisions s) (dbSharedState s) f.

(** [unsigned int] arguments; [-1] arrives as [UINT_MAX]. *)
Definition UINT_MAX : N := 4294967295%N.

Module Db.
Section Db.
Context `{C : Codec}.
Context `{Countable K}.

(** Modelled from the spec: the table operations of section 4.2 (db.cc is
    not under src/).  [queryString] gives [None] where the C++ returns
    false and leaves its out-parameter alone. *)
Definition queryString (table : gmap K Value) (key : K) : option string :=
  match table !! key with
  | Some (VString s) => Some s
  | Some (VStrings ss) => Some (packStrings ss)
  | None => None
  end.

Definition queryStrings (table : gmap K Value) (key : K) : list string :=
  match table !! key with
  | Some (VStrings ss) => ss
  | Some (VString s) => unpackStrings s
  | None => []
  end.

Definition setString (table : gmap K Value) (key : K) (data : string)
  : gmap K Value :=
  <[key := VString data]> table.

Definition setStrings (table : gmap K Value) (key : K) (data : list string)
  : gmap K Value :=
  <[key := VStrings data]> table.

Definition delPair (table : gmap K Value) (key : K) : gmap K Value :=
  delete key table.

End Db.

(** Modelled from the spec: [enumTable] (db.cc, not under src/) gives the
    keys of a table, a string-keyed one in increasing order; a composite
    key is the pair of section 3. *)
Definition enumTable (table : gmap string Value) : list string :=
  Paths_of (dom table).

Definition enumStateTable (table : gmap (string * N) Value)
  : list (string * N) :=
  (map_to_list table).*1.

Definition mergeToDBKey (statePath : string) (timestamp : N) : string * N :=
  (statePath, timestamp).

Definition splitDBKey (key : string * N) : string * N := key.

(** The timestamps of the rows of [path] in a state-keyed table, and the
    largest of them. *)
Definition timestampsOf (table : gmap (string * N) Value) (path : string)
  : list N :=
  (filter (λ k : string * N, k.1 = path) (enumStateTable table)).*2.

Definition latestTimestamp (table : gmap (string * N) Value) (path : string)
  : option N :=
  match timestampsOf table path with
  | [] => None
  | ts => Some (foldr N.max 0%N ts)
  end.

End Db.

(** ** local-store.cc: validity, substitutes, references *)

Record Substitute := mkSubstitute {
  sub_deriver : string;
  sub_program : string;
  sub_args : list string
}.

Record ValidPathInfo := mkValidPathInfo {
  info_path : string;
  info_deriver : string;
  info_hash : Hash;
  info_references : PathSet;
  info_stateReferences : PathSet;
  info_revision : N
}.

(** What [verifyStore] prints at [lvlError]. *)
Inductive VerifyLog :=
  | LogDisappeared (path : string)
  | LogNotInStore (path : string)
  | LogModified (path : string)
  | LogRemovingSubstitutes (path : string)
  | LogRemovingDeriver (path : string)
  | LogCorruptDeriver (deriver path : string)
  | LogRemovingReferences (path : string)
  | LogIncompleteClosure (path ref : string).

Module LocalStore.
Import StoreApi Db.
Section LocalStore.
Context `{G : Globals} `{C : Codec} `{B : Backend}.

(** [Substitute::operator ==] *)
Definition Substitute_eq (a sub : Substitute) : bool :=
  bool_decide (sub_program a = sub_program sub)
  && bool_decide (sub_args a = sub_args sub).

Definition isValidPathTxn (s : Store) (path : string) : bool :=
  bool_decide (is_Some (queryString (dbValidPaths s) path)).

Definition isValidStatePathTxn (s : Store) (path : string) : bool :=
  bool_decide (is_Some (queryString (dbValidStatePaths s) path)).

Definition isValidComponentOrStatePathTxn (s : Store) (path : string) : bool :=
  isValidPathTxn s path || isValidStatePathTxn s path.

Definition substituteVersion : Z := 2.

(** The loop of [readSubstitutes]: [break] on an old-style entry,
    [continue] on an entry of another version. *)
Fixpoint readSubstitutes_loop (ss : list string) : Result (list Substitute) :=
  match ss with
  | [] => mret []
  | i :: rest =>
      if (String.length i <? 4)%nat
         || negb (bool_decide (String.get 3 i = Some Ascii.zero))
      then mret []
      else
        let ss2 := unpackStrings i in
        match ss2 with
        | [] => readSubstitutes_loop rest
        | front :: _ =>
            match string2Int front with
            | None => readSubstitutes_loop rest
            | Some version =>
                if negb (version =? substituteVersion)%Z
                then readSubstitutes_loop rest
                else
                  match ss2 with
                  | [_; d; p; a] =>
                      subs ← readSubstitutes_loop rest;
                      mret (mkSubstitute d p (unpackStrings a) :: subs)
                  | _ => throw MalformedSubstitute
                  end
            end
        end
  end.

Definition readSubstitutes (s : Store) (srcPath : string)
  : Result (list Substitute) :=
  readSubstitutes_loop (queryStrings (dbSubstitutes s) srcPath).

Definition isRealisablePath (s : Store) (path : string) : Result bool :=
  if isValidPathTxn s path then mret true
  else subs ← readSubstitutes s path; mret (0 <? List.length subs)%nat.

Definition isRealisableStatePath (s : Store) (path : string) : Result bool :=
  if isValidStatePathTxn s path then mret true
  else subs ← readSubstitutes s path; mret (0 <? List.length subs)%nat.

Definition isRealisableComponentOrStatePath (s : Store) (path : string)
  : Result bool :=
  if isValidComponentOrStatePathTxn s path then mret true
  else subs ← readSubstitutes s path; mret (0 <? List.length subs)%nat.

Definition writeSubstitutes (s : Store) (srcPath : string)
  (subs : list Substitute) : Store :=
  let ss := map (λ i, packStrings
                        ["2"; sub_deriver i; sub_program i;
                         packStrings (sub_args i)]) subs in
  set_dbSubstitutes (setStrings (dbSubstitutes s) srcPath ss) s.

(** The elements that [std::remove] keeps.  The source drops the iterator
    it returns and erases nothing; the call is reached only when no
    element equals [sub]. *)
Definition std_remove (subs : list Substitute) (sub : Substitute)
  : list Substitute :=
  filter (λ x, Substitute_eq x sub = false) subs.

Definition registerSubstitute (s : Store) (srcPath : string)
  (sub : Substitute) : Result Store :=
  assertStorePath srcPath;;
  subs ← readSubstitutes s srcPath;
  if existsb (λ x, Substitute_eq x sub) subs then mret s
  else
    let subs := std_remove subs sub in
    let subs := sub :: subs in
    mret (writeSubstitutes s srcPath subs).

Definition querySubstitutes (s : Store) (path : string)
  : Result (list Substitute) :=
  readSubstitutes s path.

(** The state branch reads the old references of the revision into
    variables that nothing uses; the two reads are left out. *)
Definition setReferences (s : Store) (store_or_statePath : string)
  (references stateReferences : PathSet) (revision : N) : Result Store :=
  unrealisable ←
    (if (0 <? size references)%nat
     then r ← isRealisableComponentOrStatePath s store_or_statePath;
          mret (negb r)
     else mret false);
  if (unrealisable : bool) then throw (CannotSetReferences store_or_statePath)
  else
    isComponent ← isRealisablePath s store_or_statePath;
    if (isComponent : bool) then
      let oldReferences_c_c :=
        queryStrings (dbComponentComponentReferences s) store_or_statePath in
      let oldReferences_c_s :=
        queryStrings (dbComponentStateReferences s) store_or_statePath in
      let oldReferences : PathSet := list_to_set oldReferences_c_c in
      let oldStateReferences : PathSet := list_to_set oldReferences_c_s in
      if bool_decide (oldReferences = references)
         && bool_decide (oldStateReferences = stateReferences)
      then mret s
      else
        let s1 := set_dbComponentComponentReferences
                    (setStrings (dbComponentComponentReferences s)
                       store_or_statePath (Paths_of references)) s in
        mret (set_dbComponentStateReferences
                (setStrings (dbComponentStateReferences s1)
                   store_or_statePath (Paths_of stateReferences)) s1)
    else
      isState ← isRealisableStatePath s store_or_statePath;
      if (isState : bool) then
        t1 ← orThrow DbError
               (db_setStateReferences (dbStateComponentReferences s)
                  (dbStateRevisions s) store_or_statePath
                  (Paths_of references) revision);
        let s1 := set_dbStateComponentReferences t1 s in
        t2 ← orThrow DbError
               (db_setStateReferences (dbStateStateReferences s1)
                  (dbStateRevisions s1) store_or_statePath
                  (Paths_of stateReferences) revision);
        mret (set_dbStateStateReferences t2 s1)
      else throw (NotComponentOrStatePath store_or_statePath).

Definition querySharedStateTxn (s : Store) (statePath : string)
  : option string :=
  queryString (dbSharedState s) statePath.

(** The [while] loop of [toNonSharedPathTxn], run for at most [fuel]
    iterations; [None] when the loop is still running then. *)
Fixpoint toNonSharedPath_loop (fuel : nat) (s : Store) (returnedPath : string)
  : option string :=
  match querySharedStateTxn s returnedPath with
  | None => Some returnedPath
  | Some sharedPath =>
      match fuel with
      | O => None
      | S fuel' => toNonSharedPath_loop fuel' s sharedPath
      end
  end.

(** A walk that has taken more steps than the table has rows has visited
    some row twice and never ends ([toNonSharedPathTxn_complete] below):
    [DoesNotTerminate] stands for the loop that runs forever. *)
Definition toNonSharedPathTxn (s : Store) (statePath : string)
  : Result string :=
  match toNonSharedPath_loop (size (dbSharedState s)) s statePath with
  | Some p => mret p
  | None => throw DoesNotTerminate
  end.

Definition setSharedStateTxn (s : Store) (fromExisting toNew : string)
  : Store :=
  let s1 := set_dbSharedState (delPair (dbSharedState s) toNew) s in
  set_dbSharedState (setString (dbSharedState s1) toNew fromExisting) s1.

Definition queryXReferencesTxn (s : Store) (store_or_statePath : string)
  (references : PathSet) (component_or_state : bool) (revision : N)
  (timestamp : N) : Result PathSet :=
  let table1 := if component_or_state
                then dbComponentComponentReferences s
                else dbComponentStateReferences s in
  let table2 := if component_or_state
                then dbStateComponentReferences s
                else dbStateStateReferences s in
  isComponent ← isRealisablePath s store_or_statePath;
  references2 ←
    (if (isComponent : bool) then mret (queryStrings table1 store_or_statePath)
     else
       isState ← isRealisableStatePath s store_or_statePath;
       if (isState : bool) then
         statePath_ns ← toNonSharedPathTxn s store_or_statePath;
         mret (db_queryStateReferences table2 (dbStateRevisions s)
                 statePath_ns revision timestamp)
       else throw (NotComponentOrStatePath store_or_statePath));
  mret (references ∪ list_to_set references2).


(** [LocalStore::queryReferences] and [LocalStore::queryStateReferences]
    pass [revision] and then a [bool] literal, where [queryXReferencesTxn]
    takes [component_or_state] and then [revision]: the revision arrives
    as the flag (true when it is not 0) and the literal as the revision
    ([true] is 1, [false] is 0). *)
Definition queryReferences (s : Store) (storePath : string)
  (references : PathSet) (revision : N) : Result PathSet :=
  queryXReferencesTxn s storePath references (negb (revision =? 0)%N) 1
    defaultTimestamp.

Definition queryStateReferences (s : Store) (componentOrstatePath : string)
  (stateReferences : PathSet) (revision : N) : Result PathSet :=
  queryXReferencesTxn s componentOrstatePath stateReferences
    (negb (revision =? 0)%N) 0 defaultTimestamp.

(** *** Referrers *)

(** The inner loop of the two scans: [i] is recorded once for every
    element of its row that equals [path]. *)
Fixpoint scanReferences (path i : string) (references : list string)
  (referrers : PathSet) : PathSet :=
  match references with
  | [] => referrers
  | j :: rest =>
      scanReferences path i rest
        (if String.eqb j path then {[ i ]} ∪ referrers else referrers)
  end.

Fixpoint scanKeys (table : gmap string Value) (path : string)
  (keys : list string) (referrers : PathSet) : PathSet :=
  match keys with
  | [] => referrers
  | i :: rest =>
      scanKeys table path rest
        (scanReferences path i (queryStrings table i) referrers)
  end.

(** The loop that fills [map<string, unsigned int> latest].  [latest[k]]
    of a missing key reads 0; both arms of the inner [if] store
    [getRevision]. *)
Fixpoint latest_loop (revision timestamp : N) (keys : list (string * N))
  (latest : gmap string N) : gmap string N :=
  match keys with
  | [] => latest
  | i :: rest =>
      let '(getStatePath, getRevision) := splitDBKey i in
      let cur := default 0%N (latest !! getStatePath) in
      let latest' :=
        if (cur =? 0)%N then <[getStatePath := getRevision]> latest
        else if (cur <? getRevision)%N then
          if negb (revision =? 0)%N && (getRevision <=? timestamp)%N
          then <[getStatePath := getRevision]> latest
          else <[getStatePath := getRevision]> latest
        else latest in
      latest_loop revision timestamp rest latest'
  end.

Fixpoint scanLatest (table : gmap (string * N) Value) (path : string)
  (entries : list (string * N)) (referrers : PathSet) : PathSet :=
  match entries with
  | [] => referrers
  | (first, second) :: rest =>
      scanLatest table path rest
        (scanReferences path first
           (queryStrings table (mergeToDBKey first second)) referrers)
  end.

(** [timestamp] is left uninitialised when [revision] is 0 and is read
    only when it is not; 0 stands for the unread value. *)
Definition getXReferrers (s : Store) (store_or_statePath : string)
  (component_or_state : bool) (revision : N) : Result PathSet :=
  if negb (isValidPathTxn s store_or_statePath)
     && negb (isValidStatePathTxn s store_or_statePath)
  then throw (NotComponentOrStatePath store_or_statePath)
  else if component_or_state then
    '(path, table) ←
      (if isValidPathTxn s store_or_statePath
       then mret (store_or_statePath, dbComponentComponentReferences s)
       else if isValidStatePathTxn s store_or_statePath
       then path ← toNonSharedPathTxn s store_or_statePath;
            mret (path, dbComponentStateReferences s)
       else mret ("", ∅));
    mret (scanKeys table path (enumTable table) ∅)
  else
    '(path, table) ←
      (if isValidPathTxn s store_or_statePath
       then mret (store_or_statePath, dbStateComponentReferences s)
       else if isValidStatePathTxn s store_or_statePath
       then path ← toNonSharedPathTxn s store_or_statePath;
            mret (path, dbStateStateReferences s)
       else mret ("", ∅));
    timestamp ←
      (if negb (revision =? 0)%N
       then match db_revisionToTimeStamp (dbStateRevisions s) path revision with
            | Some t => mret t
            | None => throw (NoTimestampForRevision revision)
            end
       else mret 0%N);
    let latest := latest_loop revision timestamp (enumStateTable table) ∅ in
    mret (scanLatest table path (map_to_list latest) ∅).

Definition getReferrersTxn (s : Store) (store_or_statePath : string)
  (revision : N) : Result PathSet :=
  getXReferrers s store_or_statePath true revision.

Definition getStateReferrersTxn (s : Store) (store_or_statePath : string)
  (revision : N) : Result PathSet :=
  getXReferrers s store_or_statePath false revision.

Definition queryReferrersTxn (s : Store) (storePath : string)
  (referrers : PathSet) (revision : N) : Result PathSet :=
  r ← isRealisableComponentOrStatePath s storePath;
  if negb r then throw (PathNotValid storePath)
  else
    referrers2 ← getReferrersTxn s storePath revision;
    mret (referrers ∪ referrers2).

Definition queryStateReferrersTxn (s : Store) (storePath : string)
  (stateReferrers : PathSet) (revision : N) : Result PathSet :=
  r ← isRealisableComponentOrStatePath s storePath;
  if negb r then throw (PathNotValid storePath)
  else
    stateReferrers2 ← getStateReferrersTxn s storePath revision;
    mret (stateReferrers ∪ stateReferrers2).

Definition queryReferrers (s : Store) (storePath : string)
  (referrers : PathSet) (revision : N) : Result PathSet :=
  queryReferrersTxn s storePath referrers revision.

Definition queryStateReferrers (s : Store) (storePath : string)
  (stateReferrers : PathSet) (revision : N) : Result PathSet :=
  queryStateReferrersTxn s storePath stateReferrers revision.


(** *** Derivers *)

(** Modelled from the spec: [derivationFromPathTxn] (misc.cc, not under
    src/) extracts the declared fields of the recipe stored at a path
    (section 6); it fails when no recipe file is there. *)
Definition derivationFromPathTxn (s : Store) (drvPath : string)
  : Result Derivation :=
  match fs s !! drvPath with
  | Some (FsRecipe drv) => mret drv
  | _ => throw (CannotReadDerivation drvPath)
  end.

(** Modelled from the spec: [deletePath] (util.cc, not under src/) removes
    what is on disk under the path. *)
Definition deletePath (s : Store) (path : string) : Store :=
  set_fs (delete path (fs s)) s.

(** Modelled from the spec: [pathExists] (util.cc, not under src/) tells
    whether anything is on disk under the path. *)
Definition pathExists (s : Store) (path : string) : bool :=
  bool_decide (is_Some (fs s !! path)).

Definition isStateDrv (drv : Derivation) : bool :=
  negb (size (stateOutputs drv) =? 0)%nat.

Definition isStateDrvPathTxn (s : Store) (drvPath : string) : Result bool :=
  drv ← derivationFromPathTxn s drvPath;
  mret (isStateDrv drv).

Fixpoint queryDerivers_loop (s : Store) (storePath identifier user : string)
  (alldata : list string) (filtereddata : PathSet) : Result PathSet :=
  match alldata with
  | [] => mret filtereddata
  | derivationpath :: rest =>
      drv ← derivationFromPathTxn s derivationpath;
      if negb (size (outputs drv) =? 1)%nat
      then throw (NotAStatePath storePath)
      else
        so ← find_second (stateOutputs drv) "state";
        let getIdentifier := stateIdentifier so in
        let getUser := username so in
        queryDerivers_loop s storePath identifier user rest
          (if (String.eqb getIdentifier identifier || String.eqb identifier "*")
              && (String.eqb getUser user || String.eqb user "*")
           then {[ derivationpath ]} ∪ filtereddata
           else filtereddata)
  end.

Definition queryDerivers (s : Store) (storePath identifier user : string)
  : Result PathSet :=
  r ← isRealisablePath s storePath;
  if negb r then throw (PathNotValid storePath)
  else if String.eqb user "" then throw EmptyUserArgument
  else
    let alldata := queryStrings (dbDerivers s) storePath in
    queryDerivers_loop s storePath identifier user alldata ∅.

Fixpoint mergeNewDerivation_loop (s : Store) (newdrv identifier user : string)
  (deleteDrvs : bool) (drvs : list string) (newdrvs : PathSet)
  : Result (PathSet * Store) :=
  match drvs with
  | [] => mret (newdrvs, s)
  | drv :: rest =>
      getdrv ← derivationFromPathTxn s drv;
      so ← find_second (stateOutputs getdrv) "state";
      let getIdentifier := stateIdentifier so in
      let getUser := username so in
      if String.eqb identifier getIdentifier && String.eqb getUser user
      then
        if negb (String.eqb drv newdrv) && deleteDrvs
        then mergeNewDerivation_loop (deletePath s drv) newdrv identifier
               user deleteDrvs rest newdrvs
        else mergeNewDerivation_loop s newdrv identifier user deleteDrvs
               rest newdrvs
      else mergeNewDerivation_loop s newdrv identifier user deleteDrvs
             rest ({[ drv ]} ∪ newdrvs)
  end.

Definition mergeNewDerivationIntoListTxn (s : Store)
  (storepath newdrv : string) (drvs : PathSet) (deleteDrvs : bool)
  : Result (PathSet * Store) :=
  drv ← derivationFromPathTxn s newdrv;
  so ← find_second (stateOutputs drv) "state";
  let identifier := stateIdentifier so in
  let user := username so in
  '(newdrvs, s1) ← mergeNewDerivation_loop s newdrv identifier user
                     deleteDrvs (Paths_of drvs) ∅;
  mret ({[ newdrv ]} ∪ newdrvs, s1).

Definition addStateDeriver (s : Store) (storePath deriver : string)
  : Result Store :=
  assertStorePath storePath;;
  if String.eqb deriver "" then mret s
  else
    assertStorePath deriver;;
    r ← isRealisablePath s storePath;
    if negb r then throw (PathNotValid storePath)
    else
      drv ← derivationFromPathTxn s deriver;
      so ← find_second (stateOutputs drv) "state";
      let identifier := stateIdentifier so in
      let user := username so in
      currentDerivers ← queryDerivers s storePath identifier user;
      '(updatedDerivers, s1) ←
        mergeNewDerivationIntoListTxn s storePath deriver currentDerivers true;
      let data := Paths_of updatedDerivers in
      let s2 := set_dbDerivers (setStrings (dbDerivers s1) storePath data) s1 in
      mret (set_dbStateInfo (setString (dbStateInfo s2) storePath "") s2).

Definition setDeriver (s : Store) (storePath deriver : string)
  : Result Store :=
  assertStorePath storePath;;
  if String.eqb deriver "" then mret s
  else
    assertStorePath deriver;;
    r ← isRealisablePath s storePath;
    if negb r then throw (PathNotValid storePath)
    else
      isState ← isStateDrvPathTxn s deriver;
      if (isState : bool) then addStateDeriver s storePath deriver
      else mret (set_dbDerivers (setString (dbDerivers s) storePath deriver) s).

Definition queryDeriver (s : Store) (storePath : string) : Result string :=
  r ← isRealisablePath s storePath;
  if negb r then throw (PathNotValid storePath)
  else
    let b := bool_decide (is_Some (queryString (dbDerivers s) storePath)) in
    let deriver := default "" (queryString (dbDerivers s) storePath) in
    drv ← derivationFromPathTxn s deriver;
    if isStateDrv drv then throw (IsStateDeriver deriver)
    else if b then mret deriver else mret "".

(** *** Registration and invalidation *)

Definition setHash (s : Store) (storePath : string) (hash : Hash)
  : Result Store :=
  let s1 := set_dbValidPaths
              (setString (dbValidPaths s) storePath
                 ("sha256:" ++ printHash hash)) s in
  match hash_type hash with
  | htSHA256 => mret s1
  | _ => throw (AssertionFailed "hash.type == htSHA256")
  end.

Definition setStateValid (s : Store) (statePath drvPath : string) : Store :=
  set_dbValidStatePaths (setString (dbValidStatePaths s) statePath drvPath) s.

Definition queryHash (s : Store) (storePath : string) : Result Hash :=
  let str := default "" (queryString (dbValidPaths s) storePath) in
  match find_char_from ":" 0 str with
  | None => throw (CorruptHash storePath)
  | Some colon =>
      let ht := parseHashType (substring 0 colon str) in
      match ht with
      | htUnknown => throw (UnknownHashType storePath)
      | _ =>
          let rest := substring (colon + 1)
                        (String.length str - (colon + 1)) str in
          orThrow (BadHash rest) (parseHash ht rest)
      end
  end.

(** The closure check of [registerValidPaths] for one path info. *)
Fixpoint checkReferencesValid (s : Store) (newPaths : PathSet) (path : string)
  (references : list string) : Result unit :=
  match references with
  | [] => mret tt
  | j :: rest =>
      if negb (isValidPathTxn s j) && negb (bool_decide (j ∈ newPaths))
      then throw (InvalidReference path j)
      else checkReferencesValid s newPaths path rest
  end.

Fixpoint registerValidPaths_loop (newPaths : PathSet) (s : Store)
  (infos : list ValidPathInfo) : Result Store :=
  match infos with
  | [] => mret s
  | i :: rest =>
      isStorePath_b ←
        (if isStorePath (info_path i)
         then assertStorePath (info_path i);; mret true
         else assertStatePath (info_path i);; mret false);
      s1 ← (if (isStorePath_b : bool)
            then setHash s (info_path i) (info_hash i)
            else mret (setStateValid s (info_path i) (info_deriver i)));
      s2 ← setReferences s1 (info_path i) (info_references i)
             (info_stateReferences i) (info_revision i);
      checkReferencesValid s2 newPaths (info_path i)
        (Paths_of (info_references i));;
      s3 ← (if (isStorePath_b : bool)
            then setDeriver s2 (info_path i) (info_deriver i)
            else mret s2);
      registerValidPaths_loop newPaths s3 rest
  end.

Definition registerValidPaths (s : Store) (infos : list ValidPathInfo)
  : Result Store :=
  let newPaths : PathSet := list_to_set (info_path <$> infos) in
  registerValidPaths_loop newPaths s infos.

Definition registerValidPath (s : Store) (component_or_state_path : string)
  (hash : Hash) (references stateReferences : PathSet) (deriver : string)
  (revision : N) : Result Store :=
  let info := mkValidPathInfo component_or_state_path deriver hash
                references stateReferences revision in
  registerValidPaths s [info].

Definition invalidatePath (s : Store) (path : string) : Result Store :=
  subs ← querySubstitutes s path;
  s1 ← (if (List.length subs =? 0)%nat
        then s' ← setReferences s path ∅ ∅ UINT_MAX;
             mret (set_dbDerivers (delPair (dbDerivers s') path) s')
        else mret s);
  mret (set_dbValidPaths (delPair (dbValidPaths s1) path) s1).

(** The loop of [deleteFromStore] over the referrers. *)
Fixpoint checkNotInUse (s : Store) (path : string) (referrers : list string)
  : Result unit :=
  match referrers with
  | [] => mret tt
  | i :: rest =>
      if negb (String.eqb i path) && isValidPathTxn s i
      then throw (PathInUse path i)
      else checkNotInUse s path rest
  end.

(** [deletePathWrapped] (gc.cc) is taken as [deletePath]; [bytesFreed] is
    not modelled. *)
Definition deleteFromStore (s : Store) (_path : string) : Result Store :=
  let path := canonPath _path in
  assertStorePath path;;
  s1 ← (if isValidPathTxn s path
        then referrers ← getReferrersTxn s path UINT_MAX;
             checkNotInUse s path (Paths_of referrers);;
             invalidatePath s path
        else mret s);
  mret (deletePath s1 path).


(** *** Export and import *)

Definition EXPORT_MAGIC : N := 1163413838%N.

(** Modelled from the spec: the readers and writers of serialise.cc and
    archive.cc (not under src/) on the stream of section 4.9.  A reader
    fails when the next value is of another kind; [dumpPath] fails when
    nothing is on disk; [readStorePath] and [readStorePaths] insist on
    store paths. *)
Definition dumpPath (s : Store) (path : string) : Result FsObject :=
  match fs s !! path with
  | Some obj => mret obj
  | None => throw (SysError "getting attributes of path")
  end.

Definition restorePath (source : list StreamItem)
  : Result (FsObject * list StreamItem) :=
  match source with
  | SArchive obj :: rest => mret (obj, rest)
  | _ => throw BadStream
  end.

Definition readInt (source : list StreamItem)
  : Result (N * list StreamItem) :=
  match source with
  | SInt n :: rest => mret (n, rest)
  | _ => throw BadStream
  end.

Definition readString (source : list StreamItem)
  : Result (string * list StreamItem) :=
  match source with
  | SString str :: rest => mret (str, rest)
  | _ => throw BadStream
  end.

Definition readStorePath (source : list StreamItem)
  : Result (string * list StreamItem) :=
  '(path, rest) ← readString source;
  assertStorePath path;;
  mret (path, rest).

Fixpoint assertStorePaths (paths : list string) : Result unit :=
  match paths with
  | [] => mret tt
  | p :: rest => assertStorePath p;; assertStorePaths rest
  end.

Definition readStorePaths (source : list StreamItem)
  : Result (PathSet * list StreamItem) :=
  match source with
  | SStringSet strs :: rest =>
      assertStorePaths strs;;
      mret (list_to_set strs, rest)
  | _ => throw BadStream
  end.

(** [addTempRoot], the signing key's [checkSecrecy] and the temporary
    directory are folded into [rsaSign]. *)
Definition exportPath (s : Store) (path : string) (sign : bool)
  : Result (list StreamItem) :=
  assertStorePath path;;
  if negb (isValidPathTxn s path) then throw (PathNotValid path)
  else
    obj ← dumpPath s path;
    let sink := [SArchive obj; SInt EXPORT_MAGIC; SString path] in
    references ← queryXReferencesTxn s path ∅ true 0 defaultTimestamp;
    let sink := (sink ++ [SStringSet (Paths_of references)])%list in
    deriver ← queryDeriver s path;
    let sink := (sink ++ [SString deriver])%list in
    if sign then
      let hash := hashStream sink in
      let sink := (sink ++ [SInt 1])%list in
      signature ← orThrow ProgramFailed (rsaSign (printHash hash));
      mret (sink ++ [SString signature])%list
    else mret (sink ++ [SInt 0])%list.

(** The path lock and [canonicalisePathMetaData] leave registry and
    archive as they are; [rename] puts the unpacked object under
    [dstPath]. *)
Definition importPath (s : Store) (requireSignature : bool)
  (source : list StreamItem) : Result (string * Store) :=
  '(unpacked, src1) ← restorePath source;
  '(magic, src2) ← readInt src1;
  if negb (magic =? EXPORT_MAGIC)%N then throw WrongArchiveFormat
  else
    '(dstPath, src3) ← readStorePath src2;
    '(references, src4) ← readStorePaths src3;
    let stateReferences : PathSet := ∅ in
    '(deriver, src5) ← readString src4;
    (if negb (String.eqb deriver "") then assertStorePath deriver
     else mret tt);;
    let hash := hashStream (take (List.length source - List.length src5) source) in
    '(n, src6) ← readInt src5;
    let haveSignature := (n =? 1)%N in
    if requireSignature && negb haveSignature then throw LacksSignature
    else
      (if haveSignature then
         '(signature, _) ← readString src6;
         if requireSignature then
           hash2 ← orThrow ProgramFailed (rsaVerify signature);
           if negb (String.eqb (printHash hash) hash2)
           then throw SignatureMismatch else mret tt
         else mret tt
       else mret tt);;
      if negb (isValidPathTxn s dstPath) then
        let s1 := if pathExists s dstPath then deletePath s dstPath else s in
        let s2 := set_fs (<[dstPath := unpacked]> (fs s1)) s1 in
        let deriver := if negb (isValidPathTxn s2 deriver) then "" else deriver in
        s3 ← registerValidPath s2 dstPath (hashPath htSHA256 unpacked)
               references stateReferences deriver 0;
        mret (dstPath, s3)
      else mret (dstPath, s).


(** *** The verifier *)

(** [setReferences] cannot clear the references of a path that is neither
    valid, as component or state, nor substitutable. *)
Lemma setReferences_unrealisable (s : Store) (p : string) (revision : N) :
  isValidPathTxn s p = false →
  isValidStatePathTxn s p = false →
  readSubstitutes s p = inr [] →
  setReferences s p ∅ ∅ revision = inl (NotComponentOrStatePath p).
Proof.
  intros Hv Hvs Hsubs. unfold setReferences.
  rewrite size_empty. simpl.
  unfold isRealisablePath, isRealisableStatePath.
  rewrite Hv, Hvs, Hsubs. reflexivity.
Qed.

Fixpoint verify_validPaths (checkContents : bool) (paths : list string)
  (s : Store) (validPaths : PathSet) (log : list VerifyLog)
  : Result (Store * PathSet * list VerifyLog) :=
  match paths with
  | [] => mret (s, validPaths, log)
  | i :: rest =>
      if negb (pathExists s i) then
        s' ← invalidatePath s i;
        verify_validPaths checkContents rest s' validPaths
          (log ++ [LogDisappeared i])%list
      else if negb (isStorePath i) then
        s' ← invalidatePath s i;
        verify_validPaths checkContents rest s' validPaths
          (log ++ [LogNotInStore i])%list
      else
        log' ←
          (if checkContents then
             expected ← queryHash s i;
             obj ← dumpPath s i;
             let current := hashPath (hash_type expected) obj in
             if negb (bool_decide (current = expected))
             then mret (log ++ [LogModified i])%list
             else mret log
           else mret log);
        verify_validPaths checkContents rest s ({[ i ]} ∪ validPaths) log'
  end.

Fixpoint verify_substitutes (subKeys : list string) (s : Store)
  (realisablePaths : PathSet) (log : list VerifyLog)
  : Result (Store * PathSet * list VerifyLog) :=
  match subKeys with
  | [] => mret (s, realisablePaths, log)
  | i :: rest =>
      subs ← readSubstitutes s i;
      if negb (isStorePath i) then
        verify_substitutes rest
          (set_dbSubstitutes (delPair (dbSubstitutes s) i) s)
          realisablePaths (log ++ [LogRemovingSubstitutes i])%list
      else if (List.length subs =? 0)%nat then
        verify_substitutes rest
          (set_dbSubstitutes (delPair (dbSubstitutes s) i) s)
          realisablePaths log
      else verify_substitutes rest s ({[ i ]} ∪ realisablePaths) log
  end.

Fixpoint verify_derivers (realisablePaths : PathSet)
  (deriversKeys : list string) (s : Store) (log : list VerifyLog)
  : Result (Store * list VerifyLog) :=
  match deriversKeys with
  | [] => mret (s, log)
  | i :: rest =>
      if negb (bool_decide (i ∈ realisablePaths)) then
        verify_derivers realisablePaths rest
          (set_dbDerivers (delPair (dbDerivers s) i) s)
          (log ++ [LogRemovingDeriver i])%list
      else
        deriver ← queryDeriver s i;
        if negb (isStorePath deriver) then
          verify_derivers realisablePaths rest
            (set_dbDerivers (delPair (dbDerivers s) i) s)
            (log ++ [LogCorruptDeriver deriver i])%list
        else verify_derivers realisablePaths rest s log
  end.

(** The inner loop over the references of a realisable key. *)
Fixpoint verify_closure (validPaths : PathSet) (isValid : bool) (i : string)
  (references : list string) (log : list VerifyLog) : list VerifyLog :=
  match references with
  | [] => log
  | j :: rest =>
      verify_closure validPaths isValid i rest
        (if isValid && negb (bool_decide (j ∈ validPaths))
         then (log ++ [LogIncompleteClosure i j])%list else log)
  end.

Fixpoint verify_references (validPaths realisablePaths : PathSet)
  (referencesKeys : list string) (s : Store) (log : list VerifyLog)
  : Result (Store * list VerifyLog) :=
  match referencesKeys with
  | [] => mret (s, log)
  | i :: rest =>
      if negb (bool_decide (i ∈ realisablePaths)) then
        s' ← setReferences s i ∅ ∅ 0;
        verify_references validPaths realisablePaths rest s'
          (log ++ [LogRemovingReferences i])%list
      else
        let isValid := bool_decide (i ∈ validPaths) in
        references ← queryXReferencesTxn s i ∅ true UINT_MAX defaultTimestamp;
        verify_references validPaths realisablePaths rest s
          (verify_closure validPaths isValid i (Paths_of references) log)
  end.

Definition verifyStore (s : Store) (checkContents : bool)
  : Result (Store * list VerifyLog) :=
  let paths := enumTable (dbValidPaths s) in
  '(s1, validPaths, log1) ← verify_validPaths checkContents paths s ∅ [];
  let realisablePaths := validPaths in
  let subKeys := enumTable (dbSubstitutes s1) in
  '(s2, realisablePaths, log2) ←
    verify_substitutes subKeys s1 realisablePaths log1;
  let deriversKeys := enumTable (dbDerivers s2) in
  '(s3, log3) ← verify_derivers realisablePaths deriversKeys s2 log2;
  let referencesKeys := enumTable (dbComponentComponentReferences s3) in
  verify_references validPaths realisablePaths referencesKeys s3 log3.

End LocalStore.
End LocalStore.

(** ** A concrete platform

    An instance of the two interfaces on which the functions above run:
    the usual store roots, a transparent stand-in for the digest, and the
    packed-string framing with a 32-bit little-endian length in front of
    every string (the framing [readSubstitutes] looks into when it tests
    byte 3 of a record). *)

Module Sample.

Definition le32 (n : N) : string :=
  String (ascii_of_N (n mod 256))
    (String (ascii_of_N (n / 256 mod 256))
       (String (ascii_of_N (n / 65536 mod 256))
          (String (ascii_of_N (n / 16777216 mod 256)) EmptyString))).

Definition packStrings32 (strings : list string) : string :=
  foldr (λ i d, le32 (N.of_nat (String.length i)) ++ i ++ d) "" strings.

Definition read32 (s : string) : option N :=
  match s with
  | String a (String b (String c (String d _))) =>
      Some (N_of_ascii a + 256 * N_of_ascii b
            + 65536 * N_of_ascii c + 16777216 * N_of_ascii d)%N
  | _ => None
  end.

(** Unpacking stops at the first string that is cut short. *)
Fixpoint unpackStrings32_fuel (fuel : nat) (s : string) : list string :=
  match fuel with
  | O => []
  | S fuel' =>
      match read32 s with
      | None => []
      | Some len =>
          let len := N.to_nat len in
          if (String.length s <? 4 + len)%nat then []
          else substring 4 len s
               :: unpackStrings32_fuel fuel'
                    (substring (4 + len) (String.length s - (4 + len)) s)
      end
  end.

Definition unpackStrings32 (s : string) : list string :=
  unpackStrings32_fuel (String.length s) s.

Definition digit (c : ascii) : option Z :=
  let n := nat_of_ascii c in
  if (48 <=? n)%nat && (n <=? 57)%nat then Some (Z.of_nat (n - 48)) else None.

Fixpoint parseDecimal_acc (acc : Z) (s : string) : option Z :=
  match s with
  | EmptyString => Some acc
  | String c rest =>
      match digit c with
      | Some d => parseDecimal_acc (10 * acc + d)%Z rest
      | None => None
      end
  end.

Definition parseDecimal (s : string) : option Z :=
  match s with
  | EmptyString => None
  | _ => parseDecimal_acc 0 s
  end.

#[global] Instance globals : Globals := {|
  nixStore := "/nix/store";
  nixStoreState := "/nix/state";
  printHash := hash_bytes;
  printHash32 := hash_bytes;
  compressHash := λ h n, mkHash (hash_type h) (substring 0 n (hash_bytes h));
  hashString := λ ht s, mkHash ht s;
  queryCallingUsername := "alice"
|}.

#[global] Instance codec : Codec := {|
  packStrings := packStrings32;
  unpackStrings := unpackStrings32;
  string2Int := parseDecimal
|}.

(** Reading without revision takes the row of the latest timestamp
    (section 4.4); a write of revision [r] goes to the row [(path, r)]. *)
Definition latestStateReferences (table revisions : gmap (string * N) Value)
  (statePath : string) (revision timestamp : N) : list string :=
  if (revision =? 0)%N then
    match Db.latestTimestamp table statePath with
    | Some t => Db.queryStrings table (statePath, t)
    | None => []
    end
  else Db.queryStrings table (statePath, timestamp).

#[global] Instance backend : Backend := {|
  canonPath := λ p, p;
  parseHashType := λ t, if String.eqb t "sha256" then htSHA256 else htUnknown;
  parseHash := λ ht str, Some (mkHash ht str);
  hashPath := λ ht obj,
    mkHash ht (match obj with FsOther nar => nar | FsRecipe _ => "recipe" end);
  hashStream := λ items, mkHash htSHA256 "stream";
  defaultTimestamp := 0%N;
  db_revisionToTimeStamp := λ revisions path revision, None;
  db_queryStateReferences := latestStateReferences;
  db_setStateReferences := λ table revisions path refs revision,
    Some (Db.setStrings table (path, revision) refs);
  rsaSign := λ h, Some ("signed:" ++ h);
  rsaVerify := λ sig, Some (substring 7 (String.length sig - 7) sig)
|}.

End Sample.

(** ** The specification's vocabulary *)

Module Spec.
Import StoreApi.

(** The name charset of section 4.1, written out. *)
Definition nameCharset : string :=
  "ABCDEFGHIJKLMNOPQRSTUVWXYZabcdefghijklmnopqrstuvwxyz0123456789+-._?=".

(** A name is invalid when it starts with a dot or holds a character
    outside the charset. *)
Definition InvalidName (name : string) : Prop :=
  (∃ rest, name = String "."%char rest)
  ∨ (∃ c, c ∈ list_ascii_of_string name
          ∧ c ∉ list_ascii_of_string nameCharset).

(** The two exceptions of [checkStoreName] are the spec's InvalidName. *)
Definition isInvalidNameError (e : Error) : Prop :=
  match e with
  | IllegalName _ | InvalidCharacter _ _ => True
  | _ => False
  end.

(** The alias walk of [toNonSharedPathTxn] on a SharedState table alone,
    for at most [fuel] iterations. *)
Fixpoint aliasWalk `{Codec} (table : gmap string Value) (fuel : nat)
  (path : string) : option string :=
  match Db.queryString table path with
  | None => Some path
  | Some shared =>
      match fuel with
      | O => None
      | S fuel' => aliasWalk table fuel' shared
      end
  end.

(** A sequence of [setSharedState] calls, each given as
    [(fromExisting, toNew)]. *)
Definition setSharedStateCalls (calls : list (string * string))
  (s : Store) : Store :=
  foldl (λ s call, LocalStore.setSharedStateTxn s call.1 call.2) s calls.

(** A reference of some path info of the batch that is neither valid in
    [s] nor a path of the batch. *)
Definition DanglingReference `{Codec} (s : Store) (infos : list ValidPathInfo)
  (path ref : string) : Prop :=
  ∃ i, i ∈ infos ∧ info_path i = path ∧ ref ∈ info_references i
       ∧ LocalStore.isValidPathTxn s ref = false
       ∧ ref ∉ (list_to_set (info_path <$> infos) : PathSet).

(** Section 4.4 on reads without a revision: the backend returns the row
    of the latest timestamp of the state path. *)
Definition readsLatestRow `{Codec} `{Backend}
  (table revisions : gmap (string * N) Value) (statePath : string)
  (timestamp : N) : Prop :=
  db_queryStateReferences table revisions statePath 0 timestamp
  = match Db.latestTimestamp table statePath with
    | Some t => Db.queryStrings table (statePath, t)
    | None => []
    end.

(** The exception of the closure check is thrown nowhere else. *)
Definition noInvalidReference {A : Type} (r : Result A) : Prop :=
  match r with
  | inl (InvalidReference _ _) => False
  | _ => True
  end.

(** A step that does not throw the closure exception and leaves the
    validity table as it is. *)
Definition keepsValidity (s : Store) (r : Result Store) : Prop :=
  match r with
  | inl (InvalidReference _ _) => False
  | inl _ => True
  | inr s' => dbValidPaths s' = dbValidPaths s
  end.

(** The merge loop touches the file system only. *)
Definition onlyFsChanged {A : Type} (s : Store) (r : Result (A * Store))
  : Prop :=
  match r with
  | inl (InvalidReference _ _) => False
  | inl _ => True
  | inr (_, s') => s' = set_fs (fs s') s
  end.

(** A recipe on disk that declares the pair [(identifier, user)]. *)
Definition declares (s : Store) (d identifier user : string) : Prop :=
  ∃ drv so, fs s !! d = Some (FsRecipe drv)
            ∧ stateOutputs drv !! "state" = Some so
            ∧ stateIdentifier so = identifier ∧ username so = user.

End Spec.

(** ** Concrete derivations and stores *)

Module Scenario.
Import StoreApi LocalStore Sample.

(** A state-bearing derivation whose declared state path is not the one
    [makeStatePath] computes. *)
Definition spoofedDrv : Derivation :=
  mkDerivation
    {[ "out" := mkDerivationOutput "/nix/store/aaaa-hello" ]}
    {[ "state" := mkDerivationStateOutput "/nix/state/bogus" "abcd"
                    "default" "alice" ]}
    {[ "name" := "hello" ]}.

Definition P : string := "/nix/store/pppp-app".
Definition Q : string := "/nix/store/qqqq-lib".

Definition sub1 : Substitute :=
  mkSubstitute "/nix/store/d1d1-fetch.drv" "/bin/fetch" ["a"].
Definition sub2 : Substitute :=
  mkSubstitute "/nix/store/d2d2-copy.drv" "/bin/copy" ["b"].
(** Equal to [sub2] under [operator ==], from another deriver. *)
Definition sub2' : Substitute :=
  mkSubstitute "/nix/store/d3d3-copy.drv" "/bin/copy" ["b"].

(** [P] has the substitutes [sub1; sub2], in this order. *)
Definition substituteStore : Store :=
  writeSubstitutes emptyStore P [sub1; sub2].

(** [P] is valid, refers to [Q], has one substitute and no referrer. *)
Definition deletionStore : Store :=
  mkStore {[ P := VString "sha256:00" ]} ∅
    (dbSubstitutes (writeSubstitutes emptyStore P [sub1])) ∅ ∅
    {[ P := VStrings [Q] ]} ∅ ∅ ∅ ∅ ∅
    {[ P := FsOther "contents" ]}.

Definition D : string := "/nix/store/dddd-app.drv".
Definition D' : string := "/nix/store/eeee-app.drv".
Definition E : string := "/nix/store/cccc-app.drv".

(** A state-bearing recipe of [P] with one output. *)
Definition stateDrv (identifier user : string) : Derivation :=
  mkDerivation {[ "out" := mkDerivationOutput P ]}
    {[ "state" := mkDerivationStateOutput "/nix/state/ssss-app" "abcd"
                    identifier user ]}
    {[ "name" := "app" ]}.

(** [P] is valid; the recipes [D] and [D'] both declare [(identifier,
    user)]; [E], already recorded as a deriver of [P], declares
    [("other", user)]. *)
Definition deriverStore (identifier user : string) : Store :=
  mkStore {[ P := VString "sha256:00" ]} ∅ ∅
    {[ P := VStrings [E] ]} ∅ ∅ ∅ ∅ ∅ ∅ ∅
    {[ D := FsRecipe (stateDrv identifier user);
       D' := FsRecipe (stateDrv identifier user);
       E := FsRecipe (stateDrv "other" user) ]}.

Definition stateS : string := "/nix/state/ssss-app-default".
Definition stateT : string := "/nix/state/tttt-lib-default".

(** Components [P], [Q] and state paths [stateS], [stateT], all valid: [P]
    refers to [Q]; [stateS] refers to [Q] and, at its latest timestamp, to
    [stateT]. *)
Definition referrerStore : Store :=
  mkStore {[ P := VString "sha256:00"; Q := VString "sha256:01" ]}
    {[ stateS := VString D; stateT := VString D ]} ∅ ∅ ∅
    {[ P := VStrings [Q] ]} ∅
    {[ (stateS, 5%N) := VStrings [Q] ]}
    {[ (stateS, 3%N) := VStrings []; (stateS, 5%N) := VStrings [stateT] ]}
    ∅ ∅ ∅.

(** A recipe without state output. *)
Definition plainDrv : Derivation :=
  mkDerivation {[ "out" := mkDerivationOutput P ]} ∅ {[ "name" := "app" ]}.

(** [P], [Q] and the recipe [D] are valid and on disk; [P] has the given
    component references and the deriver [D]; its recorded hash is the
    hash of its contents. *)
Definition exportStore (refs : list string) : Store :=
  mkStore
    {[ P := VString "sha256:contents"; Q := VString "sha256:lib";
       D := VString "sha256:recipe" ]}
    ∅ ∅ {[ P := VString D ]} ∅ {[ P := VStrings refs ]} ∅ ∅ ∅ ∅ ∅
    {[ P := FsOther "contents"; Q := FsOther "lib";
       D := FsRecipe plainDrv ]}.

(** What [exportPath] writes for [P], and the store that [importPath]
    makes of it from the empty store. *)
Definition exported (refs : list string) (sign : bool) : list StreamItem :=
  match exportPath (exportStore refs) P sign with
  | inr stream => stream
  | inl _ => []
  end.

Definition imported (refs : list string) (sign requireSignature : bool)
  : Store :=
  match importPath emptyStore requireSignature (exported refs sign) with
  | inr (_, s') => s'
  | inl _ => emptyStore
  end.

(** The stores after [addStateDeriver(P, D)] and then
    [addStateDeriver(P, D')]. *)
Definition afterFirst (identifier user : string) : Store :=
  match addStateDeriver (deriverStore identifier user) P D with
  | inr s1 => s1
  | inl _ => emptyStore
  end.

Definition afterSecond (identifier user : string) : Store :=
  match addStateDeriver (afterFirst identifier user) P D' with
  | inr s2 => s2
  | inl _ => emptyStore
  end.

End Scenario.

(** ** store-api.cc: the remaining path functions *)

Module StorePaths.
Import StoreApi.
Section StorePaths.
Context `{G : Globals}.

(** [toStorePath]; [None] is its exception, "path is not in the Nix
    store (2)". *)
Definition toStorePath (path : string) : option string :=
  if negb (isInStore path) then None
  else
    match find_char_from "/" (String.length nixStore + 1) path with
    | None => Some path
    | Some slash => Some (substring 0 slash path)
    end.

(** [toStoreOrStatePath]; [None] is its exception, "path is not in the
    Nix store or Nix state store". *)
Definition toStoreOrStatePath (path : string) : option string :=
  let isStorePath := isInStore path in
  let isStateStore := isInStateStore path in
  if negb isStorePath && negb isStateStore then None
  else
    let slash :=
      if isStorePath
      then find_char_from "/" (String.length nixStore + 1) path
      else find_char_from "/" (String.length nixStoreState + 1) path in
    match slash with
    | None => Some path
    | Some slash => Some (substring 0 slash path)
    end.

Definition makeFixedOutputPath (recursive : bool) (hashAlgo : string)
  (hash : Hash) (name : string) : Result string :=
  let h := hashString htSHA256
             ("fixed:out:" ++ (if recursive then "r:" else "") ++ hashAlgo
              ++ ":" ++ printHash hash ++ ":" ++ "") in
  makeStorePath "output:out" h name.

Definition computeStorePathForText (suffix s : string) (references : PathSet)
  : Result string :=
  let hash := hashString htSHA256 s in
  let type := foldl (λ type i, type ++ ":" ++ i) "text" (Paths_of references) in
  makeStorePath type hash suffix.

End StorePaths.
End StorePaths.

(** A platform whose printed digests hold no slash, as base-32 digests
    do: [Sample.globals] with every slash of the digest replaced. *)
Module SlashFree.

Fixpoint slashFree (s : string) : string :=
  match s with
  | EmptyString => EmptyString
  | String c rest =>
      String (if Ascii.eqb c "/" then "_"%char else c) (slashFree rest)
  end.

Definition globals : Globals := {|
  nixStore := "/nix/store";
  nixStoreState := "/nix/state";
  printHash := hash_bytes;
  printHash32 := λ h, slashFree (hash_bytes h);
  compressHash := λ h n, mkHash (hash_type h) (substring 0 n (hash_bytes h));
  hashString := λ ht s, mkHash ht s;
  queryCallingUsername := "alice"
|}.

End SlashFree.

(** ** local-store.cc: substitutes, hashes and text files *)

(** What the functions below need from util.cc besides the packed-string
    framing: the decimal printer [int2String], and the regular file that
    [writeStringToFile] leaves on disk for the given contents. *)
Class Util := {
  int2String : Z → string;
  writeStringToFile : string → FsObject
}.

Module StoreOps.
Import StoreApi StorePaths Db LocalStore.
Section StoreOps.
Context `{G : Globals} `{C : Codec} `{B : Backend} `{U : Util}.

(** [StoreAPI::hasSubstitutes] on the local store. *)
Definition hasSubstitutes (s : Store) (path : string) : Result bool :=
  subs ← querySubstitutes s path;
  mret (negb (match subs with [] => true | _ => false end)).

Definition isStateComponentTxn (s : Store) (storePath : string) : bool :=
  let _ := isValidPathTxn s storePath in
  let nonempty := bool_decide (is_Some (queryString (dbStateInfo s) storePath)) in
  nonempty.

Fixpoint clearSubstitutes_loop (s : Store) (subKeys : list string)
  : Result Store :=
  match subKeys with
  | [] => mret s
  | i :: rest =>
      let s1 := set_dbSubstitutes (delPair (dbSubstitutes s) i) s in
      s2 ← (if negb (isValidPathTxn s1 i) then invalidatePath s1 i
            else mret s1);
      clearSubstitutes_loop s2 rest
  end.

Definition clearSubstitutes (s : Store) : Result Store :=
  clearSubstitutes_loop s (enumTable (dbSubstitutes s)).

Definition queryPathHash (s : Store) (path : string) : Result Hash :=
  if negb (isValidPathTxn s path) then throw (PathNotValid path)
  else queryHash s path.

Definition queryStatePathDrvTxn (s : Store) (statePath : string) : string :=
  default "" (queryString (dbValidStatePaths s) statePath).

(** [LocalStore::queryStatePathDrv]; [None] is its exception, "statepath
    is not valid". *)
Definition queryStatePathDrv (s : Store) (statePath : string)
  : option string :=
  if negb (isValidStatePathTxn s statePath) then None
  else Some (queryStatePathDrvTxn s statePath).

Definition queryAllValidPathsTxn (s : Store)
  (allComponentPaths allStatePaths : PathSet) : PathSet * PathSet :=
  let allComponentPaths2 := enumTable (dbValidPaths s) in
  let allStatePaths2 := enumTable (dbValidStatePaths s) in
  (allComponentPaths ∪ list_to_set allComponentPaths2,
   allStatePaths ∪ list_to_set allStatePaths2).

(** [addTempRoot] and the path lock are not modelled, so the second
    validity test reads what the first read; [canonicalisePathMetaData]
    leaves registry and archive as they are. *)
Definition addTextToStore (s : Store) (suffix str : string)
  (references : PathSet) : Result (string * Store) :=
  dstPath ← computeStorePathForText suffix str references;
  if negb (isValidPathTxn s dstPath) then
    if negb (isValidPathTxn s dstPath) then
      let s1 := if pathExists s dstPath then deletePath s dstPath else s in
      let s2 := set_fs (<[dstPath := writeStringToFile str]> (fs s1)) s1 in
      obj ← dumpPath s2 dstPath;
      s3 ← registerValidPath s2 dstPath (hashPath htSHA256 obj)
             references ∅ "" 0;
      mret (dstPath, s3)
    else mret (dstPath, s)
  else mret (dstPath, s).

End StoreOps.
End StoreOps.

(** ** local-store.cc: paths that share their state *)

Module Sharing.
Import StoreApi Db LocalStore.
Section Sharing.
Context `{G : Globals} `{C : Codec} `{B : Backend}.

Fixpoint toNonSharedPathSet_loop (s : Store) (statePaths : list string)
  (real_statePaths : PathSet) : Result PathSet :=
  match statePaths with
  | [] => mret real_statePaths
  | i :: rest =>
      p ← toNonSharedPathTxn s i;
      toNonSharedPathSet_loop s rest ({[ p ]} ∪ real_statePaths)
  end.

Definition toNonSharedPathSetTxn (s : Store) (statePaths : PathSet)
  : Result PathSet :=
  toNonSharedPathSet_loop s (Paths_of statePaths) ∅.

Fixpoint getDirectlySharedWith_loop (s : Store) (statePath : string)
  (keys : list string) (statePaths : PathSet) : PathSet :=
  match keys with
  | [] => statePaths
  | i :: rest =>
      let shared_with := default "" (queryString (dbSharedState s) i) in
      getDirectlySharedWith_loop s statePath rest
        (if String.eqb shared_with statePath then {[ i ]} ∪ statePaths
         else statePaths)
  end.

Definition getDirectlySharedWithPathSetTxn (s : Store) (statePath : string)
  : PathSet :=
  getDirectlySharedWith_loop s statePath (enumTable (dbSharedState s)) ∅.

(** The loop of [getSharedWithPathSetRecTxn_private], with the recursive
    call as [rec].  The callee works on the caller's set through the
    reference and returns a copy of it, so both operands of
    [pathSets_union] (taken as set union) are the callee's result. *)
Definition getSharedWith_loop (rec : string → PathSet → Result PathSet)
  : list string → PathSet → Result PathSet :=
  fix loop (newStatePaths : list string) (statePaths : PathSet) :=
    match newStatePaths with
    | [] => mret statePaths
    | i :: rest =>
        if bool_decide (i ∉ statePaths) then
          let statePaths := {[ i ]} ∪ statePaths in
          r ← rec i statePaths;
          loop rest (r ∪ r)
        else loop rest statePaths
    end.

(** At most [fuel] nested calls; [DoesNotTerminate] stands for a
    recursion that is deeper. *)
Fixpoint getSharedWithPathSetRecTxn_private (fuel : nat) (s : Store)
  (statePath : string) (statePaths : PathSet) : Result PathSet :=
  match fuel with
  | O => throw DoesNotTerminate
  | S fuel' =>
      let newStatePaths := getDirectlySharedWithPathSetTxn s statePath in
      getSharedWith_loop (getSharedWithPathSetRecTxn_private fuel' s)
        (Paths_of newStatePaths) statePaths
  end.

(** Every nested call follows the insertion of a key of the SharedState
    table that the set did not hold, so the nesting is at most one deeper
    than the table has rows ([getSharedWith_terminates] below). *)
Definition getSharedWithPathSetRecTxn (s : Store) (statePath : string)
  : Result PathSet :=
  statePath_ns ← toNonSharedPathTxn s statePath;
  let statePaths : PathSet :=
    if negb (String.eqb statePath_ns statePath) then {[ statePath_ns ]}
    else ∅ in
  result ← getSharedWithPathSetRecTxn_private
             (S (size (dbSharedState s))) s statePath_ns statePaths;
  mret (result ∖ {[ statePath ]}).

End Sharing.
End Sharing.

(** A platform for the functions above. *)
Module SampleUtil.

Definition decimalDigits (fuel : nat) (n : N) : string :=
  (fix go (fuel : nat) (n : N) (acc : string) : string :=
     match fuel with
     | O => acc
     | S fuel' =>
         let acc' := String (ascii_of_N (48 + n mod 10)) acc in
         if (n / 10 =? 0)%N then acc' else go fuel' (n / 10)%N acc'
     end) fuel n "".

Definition int2String_dec (z : Z) : string :=
  match z with
  | Z0 => "0"
  | Zpos p => decimalDigits (Pos.to_nat p) (Npos p)
  | Zneg p => "-" ++ decimalDigits (Pos.to_nat p) (Npos p)
  end.

#[global] Instance util : Util := {|
  int2String := int2String_dec;
  writeStringToFile := FsOther
|}.

End SampleUtil.

(** ** Vocabulary and stores for the properties *)

Module Frames.

(** Every table but the four reference tables, and the file system, are
    the same in [s'] as in [s]. *)
Definition referencesOnly (s s' : Store) : Prop :=
  dbValidPaths s' = dbValidPaths s
  ∧ dbValidStatePaths s' = dbValidStatePaths s
  ∧ dbSubstitutes s' = dbSubstitutes s
  ∧ dbDerivers s' = dbDerivers s
  ∧ dbStateInfo s' = dbStateInfo s
  ∧ dbStateRevisions s' = dbStateRevisions s
  ∧ dbSharedState s' = dbSharedState s
  ∧ fs s' = fs s.

(** Every table but derivers and state info is the same in [s'] as in
    [s]; the file system may differ. *)
Definition deriversOnly (s s' : Store) : Prop :=
  dbValidPaths s' = dbValidPaths s
  ∧ dbValidStatePaths s' = dbValidStatePaths s
  ∧ dbSubstitutes s' = dbSubstitutes s
  ∧ dbComponentComponentReferences s' = dbComponentComponentReferences s
  ∧ dbComponentStateReferences s' = dbComponentStateReferences s
  ∧ dbStateComponentReferences s' = dbStateComponentReferences s
  ∧ dbStateStateReferences s' = dbStateStateReferences s
  ∧ dbStateRevisions s' = dbStateRevisions s
  ∧ dbSharedState s' = dbSharedState s.

(** The record that [writeSubstitutes] stores for a substitute, and what
    it means that [readSubstitutes] reads such a record back. *)
Definition substituteRecord `{Codec} (x : Substitute) : string :=
  packStrings ["2"; sub_deriver x; sub_program x; packStrings (sub_args x)].

Definition readsBack `{Codec} (x : Substitute) : Prop :=
  LocalStore.readSubstitutes_loop [substituteRecord x] = inr [x].

End Frames.

Module Cases.
Import StoreApi LocalStore Sample Scenario.

Definition stateU : string := "/nix/state/uuuu-web-default".

(** [stateT] shares the state of [stateS], and [stateU] that of
    [stateT]. *)
Definition sharingStore : Store :=
  set_dbSharedState
    {[ stateT := VString stateS; stateU := VString stateT ]} emptyStore.

(** [Sample.backend] with a revision index: revision [r] of any path was
    taken at timestamp [r]. *)
Definition revisionBackend : Backend := {|
  canonPath := canonPath (Backend := Sample.backend);
  parseHashType := parseHashType (Backend := Sample.backend);
  parseHash := parseHash (Backend := Sample.backend);
  hashPath := hashPath (Backend := Sample.backend);
  hashStream := hashStream (Backend := Sample.backend);
  defaultTimestamp := 0%N;
  db_revisionToTimeStamp := λ revisions path revision, Some revision;
  db_queryStateReferences := latestStateReferences;
  db_setStateReferences := λ table revisions path refs revision,
    Some (Db.setStrings table (path, revision) refs);
  rsaSign := rsaSign (Backend := Sample.backend);
  rsaVerify := rsaVerify (Backend := Sample.backend)
|}.

(** [Scenario.exportStore []] after [P] got the component reference
    [Q] and the state reference [stateS]. *)
Definition referencedStore : Store :=
  match setReferences (exportStore []) P {[ Q ]} {[ stateS ]} 0 with
  | inr s' => s'
  | inl _ => emptyStore
  end.

Definition sub3 : Substitute :=
  mkSubstitute "/nix/store/d4d4-get.drv" "/bin/get" ["c"; "d"].

(** [Scenario.substituteStore] after [sub3] is registered for [P]. *)
Definition afterRegister : Store :=
  match registerSubstitute substituteStore P sub3 with
  | inr s' => s'
  | inl _ => emptyStore
  end.

(** What [addTextToStore] returns for a text that refers to [Q], on the
    platform whose digests hold no slash. *)
Definition textAdded : string * Store :=
  match StoreOps.addTextToStore (G := SlashFree.globals) (U := SampleUtil.util)
          (exportStore []) "notes.txt" "see lib" {[ Q ]} with
  | inr r => r
  | inl _ => ("", emptyStore)
  end.

(** [P] and [Q] are valid and [P] refers to [Q], but only [P] is on
    disk; and what [verifyStore] makes of this store. *)
Definition damagedStore : Store :=
  mkStore {[ P := VString "sha256:contents"; Q := VString "sha256:lib" ]}
    ∅ ∅ ∅ ∅ {[ P := VStrings [Q] ]} ∅ ∅ ∅ ∅ ∅
    {[ P := FsOther "contents" ]}.

Definition verified : Store * list VerifyLog :=
  match verifyStore damagedStore false with
  | inr r => r
  | inl _ => (emptyStore, [])
  end.

(** A batch of a component that refers to itself and a state path, and
    the empty store after the batch is registered. *)
Definition batch : list ValidPathInfo :=
  [mkValidPathInfo P "" (mkHash htSHA256 "00") {[ P ]} ∅ 0;
   mkValidPathInfo stateS D (mkHash htSHA256 "") ∅ ∅ 0].

Definition registered : Store :=
  match registerValidPaths emptyStore batch with
  | inr s' => s'
  | inl _ => emptyStore
  end.

End Cases.

(** ** local-store.cc: the commit intervals of state paths *)

Module Intervals.
Import Db.

(** The exceptions of the two functions: their own [throw]s, and the
    [std::out_of_range] of [vector::at]. *)
Inductive IntervalError :=
  | SizesDiffer
  | OutOfRange (n : nat)
  | NoValidInterval (statePath : string).

Section Intervals.
Context `{C : Codec} `{U : Util}.

(** The loop of [setStatePathsIntervalTxn] on the StateCounters table,
    which the registry record above does not carry; [n] counts the
    iterations. *)
Fixpoint setStatePathsInterval_loop (intervals : list Z) (allZero : bool)
  (dbStateCounters : gmap string Value) (statePaths : list string) (n : nat)
  : IntervalError + gmap string Value :=
  match statePaths with
  | [] => inr dbStateCounters
  | i :: rest =>
      let interval :=
        if negb allZero
        then match intervals !! n with
             | Some v => inr v
             | None => inl (OutOfRange n)
             end
        else inr 0%Z in
      match interval with
      | inl e => inl e
      | inr interval =>
          setStatePathsInterval_loop intervals allZero
            (setString dbStateCounters i (int2String interval)) rest (S n)
      end
  end.

Definition setStatePathsIntervalTxn (dbStateCounters : gmap string Value)
  (statePaths : PathSet) (intervals : list Z) (allZero : bool)
  : IntervalError + gmap string Value :=
  if negb allZero && negb (size statePaths =? List.length intervals)%nat
  then inl SizesDiffer
  else setStatePathsInterval_loop intervals allZero dbStateCounters
         (Paths_of statePaths) 0.

(** [data] is declared before the loop: a path without a row leaves it
    as the iteration before has set it. *)
Fixpoint getStatePathsInterval_loop (dbStateCounters : gmap string Value)
  (statePaths : list string) (data : string) (intervals : list Z)
  : IntervalError + list Z :=
  match statePaths with
  | [] => inr intervals
  | i :: rest =>
      let data := default data (queryString dbStateCounters i) in
      match string2Int data with
      | None => inl (NoValidInterval i)
      | Some n =>
          getStatePathsInterval_loop dbStateCounters rest data
            (intervals ++ [n])%list
      end
  end.

Definition getStatePathsIntervalTxn (dbStateCounters : gmap string Value)
  (statePaths : PathSet) : IntervalError + list Z :=
  getStatePathsInterval_loop dbStateCounters (Paths_of statePaths) "" [].

End Intervals.
End Intervals.

(** ** local-store.cc: canonical metadata *)

(** What [_canonicalisePathMetaData] takes from the system headers and
    from config.h: the file-type mask and the two file types it tests,
    the owner's execute bit, the effective user, and whether [lchown]
    is there. *)
Class SysStat := {
  S_IFMT : Z;
  S_IFLNK : Z;
  S_IFDIR : Z;
  S_IXUSR : Z;
  geteuid : Z;
  HAVE_LCHOWN : bool
}.

Module Canonicalise.
Local Open Scope Z_scope.

(** The fields of [struct stat] that the function reads or changes. *)
Record Stat := mkStat {
  st_uid : Z;
  st_mode : Z;
  st_mtime : Z;
  st_atime : Z
}.

(** A path on disk: its metadata and, for a directory, what
    [readDirectory] lists under it. *)
#[warnings="-register-all"] Inductive FsTree :=
  | FsNode (st : Stat) (entries : list (string * FsTree)).

(** The octal literals 0444, 0555 and 0111. *)
Definition mode_0444 : Z := 292.
Definition mode_0555 : Z := 365.
Definition mode_0111 : Z := 73.

Inductive CanonError :=
  | WrongOwnership
  | AssertionFails.

Section Canonicalise.
Context `{Sys : SysStat}.

(** What listing a directory does to its access time: the access time
    that [readDirectory] (util.cc, not under src/) leaves on the
    directory at the given path, from the one it had.  The file system
    decides: the time of the call where it records accesses, the old
    value where it does not. *)
Variable readDirectory_atime : string → Z → Z.

Definition S_ISLNK (m : Z) : bool := Z.land m S_IFMT =? S_IFLNK.
Definition S_ISDIR (m : Z) : bool := Z.land m S_IFMT =? S_IFDIR.

(** Modelled from the spec: the three system calls on the metadata of
    one file (section 4.8 names owner, mode and timestamp as what is
    normalised).  [chmod] keeps the file type and takes the other mode
    bits from its argument; [utime] sets both times. *)
Definition lchown (owner : Z) (cur : Stat) : Stat :=
  mkStat owner (st_mode cur) (st_mtime cur) (st_atime cur).

Definition chmod (mode : Z) (cur : Stat) : Stat :=
  mkStat (st_uid cur)
    (Z.lor (Z.land (st_mode cur) S_IFMT) (Z.land mode (Z.lnot S_IFMT)))
    (st_mtime cur) (st_atime cur).

Definition utime (actime modtime : Z) (cur : Stat) : Stat :=
  mkStat (st_uid cur) (st_mode cur) modtime actime.

(** The metadata of the directory at [path] after [readDirectory]. *)
Definition afterReadDirectory (path : string) (cur : Stat) : Stat :=
  mkStat (st_uid cur) (st_mode cur) (st_mtime cur)
    (readDirectory_atime path (st_atime cur)).

(** The body of [_canonicalisePathMetaData] before the recursion: [st]
    is what [lstat] returned on entry, and the result is the metadata of
    the file after the calls.  Without [lchown] the owner of a symlink is
    left alone. *)
Definition canonicaliseStat (st : Stat) : Stat :=
  let cur := st in
  let cur :=
    if negb (st_uid st =? geteuid) then
      if HAVE_LCHOWN then lchown geteuid cur
      else if negb (S_ISLNK (st_mode st)) then lchown geteuid cur
      else cur
    else cur in
  if negb (S_ISLNK (st_mode st)) then
    let mode := Z.land (st_mode st) (Z.lnot S_IFMT) in
    let cur :=
      if negb (mode =? mode_0444) && negb (mode =? mode_0555) then
        let mode :=
          Z.lor (Z.lor (Z.land (st_mode st) S_IFMT) mode_0444)
            (if negb (Z.land (st_mode st) S_IXUSR =? 0) then mode_0111
             else 0) in
        chmod mode cur
      else cur in
    if negb (st_mtime st =? 0) then utime (st_atime st) 0 cur else cur
  else cur.

(** [t] is what is on disk at [path].  A directory is listed after its
    own metadata has been set, and every name listed is canonicalised as
    [path + "/" + name]. *)
Fixpoint _canonicalisePathMetaData (path : string) (t : FsTree) : FsTree :=
  match t with
  | FsNode st entries =>
      let cur := canonicaliseStat st in
      if S_ISDIR (st_mode st) then
        FsNode (afterReadDirectory path cur)
          (map (λ e : string * FsTree,
                  let '(name, child) := e in
                  (name, _canonicalisePathMetaData (path ++ "/" ++ name)
                           child)) entries)
      else FsNode cur entries
  end.

Definition canonicalisePathMetaData (path : string) (t : FsTree)
  : CanonError + FsTree :=
  let t' := _canonicalisePathMetaData path t in
  match t' with
  | FsNode st _ =>
      if negb (st_uid st =? geteuid) then
        if S_ISLNK (st_mode st) then inl WrongOwnership
        else inl AssertionFails
      else inr t'
  end.

(** Canonical metadata of one file: anything but a symlink has the mode
    bits 0444 or 0555 besides its type, modification time 0 and the
    effective user as owner; with [lchown] a symlink has that owner
    too. *)
Definition canonicalStat (st : Stat) : Prop :=
  (S_ISLNK (st_mode st) = false →
   (Z.land (st_mode st) (Z.lnot S_IFMT) = mode_0444
    ∨ Z.land (st_mode st) (Z.lnot S_IFMT) = mode_0555)
   ∧ st_mtime st = 0 ∧ st_uid st = geteuid)
  ∧ (HAVE_LCHOWN = true → st_uid st = geteuid).

(** Canonical metadata on a path and, through the directories, on
    everything under it. *)
Fixpoint canonicalTree (t : FsTree) : Prop :=
  match t with
  | FsNode st entries =>
      canonicalStat st
      ∧ (S_ISDIR (st_mode st) = true →
         (fix all (l : list (string * FsTree)) : Prop :=
            match l with
            | [] => True
            | (_, child) :: l' => canonicalTree child ∧ all l'
            end) entries)
  end.

(** The two trees have the same entries under the same names, with the
    same file types; what is not a directory has the same access time. *)
Fixpoint sameShape (t t' : FsTree) : Prop :=
  match t, t' with
  | FsNode st entries, FsNode st' entries' =>
      Z.land (st_mode st') S_IFMT = Z.land (st_mode st) S_IFMT
      ∧ (S_ISDIR (st_mode st) = false → st_atime st' = st_atime st)
      ∧ (fix all (l : list (string * FsTree)) (l' : list (string * FsTree))
           : Prop :=
           match l, l' with
           | [], [] => True
           | (name, child) :: l, (name', child') :: l' =>
               name' = name ∧ sameShape child child' ∧ all l l'
           | _, _ => False
           end) entries entries'
  end.

(** The two trees differ at most in the access times of directories:
    the entries and their names, and every owner, mode and modification
    time are the same, and so is the access time of what is not a
    directory. *)
Fixpoint sameButListed (t t' : FsTree) : Prop :=
  match t, t' with
  | FsNode st entries, FsNode st' entries' =>
      st_uid st' = st_uid st ∧ st_mode st' = st_mode st
      ∧ st_mtime st' = st_mtime st
      ∧ (S_ISDIR (st_mode st) = false → st_atime st' = st_atime st)
      ∧ (fix all (l : list (string * FsTree)) (l' : list (string * FsTree))
           : Prop :=
           match l, l' with
           | [], [] => True
           | (name, child) :: l, (name', child') :: l' =>
               name' = name ∧ sameButListed child child' ∧ all l l'
           | _, _ => False
           end) entries entries'
  end.

End Canonicalise.
End Canonicalise.

(** Linux: the values of sys/stat.h, user 1000, with and without
    [lchown]. *)
Module SampleSys.

Definition linux (have_lchown : bool) : SysStat := {|
  S_IFMT := 61440;
  S_IFLNK := 40960;
  S_IFDIR := 16384;
  S_IXUSR := 64;
  geteuid := 1000;
  HAVE_LCHOWN := have_lchown
|}.

(** A directory owned by root with mode 0755, holding a regular file
    with mode 0644 and a symlink, both of user 30001. *)
Definition sampleTree : Canonicalise.FsTree :=
  Canonicalise.FsNode (Canonicalise.mkStat 0 (16384 + 493) 1234 99)
    [("bin", Canonicalise.FsNode
               (Canonicalise.mkStat 30001 (32768 + 420) 777 5) []);
     ("link", Canonicalise.FsNode
                (Canonicalise.mkStat 30001 (40960 + 511) 777 5) [])].

(** A file system that records every access: a directory listed at
    time [now] has [now] as its access time. *)
Definition listedAt (now : Z) : string → Z → Z := λ _ _, now.

End SampleSys.

(** ** The alias graph of the SharedState table *)

Module Aliases.
Import Db.

(** The chain of aliases that starts at [p] ends at [r]: every path on
    the way has the next one as its row, and [r] has no row. *)
Inductive resolvesTo `{Codec} (table : gmap string Value)
  : string → string → Prop :=
  | resolves_here (p : string) :
      queryString table p = None → resolvesTo table p p
  | resolves_next (p q r : string) :
      queryString table p = Some q → resolvesTo table q r →
      resolvesTo table p r.

(** What the calls of a sequence, each given as [(fromExisting, toNew)],
    say about the alias of [p]: the target of the last call that names
    [p] as [toNew], if there is one. *)
Definition lastTarget (calls : list (string * string)) (p : string)
  : option string :=
  foldl (λ target call, if String.eqb call.2 p then Some call.1 else target)
    None calls.

End Aliases.

(** ** Recipes that replace one another *)

Module DeriverCases.
Import StoreApi LocalStore Sample Scenario.






End DeriverCases.

(** * Properties *)

Module Properties.
Import StoreApi LocalStore Db Spec Aliases.

Section Naming.
Context `{G : Globals}.

Lemma nameCharOk_charset (c : ascii) :
  nameCharOk c = bool_decide (c ∈ list_ascii_of_string nameCharset).
Proof.
  destruct c as [[] [] [] [] [] [] [] []]; vm_compute; reflexivity.
Qed.

Lemma substring_0_1_dot (name : string) :
  String.eqb (substring 0 1 name) "." = true
  ↔ ∃ rest, name = String "."%char rest.
Proof.
  destruct name as [|a rest].
  - split; [discriminate | intros [? ?]; discriminate].
  - assert (Hs : substring 0 1 (String a rest) = String a "")
      by (destruct rest; reflexivity).
    rewrite Hs, String.eqb_eq. split.
    + intros [= ->]. eauto.
    + intros [r [= -> _]]. reflexivity.
Qed.

Lemma checkStoreNameChars_ok (name rest : string) :
  (∀ c, c ∈ list_ascii_of_string rest → nameCharOk c = true) →
  checkStoreNameChars name rest = inr tt.
Proof.
  induction rest as [|a rest IH]; simpl; intros Hall; [reflexivity|].
  rewrite (Hall a) by (left). simpl. apply IH.
  intros c Hc. apply Hall. by right.
Qed.

Lemma checkStoreNameChars_err (name rest : string) (e : Error) :
  checkStoreNameChars name rest = inl e →
  ∃ c, e = InvalidCharacter c name
       ∧ c ∈ list_ascii_of_string rest ∧ nameCharOk c = false.
Proof.
  induction rest as [|a rest IH]; simpl; [discriminate|].
  destruct (nameCharOk a) eqn:Ha; simpl.
  - intros He. destruct (IH He) as (c & -> & Hc & Hbad).
    exists c. split; [reflexivity|]. split; [by right | done].
  - intros [= <-]. exists a. split; [reflexivity|]. split; [by left | done].
Qed.

Lemma checkStoreName_spec (name : string) :
  match checkStoreName name with
  | inl e => InvalidName name ∧ isInvalidNameError e
  | inr _ => ¬ InvalidName name
  end.
Proof.
  unfold checkStoreName.
  destruct (String.eqb (substring 0 1 name) ".") eqn:Hdot.
  - simpl. split; [|exact I]. left. by apply substring_0_1_dot.
  - destruct (checkStoreNameChars name name) as [e|[]] eqn:Hchk.
    + destruct (checkStoreNameChars_err _ _ _ Hchk) as (c & -> & Hc & Hbad).
      split; [|exact I]. right. exists c. split; [done|].
      rewrite nameCharOk_charset in Hbad.
      by apply bool_decide_eq_false in Hbad.
    + intros [Hd | (c & Hc & Hout)].
      * apply substring_0_1_dot in Hd. congruence.
      * assert (Hall : ¬ ∀ c, c ∈ list_ascii_of_string name →
                           nameCharOk c = true).
        { intros Hall. specialize (Hall c Hc).
          rewrite nameCharOk_charset in Hall.
          by apply bool_decide_eq_true in Hall. }
        apply Hall. intros c' Hc'.
        destruct (nameCharOk c') eqn:Hok; [done|].
        exfalso.
        assert (Hgen : ∀ rest, c' ∈ list_ascii_of_string rest →
                  checkStoreNameChars name rest ≠ inr tt).
        { induction rest as [|a rest IH]; simpl.
          - by intros ?%elem_of_nil.
          - intros [->|Hin]%elem_of_cons.
            + rewrite Hok. simpl. discriminate.
            + destruct (nameCharOk a); simpl; [by apply IH | discriminate]. }
        by apply (Hgen name Hc').
Qed.

(** C1. [makeStorePath type h name] is
    [<store-root>/<base32(truncate20(sha256(type:sha256:hex(h):<store-root>:name)))>-name];
    it throws, with one of the two InvalidName exceptions, exactly when
    the name starts with a dot or holds a character outside
    [A-Za-z0-9+-._?=]. *)
Theorem makeStorePath_spec (type : string) (h : Hash) (name : string) :
  match makeStorePath type h name with
  | inl e => InvalidName name ∧ isInvalidNameError e
  | inr p =>
      ¬ InvalidName name
      ∧ p = nixStore ++ "/"
            ++ printHash32
                 (compressHash
                    (hashString htSHA256
                       (type ++ ":sha256:" ++ printHash h ++ ":"
                        ++ nixStore ++ ":" ++ name)) 20)
            ++ "-" ++ name
  end.
Proof.
  unfold makeStorePath.
  pose proof (checkStoreName_spec name) as Hname.
  destruct (checkStoreName name) as [e|[]]; simpl; [exact Hname|].
  split; [exact Hname | reflexivity].
Qed.

(** C6 (what the code does). Whatever state path a derivation declares,
    [checkStatePath] returns normally as soon as the recomputation itself
    succeeds: the mismatch branch builds the exception and does not throw
    it. *)
Theorem checkStatePath_accepts_mismatch (drv : Derivation)
  (so : DerivationStateOutput) (suffix calculatedPath : string) :
  stateOutputs drv !! "state" = Some so →
  env drv !! "name" = Some suffix →
  makeStatePath (componentHash so) suffix (stateIdentifier so)
    = inr calculatedPath →
  statepath so ≠ calculatedPath →
  checkStatePath drv = inr tt.
Proof.
  intros Hso Hname Hcalc _.
  unfold checkStatePath, find_second. rewrite Hso. simpl.
  rewrite Hname. simpl. rewrite Hcalc. simpl.
  by destruct (negb _).
Qed.

End Naming.

Lemma checkStatePath_accepts_mismatch_witness :
  Scenario.spoofedDrv.(stateOutputs) !! "state"
    = Some (mkDerivationStateOutput "/nix/state/bogus" "abcd" "default" "alice")
  ∧ "/nix/state/bogus"
    ≠ "/nix/state/:sha256:abcd:/nix/st-hello-default"
  ∧ checkStatePath (G := Sample.globals) Scenario.spoofedDrv = inr tt.
Proof.
  split; [reflexivity|]. split; [discriminate|].
  apply (checkStatePath_accepts_mismatch (G := Sample.globals)
           Scenario.spoofedDrv
           (mkDerivationStateOutput "/nix/state/bogus" "abcd" "default" "alice")
           "hello" "/nix/state/:sha256:abcd:/nix/st-hello-default").
  - reflexivity.
  - reflexivity.
  - vm_compute. reflexivity.
  - discriminate.
Defined.

Section Registry.
Context `{G : Globals} `{C : Codec} `{B : Backend}.

Lemma elem_of_Paths_of (X : PathSet) (x : string) : x ∈ Paths_of X ↔ x ∈ X.
Proof.
  unfold Paths_of. rewrite merge_sort_Permutation. apply elem_of_elements.
Qed.

Lemma Paths_of_empty : Paths_of ∅ = [].
Proof. unfold Paths_of. by rewrite elements_empty. Qed.

Lemma Paths_of_singleton (x : string) : Paths_of {[ x ]} = [x].
Proof. unfold Paths_of. by rewrite elements_singleton. Qed.

Lemma NoDup_Paths_of (X : PathSet) : NoDup (Paths_of X).
Proof.
  unfold Paths_of. rewrite merge_sort_Permutation. apply NoDup_elements.
Qed.

Lemma isValidPathTxn_true (s : Store) (p : string) :
  isValidPathTxn s p = true ↔ is_Some (dbValidPaths s !! p).
Proof.
  unfold isValidPathTxn, queryString. rewrite bool_decide_eq_true.
  destruct (dbValidPaths s !! p) as [[]|]; split; intros [? ?]; try done; eauto.
Qed.

Lemma isValidPathTxn_false (s : Store) (p : string) :
  isValidPathTxn s p = false ↔ dbValidPaths s !! p = None.
Proof.
  unfold isValidPathTxn, queryString. rewrite bool_decide_eq_false.
  destruct (dbValidPaths s !! p) as [[]|]; split; intros Hn; try done;
    try (exfalso; apply Hn; eauto); by intros [? ?].
Qed.

(** *** Shared state *)

Lemma toNonSharedPath_loop_aliasWalk (fuel : nat) (s : Store) (p : string) :
  toNonSharedPath_loop fuel s p = aliasWalk (dbSharedState s) fuel p.
Proof.
  revert p. induction fuel as [|n IH]; intros p; simpl;
    unfold querySharedStateTxn; destruct (queryString _ p); auto.
Qed.

Lemma aliasWalk_S (table : gmap string Value) (n : nat) (p r : string) :
  aliasWalk table n p = Some r → aliasWalk table (S n) p = Some r.
Proof.
  revert p. induction n as [|n IH]; intros p.
  - simpl. by destruct (queryString table p).
  - intros Hw. change (aliasWalk table (S (S n)) p) with
      (match queryString table p with
       | None => Some p
       | Some q => aliasWalk table (S n) q
       end).
    simpl in Hw. destruct (queryString table p); [by apply IH | done].
Qed.

Lemma aliasWalk_le (table : gmap string Value) (n m : nat) (p r : string) :
  (n ≤ m)%nat →
  aliasWalk table n p = Some r → aliasWalk table m p = Some r.
Proof. induction 1; [done|]. intros. by apply aliasWalk_S, IHle. Qed.

Lemma aliasWalk_end (table : gmap string Value) (n : nat) (p r : string) :
  aliasWalk table n p = Some r → queryString table r = None.
Proof.
  revert p. induction n as [|n IH]; intros p; simpl;
    destruct (queryString table p) eqn:Hq; try done.
  - by intros [= <-].
  - apply IH.
  - by intros [= <-].
Qed.

Lemma queryString_delete (table : gmap string Value) (p x : string) :
  queryString (delete p table) x
  = if decide (x = p) then None else queryString table x.
Proof.
  unfold queryString. destruct (decide (x = p)) as [->|Hne].
  - by rewrite lookup_delete_eq.
  - by rewrite lookup_delete_ne.
Qed.

(** A walk that ends before any walk from [p] could end does not pass
    through [p]. *)
Lemma aliasWalk_avoids (table : gmap string Value) (p r : string) (k : nat)
  (x : string) :
  aliasWalk table k x = Some r →
  (∀ m, aliasWalk table m p = Some r → (k < m)%nat) →
  aliasWalk (delete p table) k x = Some r.
Proof.
  revert x. induction k as [|k IH]; intros x Hw Hp.
  - destruct (decide (x = p)) as [->|Hne]; [by apply Hp in Hw; lia|].
    simpl in *. rewrite queryString_delete, decide_False by done.
    by destruct (queryString table x).
  - destruct (decide (x = p)) as [->|Hne]; [by apply Hp in Hw; lia|].
    simpl in *. rewrite queryString_delete, decide_False by done.
    destruct (queryString table x); [|done].
    apply IH; [done|]. intros m Hm. apply Hp in Hm. lia.
Qed.

Lemma aliasWalk_restore (table : gmap string Value) (p r : string) (m : nat)
  (x : string) :
  r ≠ p →
  aliasWalk (delete p table) m x = Some r →
  aliasWalk table m x = Some r.
Proof.
  intros Hr. revert x. induction m as [|m IH]; intros x; simpl;
    rewrite queryString_delete; destruct (decide (x = p)) as [->|Hne].
  - by intros [= <-].
  - by destruct (queryString table x).
  - by intros [= <-].
  - destruct (queryString table x); [apply IH | done].
Qed.

(** As many iterations as the table has rows are enough for every walk
    that ends: [toNonSharedPathTxn] reports [DoesNotTerminate] only for a
    walk that no number of iterations completes. *)
Lemma aliasWalk_size (n : nat) :
  ∀ (table : gmap string Value) (p r : string),
    aliasWalk table n p = Some r → aliasWalk table (size table) p = Some r.
Proof.
  induction n as [n IH] using lt_wf_ind. intros table p r Hw.
  destruct n as [|n].
  { apply (aliasWalk_le table 0); [lia | done]. }
  destruct (decide (aliasWalk table n p = Some r)) as [Hless|Hmin].
  { apply (IH n); [lia | done]. }
  assert (Hlow : ∀ m, aliasWalk table m p = Some r → (n < m)%nat).
  { intros m Hm. destruct (decide (n < m)%nat); [done|].
    destruct Hmin. apply (aliasWalk_le table m); [lia | done]. }
  simpl in Hw. destruct (queryString table p) as [q|] eqn:Hq.
  2: { injection Hw as <-. apply (aliasWalk_le table 0); [lia|].
       simpl. by rewrite Hq. }
  assert (Hav : aliasWalk (delete p table) n q = Some r).
  { apply aliasWalk_avoids; [done|]. exact Hlow. }
  apply (IH n) in Hav; [|lia].
  assert (Hrp : r ≠ p).
  { intros ->. apply aliasWalk_end in Hw. congruence. }
  apply aliasWalk_restore in Hav; [|done].
  assert (Hdom : is_Some (table !! p)).
  { unfold queryString in Hq. destruct (table !! p); [eauto | done]. }
  destruct Hdom as [v Hv].
  assert (Hsize : size table = S (size (delete p table))).
  { rewrite <- (insert_delete_id table p v Hv) at 1.
    apply map_size_insert_None, lookup_delete_eq. }
  rewrite Hsize. simpl. by rewrite Hq.
Qed.

Lemma toNonSharedPathTxn_complete (s : Store) (p r : string) (fuel : nat) :
  toNonSharedPath_loop fuel s p = Some r → toNonSharedPathTxn s p = inr r.
Proof.
  rewrite toNonSharedPath_loop_aliasWalk. intros Hw%aliasWalk_size.
  unfold toNonSharedPathTxn.
  by rewrite toNonSharedPath_loop_aliasWalk, Hw.
Qed.

(** The chains of [resolvesTo] are the walks that end. *)
Lemma resolvesTo_aliasWalk (table : gmap string Value) (p r : string) :
  resolvesTo table p r ↔ ∃ k, aliasWalk table k p = Some r.
Proof.
  split.
  - induction 1 as [p Hp|p q r Hq _ [k Hk]].
    + exists 0%nat. simpl. by rewrite Hp.
    + exists (S k). simpl. by rewrite Hq.
  - intros [k Hk]. revert p Hk.
    induction k as [|k IH]; intros p; simpl;
      destruct (queryString table p) as [q|] eqn:Hq; try done.
    + intros [= <-]. by constructor.
    + intros Hk. eapply resolves_next; [done | by apply IH].
    + intros [= <-]. by constructor.
Qed.

Lemma toNonSharedPathTxn_resolvesTo (s : Store) (p r : string) :
  toNonSharedPathTxn s p = inr r ↔ resolvesTo (dbSharedState s) p r.
Proof.
  rewrite resolvesTo_aliasWalk. split.
  - unfold toNonSharedPathTxn. rewrite toNonSharedPath_loop_aliasWalk.
    destruct (aliasWalk _ _ p) as [r'|] eqn:Hw; [|done].
    intros [= <-]. eauto.
  - intros [k Hk]. apply (toNonSharedPathTxn_complete s p r k).
    by rewrite toNonSharedPath_loop_aliasWalk.
Qed.

Lemma querySharedStateTxn_setSharedStateTxn (s : Store)
  (fromExisting toNew p : string) :
  querySharedStateTxn (setSharedStateTxn s fromExisting toNew) p
  = if String.eqb toNew p then Some fromExisting
    else querySharedStateTxn s p.
Proof.
  unfold querySharedStateTxn, setSharedStateTxn, queryString, setString,
    delPair. simpl.
  destruct (String.eqb_spec toNew p) as [->|Hne].
  - by rewrite lookup_insert_eq.
  - by rewrite lookup_insert_ne, lookup_delete_ne.
Qed.

(** After a sequence of calls, the alias of a path is the target of the
    last call that named it, and the one it had before when no call
    did. *)
Lemma querySharedStateTxn_setSharedStateCalls (calls : list (string * string))
  (s : Store) (p : string) :
  querySharedStateTxn (setSharedStateCalls calls s) p
  = match lastTarget calls p with
    | Some target => Some target
    | None => querySharedStateTxn s p
    end.
Proof.
  induction calls as [|[a b] calls IH] using rev_ind; [done|].
  unfold setSharedStateCalls, lastTarget in *. rewrite !foldl_snoc. simpl.
  rewrite querySharedStateTxn_setSharedStateTxn.
  by destruct (String.eqb b p).
Qed.

(** A walk in the table without the row of [toNew] either is a walk of
    the table after the call, or has reached [toNew]. *)
Lemma aliasWalk_without_row (table : gmap string Value)
  (fromExisting toNew r : string) (k : nat) (x : string) :
  aliasWalk (<[toNew := VString fromExisting]> (delete toNew table)) k x
    = Some r →
  aliasWalk (delete toNew table) k x = Some r
  ∨ ∃ j, aliasWalk (delete toNew table) j x = Some toNew.
Proof.
  set (t := delete toNew table).
  set (t' := <[toNew := VString fromExisting]> t).
  assert (Hnew : queryString t' toNew = Some fromExisting).
  { unfold queryString, t'. by rewrite lookup_insert_eq. }
  assert (Hold : ∀ y, y ≠ toNew → queryString t' y = queryString t y).
  { intros y Hy. unfold queryString, t'. by rewrite lookup_insert_ne. }
  assert (Htip : queryString t toNew = None).
  { unfold queryString, t. by rewrite lookup_delete_eq. }
  revert x. induction k as [|k IH]; intros x Hw.
  - left. destruct (decide (x = toNew)) as [->|Hne]; simpl in *.
    + by rewrite Hnew in Hw.
    + by rewrite Hold in Hw.
  - destruct (decide (x = toNew)) as [->|Hne].
    { right. exists 0%nat. simpl. by rewrite Htip. }
    simpl in Hw. rewrite Hold in Hw by done.
    destruct (queryString t x) as [q|] eqn:Hq.
    + destruct (IH _ Hw) as [Hsame|[j Hj]].
      * left. simpl. by rewrite Hq.
      * right. exists (S j). simpl. by rewrite Hq.
    + left. simpl. by rewrite Hq.
Qed.

(** Once the chain of [fromExisting] comes back to [toNew], no walk on
    the chain ends. *)
Lemma aliasWalk_closed_cycle (table : gmap string Value)
  (fromExisting toNew : string) (k0 : nat) :
  aliasWalk (delete toNew table) k0 fromExisting = Some toNew →
  ∀ n x k, aliasWalk (delete toNew table) k x = Some toNew →
    aliasWalk (<[toNew := VString fromExisting]> (delete toNew table)) n x
    = None.
Proof.
  intros Hk0. set (t := delete toNew table).
  set (t' := <[toNew := VString fromExisting]> t).
  assert (Hnew : queryString t' toNew = Some fromExisting).
  { unfold queryString, t'. by rewrite lookup_insert_eq. }
  assert (Hold : ∀ x, x ≠ toNew → queryString t' x = queryString t x).
  { intros x Hx. unfold queryString, t'. by rewrite lookup_insert_ne. }
  assert (Htip : queryString t toNew = None).
  { unfold queryString, t. by rewrite lookup_delete_eq. }
  induction n as [n IHn] using lt_wf_ind. intros x k. revert x.
  induction k as [|k IHk]; intros x Hx.
  - simpl in Hx. destruct (queryString t x) eqn:Hq; [done|].
    injection Hx as ->. destruct n as [|n]; simpl; rewrite Hnew; [done|].
    apply (IHn n (Nat.lt_succ_diag_r n) fromExisting k0 Hk0).
  - destruct (decide (x = toNew)) as [->|Hne].
    + destruct n as [|n]; simpl; rewrite Hnew; [done|].
      apply (IHn n (Nat.lt_succ_diag_r n) fromExisting k0 Hk0).
    + simpl in Hx. destruct (queryString t x) as [q|] eqn:Hq.
      * destruct n as [|n]; simpl; rewrite (Hold x Hne), Hq; [done|].
        apply (IHn n (Nat.lt_succ_diag_r n) q k Hx).
      * by injection Hx as ->.
Qed.

(** C10. [setSharedState(fromExisting, toNew)] deletes the row of
    [toNew] and sets it to [fromExisting].  After any sequence of calls
    the alias of a path is the target of the last call that named it as
    [toNew] (the one it had at the start when no call did): one alias at
    most.  [toNonSharedPathTxn] from [toNew] then returns [r] exactly
    when the chain of [fromExisting] ends at [r]; in terms of the table
    before the call, exactly when the chain of [fromExisting] in the
    table without the old row of [toNew] ends at a path [r] other than
    [toNew].  Where that chain comes back to [toNew], the loop does not
    end. *)
Theorem setSharedState_partial_function (calls : list (string * string))
  (s : Store) (fromExisting toNew : string) :
  let s0 := setSharedStateCalls calls s in
  let s' := setSharedStateTxn s0 fromExisting toNew in
  dbSharedState s'
    = <[toNew := VString fromExisting]> (delete toNew (dbSharedState s0))
  ∧ (∀ p, querySharedStateTxn s' p
          = match lastTarget (calls ++ [(fromExisting, toNew)]) p with
            | Some target => Some target
            | None => querySharedStateTxn s p
            end)
  ∧ (∀ r, toNonSharedPathTxn s' toNew = inr r
          ↔ resolvesTo (dbSharedState s') fromExisting r)
  ∧ (∀ r, toNonSharedPathTxn s' toNew = inr r
          ↔ resolvesTo (delete toNew (dbSharedState s0)) fromExisting r
            ∧ r ≠ toNew)
  ∧ (resolvesTo (delete toNew (dbSharedState s0)) fromExisting toNew →
     toNonSharedPathTxn s' toNew = inl DoesNotTerminate).
Proof.
  intros s0 s'.
  assert (Htab : dbSharedState s'
    = <[toNew := VString fromExisting]> (delete toNew (dbSharedState s0)))
    by reflexivity.
  assert (Hq : queryString (dbSharedState s') toNew = Some fromExisting).
  { unfold queryString. by rewrite Htab, lookup_insert_eq. }
  assert (Hstep : ∀ r, toNonSharedPathTxn s' toNew = inr r
                       ↔ resolvesTo (dbSharedState s') fromExisting r).
  { intros r. rewrite toNonSharedPathTxn_resolvesTo. split.
    - inversion 1 as [p Hp|p q r' Hp Hrest]; subst; [congruence|].
      by replace fromExisting with q by congruence.
    - intros Hr. by eapply resolves_next. }
  assert (Hcycle : resolvesTo (delete toNew (dbSharedState s0)) fromExisting
                     toNew →
                   ∀ n, aliasWalk (dbSharedState s') n fromExisting = None).
  { intros [k0 Hk0]%resolvesTo_aliasWalk n. rewrite Htab.
    by apply (aliasWalk_closed_cycle _ _ _ k0 Hk0 n fromExisting k0). }
  split; [exact Htab|]. split.
  { intros p. rewrite <- querySharedStateTxn_setSharedStateCalls.
    unfold s', s0, setSharedStateCalls. by rewrite foldl_snoc. }
  split; [exact Hstep|]. split.
  - intros r. rewrite Hstep, !resolvesTo_aliasWalk. split.
    + intros [k Hk].
      assert (Hr : r ≠ toNew).
      { intros ->. apply aliasWalk_end in Hk. congruence. }
      split; [|done]. pose proof Hk as Hk'. rewrite Htab in Hk'.
      apply aliasWalk_without_row in Hk' as [?|[j Hj]]; [by eauto|].
      rewrite Hcycle in Hk; [done|]. apply resolvesTo_aliasWalk. eauto.
    + intros [[k Hk] Hr]. exists k. apply (aliasWalk_restore _ toNew); [done|].
      by rewrite Htab, delete_insert_eq, delete_delete_eq.
  - intros Hback. unfold toNonSharedPathTxn.
    rewrite toNonSharedPath_loop_aliasWalk.
    destruct (aliasWalk _ _ toNew) as [r|] eqn:Hw; [|done].
    assert (Hres : resolvesTo (dbSharedState s') fromExisting r).
    { apply Hstep, toNonSharedPathTxn_resolvesTo, resolvesTo_aliasWalk.
      eauto. }
    apply resolvesTo_aliasWalk in Hres as [k Hk].
    by rewrite Hcycle in Hk.
Qed.

(** *** Substitutes *)

(** C9 (what the code does). Registering a substitute that the row
    already holds, under [operator ==], returns before anything is
    written: the store, and so the order of the row, stays as it was. *)
Theorem registerSubstitute_present_unchanged (s : Store) (srcPath : string)
  (sub : Substitute) (subs : list Substitute) :
  isStorePath srcPath = true →
  readSubstitutes s srcPath = inr subs →
  existsb (λ x, Substitute_eq x sub) subs = true →
  registerSubstitute s srcPath sub = inr s.
Proof.
  intros Hp Hsubs Hin. unfold registerSubstitute, assertStorePath.
  rewrite Hp. simpl. rewrite Hsubs. simpl. by rewrite Hin.
Qed.

(** *** Deletion *)

Lemma checkNotInUse_ok (s : Store) (path : string) (referrers : list string) :
  (∀ i, i ∈ referrers → i ≠ path → isValidPathTxn s i = false) →
  checkNotInUse s path referrers = inr tt.
Proof.
  induction referrers as [|i rest IH]; intros Hall; [reflexivity|].
  simpl. destruct (String.eqb i path) eqn:Heq; simpl.
  - apply IH. intros j Hj. apply Hall. by right.
  - rewrite (Hall i); [|by left|by apply String.eqb_neq].
    apply IH. intros j Hj. apply Hall. by right.
Qed.

(** C7 (amended). Deleting a valid store path that no other valid path
    refers to and that has substitutes removes its validity row and
    leaves the references, substitutes and derivers tables as they were:
    [invalidatePath] clears references only when there is no substitute. *)
Theorem deleteFromStore_with_substitutes (s : Store) (_path : string)
  (referrers : PathSet) (subs : list Substitute) :
  let path := canonPath _path in
  isStorePath path = true →
  isValidPathTxn s path = true →
  getReferrersTxn s path UINT_MAX = inr referrers →
  (∀ i, i ∈ referrers → i ≠ path → isValidPathTxn s i = false) →
  readSubstitutes s path = inr subs →
  subs ≠ [] →
  ∃ s', deleteFromStore s _path = inr s'
        ∧ isValidPathTxn s' path = false
        ∧ dbComponentComponentReferences s' = dbComponentComponentReferences s
        ∧ dbComponentStateReferences s' = dbComponentStateReferences s
        ∧ dbSubstitutes s' = dbSubstitutes s
        ∧ dbDerivers s' = dbDerivers s.
Proof.
  intros path Hstore Hvalid Href Hnone Hsubs Hne.
  unfold deleteFromStore, assertStorePath. fold path.
  rewrite Hstore. simpl. rewrite Hvalid, Href. simpl.
  rewrite checkNotInUse_ok
    by (intros i Hi; apply Hnone; by apply elem_of_Paths_of).
  simpl. unfold invalidatePath, querySubstitutes. rewrite Hsubs. simpl.
  destruct subs as [|sub subs']; [done|]. simpl.
  eexists. split; [reflexivity|].
  split; [|by repeat split].
  apply isValidPathTxn_false. simpl. unfold delPair. apply lookup_delete_eq.
Qed.

(** *** The verifier *)

(** C8 (what the code does). On a store whose only row is a
    component-component references row, for a key that is then neither
    valid nor substitutable, [verifyStore] calls [setReferences] to clear
    the row and [setReferences] throws. *)
Theorem verifyStore_throws_on_unrealisable_key (k : string) (refs : Value)
  (checkContents : bool) :
  verifyStore
    (set_dbComponentComponentReferences {[ k := refs ]} emptyStore)
    checkContents
  = inl (NotComponentOrStatePath k).
Proof.
  unfold verifyStore, enumTable. simpl.
  repeat (rewrite dom_empty_L, Paths_of_empty; simpl).
  rewrite dom_singleton_L, Paths_of_singleton.
  cbn -[setReferences]. rewrite bool_decide_eq_false_2 by set_solver.
  cbn -[setReferences]. rewrite setReferences_unrealisable; done.
Qed.

End Registry.

(** C10 at an empty table: after [setSharedState(stateS, stateT)] and
    then [setSharedState(stateU, stateT)], the alias of [stateT] is
    [stateU], and the walk from [stateT] returns [stateU]. *)
Lemma setSharedState_partial_function_witness :
  querySharedStateTxn
    (setSharedStateTxn
       (setSharedStateCalls [(Scenario.stateS, Scenario.stateT)] emptyStore)
       Cases.stateU Scenario.stateT)
    Scenario.stateT
  = Some Cases.stateU
  ∧ toNonSharedPathTxn
      (setSharedStateTxn
         (setSharedStateCalls [(Scenario.stateS, Scenario.stateT)] emptyStore)
         Cases.stateU Scenario.stateT)
      Scenario.stateT
    = inr Cases.stateU.
Proof.
  destruct (setSharedState_partial_function
              [(Scenario.stateS, Scenario.stateT)] emptyStore
              Cases.stateU Scenario.stateT) as (_ & Hq & _ & Hw & _).
  split; [exact (Hq Scenario.stateT)|].
  apply Hw. split; [|discriminate]. by apply resolves_here.
Defined.

Lemma registerSubstitute_present_unchanged_witness :
  readSubstitutes Scenario.substituteStore Scenario.P
    = inr [Scenario.sub1; Scenario.sub2]
  ∧ registerSubstitute Scenario.substituteStore Scenario.P Scenario.sub2'
    = inr Scenario.substituteStore.
Proof.
  split; [vm_compute; reflexivity|].
  apply (registerSubstitute_present_unchanged Scenario.substituteStore
           Scenario.P Scenario.sub2' [Scenario.sub1; Scenario.sub2]).
  - vm_compute. reflexivity.
  - vm_compute. reflexivity.
  - vm_compute. reflexivity.
Defined.

Lemma deleteFromStore_with_substitutes_witness :
  ∃ s', deleteFromStore Scenario.deletionStore Scenario.P = inr s'
        ∧ isValidPathTxn s' Scenario.P = false
        ∧ dbComponentComponentReferences s'
          = dbComponentComponentReferences Scenario.deletionStore
        ∧ dbComponentStateReferences s'
          = dbComponentStateReferences Scenario.deletionStore
        ∧ dbSubstitutes s' = dbSubstitutes Scenario.deletionStore
        ∧ dbDerivers s' = dbDerivers Scenario.deletionStore.
Proof.
  refine (deleteFromStore_with_substitutes (B := Sample.backend)
            Scenario.deletionStore Scenario.P ∅ [Scenario.sub1] _ _ _ _ _ _).
  - vm_compute. reflexivity.
  - vm_compute. reflexivity.
  - vm_compute. reflexivity.
  - intros i Hi. by apply not_elem_of_empty in Hi.
  - vm_compute. reflexivity.
  - discriminate.
Defined.

(** C7 (counterexample). [Scenario.P] is valid, has a substitute and no
    referrer, and refers to [Scenario.Q]; after [deleteFromStore] its
    references row still holds [Scenario.Q]. *)
Lemma deleteFromStore_clears_references_counterexample :
  isValidPathTxn Scenario.deletionStore Scenario.P = true
  ∧ getReferrersTxn Scenario.deletionStore Scenario.P UINT_MAX = inr ∅
  ∧ readSubstitutes Scenario.deletionStore Scenario.P = inr [Scenario.sub1]
  ∧ ∃ s', deleteFromStore Scenario.deletionStore Scenario.P = inr s'
          ∧ queryStrings (dbComponentComponentReferences s') Scenario.P
            = [Scenario.Q]
          ∧ queryStrings (dbComponentComponentReferences s') Scenario.P ≠ [].
Proof.
  split; [vm_compute; reflexivity|].
  split; [vm_compute; reflexivity|].
  split; [vm_compute; reflexivity|].
  eexists. split; [vm_compute; reflexivity|].
  split; [vm_compute; reflexivity | vm_compute; discriminate].
Qed.

Section Registration.
Context `{G : Globals} `{C : Codec} `{B : Backend}.

Lemma noInvalidReference_bind {A D : Type} (m : Result A) (f : A → Result D) :
  noInvalidReference m →
  (∀ a, m = inr a → noInvalidReference (f a)) →
  noInvalidReference (m ≫= f).
Proof. destruct m as [e|a]; simpl; [done | eauto]. Qed.

Lemma noInvalidReference_readSubstitutes_loop (ss : list string) :
  noInvalidReference (readSubstitutes_loop ss).
Proof.
  induction ss as [|i rest IH]; simpl; [done|].
  repeat (case_match; simpl; try done).
  apply noInvalidReference_bind; [done|]. intros; done.
Qed.

Lemma noInvalidReference_isRealisable (s : Store) (p : string) :
  noInvalidReference (isRealisablePath s p)
  ∧ noInvalidReference (isRealisableStatePath s p)
  ∧ noInvalidReference (isRealisableComponentOrStatePath s p).
Proof.
  unfold isRealisablePath, isRealisableStatePath,
    isRealisableComponentOrStatePath, readSubstitutes.
  pose proof (noInvalidReference_readSubstitutes_loop
                (queryStrings (dbSubstitutes s) p)) as Hr.
  repeat split; case_match; simpl; try done;
    (apply noInvalidReference_bind; [done | intros; done]).
Qed.

Lemma keepsValidity_setReferences (s : Store) (p : string)
  (references stateReferences : PathSet) (revision : N) :
  keepsValidity s (setReferences s p references stateReferences revision).
Proof.
  destruct (noInvalidReference_isRealisable s p) as (H1 & H2 & H3).
  unfold setReferences, orThrow.
  destruct (isRealisableComponentOrStatePath s p) as [e3|b3];
  destruct (isRealisablePath s p) as [e1|b1];
  destruct (isRealisableStatePath s p) as [e2|b2];
  simpl in *; repeat (case_match; simpl in *; try done).
Qed.

Lemma noInvalidReference_derivationFromPathTxn (s : Store) (p : string) :
  noInvalidReference (derivationFromPathTxn s p).
Proof. unfold derivationFromPathTxn. repeat (case_match; simpl; try done). Qed.

Lemma noInvalidReference_find_second {V : Type} (m : gmap string V)
  (key : string) : noInvalidReference (find_second m key).
Proof. unfold find_second. by case_match. Qed.

Lemma noInvalidReference_queryDerivers_loop (s : Store)
  (storePath identifier user : string) (alldata : list string)
  (acc : PathSet) :
  noInvalidReference
    (queryDerivers_loop s storePath identifier user alldata acc).
Proof.
  revert acc. induction alldata as [|d rest IH]; intros acc; simpl; [done|].
  apply noInvalidReference_bind;
    [apply noInvalidReference_derivationFromPathTxn|].
  intros drv _. case_match; simpl; [done|].
  apply noInvalidReference_bind; [apply noInvalidReference_find_second|].
  intros so _. apply IH.
Qed.

Lemma noInvalidReference_queryDerivers (s : Store)
  (storePath identifier user : string) :
  noInvalidReference (queryDerivers s storePath identifier user).
Proof.
  unfold queryDerivers.
  apply noInvalidReference_bind; [apply noInvalidReference_isRealisable|].
  intros r _. repeat (case_match; simpl; try done).
  apply noInvalidReference_queryDerivers_loop.
Qed.

Lemma set_fs_set_fs (f g : gmap string FsObject) (s : Store) :
  set_fs f (set_fs g s) = set_fs f s.
Proof. reflexivity. Qed.

Lemma set_fs_fs (s : Store) : set_fs (fs s) s = s.
Proof. by destruct s. Qed.

Lemma onlyFsChanged_mergeNewDerivation_loop (s : Store)
  (newdrv identifier user : string) (deleteDrvs : bool) (drvs : list string)
  (newdrvs : PathSet) :
  onlyFsChanged s
    (mergeNewDerivation_loop s newdrv identifier user deleteDrvs drvs newdrvs).
Proof.
  revert s newdrvs. induction drvs as [|d rest IH]; intros s newdrvs; simpl.
  - by rewrite set_fs_fs.
  - pose proof (noInvalidReference_derivationFromPathTxn s d) as Hd.
    destruct (derivationFromPathTxn s d) as [e|getdrv]; simpl; [done|].
    pose proof (noInvalidReference_find_second (stateOutputs getdrv) "state")
      as Hf.
    destruct (find_second (stateOutputs getdrv) "state") as [e|so];
      simpl; [done|].
    repeat case_match; try apply IH.
    specialize (IH (deletePath s d) newdrvs).
    unfold onlyFsChanged in *.
    destruct (mergeNewDerivation_loop (deletePath s d) _ _ _ _ _ _)
      as [e|[nd s']]; [done|].
    rewrite IH. unfold deletePath. by rewrite !set_fs_set_fs.
Qed.

Lemma onlyFsChanged_mergeNewDerivationIntoListTxn (s : Store)
  (storepath newdrv : string) (drvs : PathSet) (deleteDrvs : bool) :
  onlyFsChanged s
    (mergeNewDerivationIntoListTxn s storepath newdrv drvs deleteDrvs).
Proof.
  unfold mergeNewDerivationIntoListTxn.
  pose proof (noInvalidReference_derivationFromPathTxn s newdrv) as Hd.
  destruct (derivationFromPathTxn s newdrv) as [e|drv]; simpl; [done|].
  pose proof (noInvalidReference_find_second (stateOutputs drv) "state") as Hf.
  destruct (find_second (stateOutputs drv) "state") as [e|so]; simpl; [done|].
  pose proof (onlyFsChanged_mergeNewDerivation_loop s newdrv
                (stateIdentifier so) (username so) deleteDrvs
                (Paths_of drvs) ∅) as Hl.
  destruct (mergeNewDerivation_loop _ _ _ _ _ _ _) as [e|[nd s']]; done.
Qed.

Lemma noInvalidReference_assertStorePath (p : string) :
  noInvalidReference (assertStorePath p).
Proof. unfold assertStorePath. by case_match. Qed.

Lemma keepsValidity_addStateDeriver (s : Store) (storePath deriver : string) :
  keepsValidity s (addStateDeriver s storePath deriver).
Proof.
  unfold addStateDeriver, assertStorePath.
  repeat (case_match; simpl; try done).
  destruct (noInvalidReference_isRealisable s storePath) as (Hreal & _).
  destruct (isRealisablePath s storePath) as [e|r]; simpl; [done|].
  case_match; simpl; [done|].
  pose proof (noInvalidReference_derivationFromPathTxn s deriver) as Hd.
  destruct (derivationFromPathTxn s deriver) as [e|drv]; simpl; [done|].
  pose proof (noInvalidReference_find_second (stateOutputs drv) "state") as Hf.
  destruct (find_second (stateOutputs drv) "state") as [e|so]; simpl; [done|].
  pose proof (noInvalidReference_queryDerivers s storePath
                (stateIdentifier so) (username so)) as Hq.
  destruct (queryDerivers s storePath _ _) as [e|cur]; simpl; [done|].
  pose proof (onlyFsChanged_mergeNewDerivationIntoListTxn s storePath deriver
                cur true) as Hm.
  destruct (mergeNewDerivationIntoListTxn _ _ _ _ _) as [e|[upd s1]];
    simpl; [done|].
  simpl in Hm. by rewrite Hm.
Qed.

Lemma keepsValidity_setDeriver (s : Store) (storePath deriver : string) :
  keepsValidity s (setDeriver s storePath deriver).
Proof.
  unfold setDeriver, assertStorePath, isStateDrvPathTxn.
  repeat (case_match; simpl; try done).
  destruct (noInvalidReference_isRealisable s storePath) as (Hreal & _).
  destruct (isRealisablePath s storePath) as [e|r]; simpl; [done|].
  case_match; simpl; [done|].
  pose proof (noInvalidReference_derivationFromPathTxn s deriver) as Hd.
  destruct (derivationFromPathTxn s deriver) as [e|drv]; simpl; [done|].
  case_match; [apply keepsValidity_addStateDeriver | done].
Qed.

Lemma isValidPathTxn_ext (s s' : Store) (j : string) :
  dbValidPaths s' = dbValidPaths s → isValidPathTxn s' j = isValidPathTxn s j.
Proof. unfold isValidPathTxn. by intros ->. Qed.

Lemma isValidPathTxn_setString (s : Store) (p v j : string) :
  isValidPathTxn (set_dbValidPaths (setString (dbValidPaths s) p v) s) j = true
  ↔ j = p ∨ isValidPathTxn s j = true.
Proof.
  rewrite !isValidPathTxn_true. simpl. unfold setString.
  destruct (decide (j = p)) as [->|Hne].
  - rewrite lookup_insert_eq. split; eauto.
  - rewrite lookup_insert_ne by done. split; [eauto | by intros [?|?]].
Qed.

Lemma checkReferencesValid_spec (s : Store) (newPaths : PathSet)
  (path : string) (references : list string) :
  match checkReferencesValid s newPaths path references with
  | inl e => ∃ j, e = InvalidReference path j ∧ j ∈ references
                  ∧ isValidPathTxn s j = false ∧ j ∉ newPaths
  | inr _ => ∀ j, j ∈ references → isValidPathTxn s j = true ∨ j ∈ newPaths
  end.
Proof.
  induction references as [|j rest IH]; simpl.
  - intros j Hj. by apply elem_of_nil in Hj.
  - destruct (isValidPathTxn s j) eqn:Hv; simpl.
    + destruct (checkReferencesValid s newPaths path rest) as [e|[]].
      * destruct IH as (j' & -> & Hj' & ?). exists j'.
        split; [done|]. split; [by right | done].
      * intros j' [->|Hj']%elem_of_cons; [by left | by apply IH].
    + destruct (decide (j ∈ newPaths)) as [Hin|Hout].
      * rewrite (bool_decide_eq_true_2 _ Hin). simpl.
        destruct (checkReferencesValid s newPaths path rest) as [e|[]].
        -- destruct IH as (j' & -> & Hj' & ?). exists j'.
           split; [done|]. split; [by right | done].
        -- intros j' [->|Hj']%elem_of_cons; [by right | by apply IH].
      * rewrite (bool_decide_eq_false_2 _ Hout). simpl.
        exists j. split; [done|]. split; [by left | done].
Qed.

Lemma registerValidPaths_loop_spec (newPaths : PathSet) (s0 : Store)
  (infos : list ValidPathInfo) (sk : Store) :
  (∀ j, isValidPathTxn s0 j = true → isValidPathTxn sk j = true) →
  (∀ j, isValidPathTxn sk j = true →
        isValidPathTxn s0 j = true ∨ j ∈ newPaths) →
  (∀ i, i ∈ infos → info_path i ∈ newPaths) →
  match registerValidPaths_loop newPaths sk infos with
  | inl (InvalidReference path ref) =>
      ∃ i, i ∈ infos ∧ info_path i = path ∧ ref ∈ info_references i
           ∧ isValidPathTxn s0 ref = false ∧ ref ∉ newPaths
  | inl _ => True
  | inr _ =>
      ∀ i ref, i ∈ infos → ref ∈ info_references i →
               isValidPathTxn s0 ref = true ∨ ref ∈ newPaths
  end.
Proof.
  revert sk. induction infos as [|i rest IH]; intros sk Hmono Hbound Hin.
  { simpl. intros i ref Hi. by apply elem_of_nil in Hi. }
  assert (Hp : info_path i ∈ newPaths) by (apply Hin; left).
  assert (Hrest : ∀ i', i' ∈ rest → info_path i' ∈ newPaths)
    by (intros i' Hi'; apply Hin; by right).
  (* the state after the validity row is written *)
  assert (Hstep : ∀ s1 : Store,
    (∀ j, isValidPathTxn s1 j = true ↔
          (isStorePath (info_path i) = true ∧ j = info_path i)
          ∨ isValidPathTxn sk j = true) →
    match
      (s2 ← setReferences s1 (info_path i) (info_references i)
              (info_stateReferences i) (info_revision i);
       checkReferencesValid s2 newPaths (info_path i)
         (Paths_of (info_references i));;
       s3 ← (if isStorePath (info_path i)
             then setDeriver s2 (info_path i) (info_deriver i)
             else mret s2);
       registerValidPaths_loop newPaths s3 rest)
    with
    | inl (InvalidReference path ref) =>
        ∃ i', i' ∈ i :: rest ∧ info_path i' = path
              ∧ ref ∈ info_references i'
              ∧ isValidPathTxn s0 ref = false ∧ ref ∉ newPaths
    | inl _ => True
    | inr _ =>
        ∀ i' ref, i' ∈ i :: rest → ref ∈ info_references i' →
                  isValidPathTxn s0 ref = true ∨ ref ∈ newPaths
    end).
  { intros s1 Hs1.
    assert (Hmono1 : ∀ j, isValidPathTxn s0 j = true →
                          isValidPathTxn s1 j = true)
      by (intros j Hj; apply Hs1; right; by apply Hmono).
    assert (Hbound1 : ∀ j, isValidPathTxn s1 j = true →
                           isValidPathTxn s0 j = true ∨ j ∈ newPaths).
    { intros j [[_ ->]|Hj]%Hs1; [by right | by apply Hbound]. }
    pose proof (keepsValidity_setReferences s1 (info_path i)
                  (info_references i) (info_stateReferences i)
                  (info_revision i)) as Hk.
    destruct (setReferences s1 _ _ _ _) as [e|s2]; simpl in *.
    { destruct e; done. }
    pose proof (checkReferencesValid_spec s2 newPaths (info_path i)
                  (Paths_of (info_references i))) as Hc.
    destruct (checkReferencesValid s2 _ _ _) as [e|[]]; simpl.
    { destruct Hc as (j & -> & Hj & Hnv & Hnn). exists i.
      split; [by left|]. split; [done|].
      split; [by apply elem_of_Paths_of|]. split; [|done].
      destruct (isValidPathTxn s0 j) eqn:Hv0; [|done].
      apply Hmono1 in Hv0.
      rewrite <- (isValidPathTxn_ext s1 s2 j Hk) in Hv0. congruence. }
    assert (Hhere : ∀ ref, ref ∈ info_references i →
                           isValidPathTxn s0 ref = true ∨ ref ∈ newPaths).
    { intros ref Href. apply elem_of_Paths_of in Href.
      destruct (Hc ref Href) as [Hv|?]; [|by right].
      rewrite (isValidPathTxn_ext s1 s2 ref Hk) in Hv. by apply Hbound1. }
    assert (Hnext : ∀ s3, dbValidPaths s3 = dbValidPaths s2 →
      match registerValidPaths_loop newPaths s3 rest with
      | inl (InvalidReference path ref) =>
          ∃ i', i' ∈ i :: rest ∧ info_path i' = path
                ∧ ref ∈ info_references i'
                ∧ isValidPathTxn s0 ref = false ∧ ref ∉ newPaths
      | inl _ => True
      | inr _ =>
          ∀ i' ref, i' ∈ i :: rest → ref ∈ info_references i' →
                    isValidPathTxn s0 ref = true ∨ ref ∈ newPaths
      end).
    { intros s3 H3.
      assert (Hv3 : ∀ j, isValidPathTxn s3 j = isValidPathTxn s1 j).
      { intros j. rewrite (isValidPathTxn_ext s2 s3 j H3).
        apply isValidPathTxn_ext, Hk. }
      specialize (IH s3).
      destruct (registerValidPaths_loop newPaths s3 rest) as [e|s'].
      - destruct e; try done.
        destruct IH as (i' & Hi' & ?); [| |done|].
        + intros j. rewrite Hv3. apply Hmono1.
        + intros j. rewrite Hv3. apply Hbound1.
        + exists i'. split; [by right | done].
      - intros i' ref [->|Hi']%elem_of_cons; [apply Hhere|].
        apply IH; [| |done|done].
        + intros j. rewrite Hv3. apply Hmono1.
        + intros j. rewrite Hv3. apply Hbound1. }
    destruct (isStorePath (info_path i)).
    - pose proof (keepsValidity_setDeriver s2 (info_path i)
                    (info_deriver i)) as Hd.
      destruct (setDeriver s2 _ _) as [e|s3]; simpl in *.
      + destruct e; done.
      + by apply Hnext.
    - simpl. by apply Hnext. }
  simpl. unfold assertStorePath, assertStatePath.
  destruct (isStorePath (info_path i)) eqn:Hsp; simpl.
  - unfold setHash. destruct (hash_type (info_hash i)); simpl; try done.
    apply Hstep. intros j. rewrite isValidPathTxn_setString. naive_solver.
  - destruct (isStatePath (info_path i)); simpl; [|done].
    apply Hstep. intros j.
    rewrite (isValidPathTxn_ext sk (setStateValid sk _ _) j) by done.
    naive_solver.
Qed.

(** C2. [registerValidPaths] ends in the exception of the closure check
    only for a reference of the batch that is neither valid beforehand nor
    a path of the batch, and it cannot succeed while the batch has such a
    reference: then it throws.  A batch of one path info is
    [registerValidPath]. *)
Theorem registerValidPaths_closure (s : Store) (infos : list ValidPathInfo) :
  match registerValidPaths s infos with
  | inl (InvalidReference path ref) => DanglingReference s infos path ref
  | inl _ => True
  | inr _ => ∀ path ref, ¬ DanglingReference s infos path ref
  end.
Proof.
  unfold registerValidPaths.
  pose proof (registerValidPaths_loop_spec
                (list_to_set (info_path <$> infos)) s infos s) as Hl.
  destruct (registerValidPaths_loop _ s infos) as [e|s'].
  - destruct e; try done. apply Hl; [done|by left|].
    intros i Hi. apply elem_of_list_to_set, list_elem_of_fmap. eauto.
  - intros path ref (i & Hi & _ & Href & Hnv & Hnb).
    destruct Hl with (i := i) (ref := ref) as [Hv|Hb]; try done.
    + by left.
    + intros i' Hi'. apply elem_of_list_to_set, list_elem_of_fmap. eauto.
    + congruence.
Qed.

End Registration.

Section Derivers.
Context `{G : Globals} `{C : Codec} `{B : Backend}.

Lemma bind_inr {A D : Type} (m : Result A) (f : A → Result D) (d : D) :
  m ≫= f = inr d → ∃ a, m = inr a ∧ f a = inr d.
Proof. destruct m as [e|a]; simpl; [done | eauto]. Qed.

Lemma derivationFromPathTxn_inr (s : Store) (p : string) (drv : Derivation) :
  derivationFromPathTxn s p = inr drv ↔ fs s !! p = Some (FsRecipe drv).
Proof.
  unfold derivationFromPathTxn.
  destruct (fs s !! p) as [[]|]; simpl; split; intros [=]; by subst.
Qed.

Lemma find_second_inr {V : Type} (m : gmap string V) (key : string) (v : V) :
  find_second m key = inr v ↔ m !! key = Some v.
Proof.
  unfold find_second. destruct (m !! key); simpl; split; intros [=]; by subst.
Qed.

(** Without wildcards the filter of [queryDerivers] keeps exactly the
    recorded derivers that declare the pair. *)
Lemma queryDerivers_loop_inr (s : Store) (storePath identifier user : string)
  (alldata : list string) (acc res : PathSet) :
  identifier ≠ "*" → user ≠ "*" →
  queryDerivers_loop s storePath identifier user alldata acc = inr res →
  ∀ d, d ∈ res ↔ d ∈ acc ∨ (d ∈ alldata ∧ declares s d identifier user).
Proof.
  intros Hi Hu. apply String.eqb_neq in Hi, Hu.
  revert acc. induction alldata as [|x rest IH]; intros acc; simpl.
  { intros [= <-] d. split; [by left|]. intros [?|[Hx _]]; [done|].
    by apply elem_of_nil in Hx. }
  intros (drv & Hdrv & Hrest)%bind_inr.
  apply derivationFromPathTxn_inr in Hdrv.
  destruct (negb (size (outputs drv) =? 1)%nat); [done|].
  apply bind_inr in Hrest as (so & Hso%find_second_inr & Hrest).
  rewrite Hi, Hu, !orb_false_r in Hrest.
  intros d. rewrite (IH _ Hrest d). clear IH Hrest.
  assert (Hmatch : String.eqb (stateIdentifier so) identifier
                   && String.eqb (username so) user = true
                   ↔ stateIdentifier so = identifier ∧ username so = user)
    by (by rewrite andb_true_iff, !String.eqb_eq).
  destruct (String.eqb (stateIdentifier so) identifier
            && String.eqb (username so) user).
  - rewrite elem_of_union, elem_of_singleton, elem_of_cons.
    destruct Hmatch as [[? ?] _]; [done|]. split.
    + intros [[->|?]|[? ?]]; [|by left|by eauto].
      right. split; [by left|]. by exists drv, so.
    + intros [?|[[->|?] ?]]; eauto.
  - rewrite elem_of_cons. split; [naive_solver|].
    intros [?|[[->|?] Hd]]; [by left| |by eauto].
    destruct Hd as (drv' & so' & Hf & Hs & ? & ?).
    assert (drv' = drv) as -> by congruence.
    assert (so' = so) as -> by congruence.
    destruct Hmatch as [_ Hm]. by discriminate Hm.
Qed.

(** The merge loop only deletes files, and never the new recipe. *)
Lemma mergeNewDerivation_loop_fs (s : Store) (newdrv identifier user : string)
  (drvs : list string) (acc nd : PathSet) (s' : Store) :
  mergeNewDerivation_loop s newdrv identifier user true drvs acc
    = inr (nd, s') →
  fs s' !! newdrv = fs s !! newdrv
  ∧ ∀ x o, fs s' !! x = Some o → fs s !! x = Some o.
Proof.
  revert s acc. induction drvs as [|d rest IH]; intros s acc; simpl.
  { intros [= _ <-]. done. }
  intros (drv & _ & Hrest)%bind_inr.
  apply bind_inr in Hrest as (so & _ & Hrest).
  destruct (String.eqb identifier (stateIdentifier so)
            && String.eqb (username so) user); [|by eapply IH].
  destruct (String.eqb d newdrv) eqn:Hd; simpl in Hrest; [by eapply IH|].
  apply String.eqb_neq in Hd.
  destruct (IH _ _ Hrest) as [Hnew Hsub]. simpl in *. split.
  - by rewrite Hnew, lookup_delete_ne.
  - intros x o Hx. apply Hsub in Hx.
    by apply lookup_delete_Some in Hx as [_ Hx].
Qed.

(** When every old recipe declares the pair of the new one, the merge
    keeps none of them and deletes each one that is not the new recipe. *)
Lemma mergeNewDerivation_loop_all_match (s : Store)
  (newdrv identifier user : string) (drvs : list string) (acc nd : PathSet)
  (s' : Store) :
  NoDup drvs →
  (∀ d, d ∈ drvs → declares s d identifier user) →
  mergeNewDerivation_loop s newdrv identifier user true drvs acc
    = inr (nd, s') →
  nd = acc ∧ ∀ d, d ∈ drvs → d ≠ newdrv → fs s' !! d = None.
Proof.
  revert s acc. induction drvs as [|d rest IH]; intros s acc Hnd Hall; simpl.
  { intros [= <- _]. split; [done|]. intros d Hd. by apply elem_of_nil in Hd. }
  apply NoDup_cons in Hnd as [Hd_rest Hnd].
  intros (drv & Hdrv%derivationFromPathTxn_inr & Hrest)%bind_inr.
  apply bind_inr in Hrest as (so & Hso%find_second_inr & Hrest).
  destruct (Hall d) as (drv' & so' & Hf & Hs & Hi & Hu); [by left|].
  assert (drv' = drv) as -> by congruence.
  assert (so' = so) as -> by congruence.
  subst identifier user. rewrite !String.eqb_refl in Hrest. simpl in Hrest.
  destruct (String.eqb d newdrv) eqn:Hd; simpl in Hrest.
  - apply String.eqb_eq in Hd as ->.
    destruct (IH s acc Hnd) as [-> Hdel]; [|done|].
    { intros d Hd. apply Hall. by right. }
    split; [done|]. intros d [->|Hd]%elem_of_cons; [done | by apply Hdel].
  - apply String.eqb_neq in Hd.
    destruct (mergeNewDerivation_loop_fs _ _ _ _ _ _ _ _ Hrest) as [_ Hsub].
    destruct (IH (deletePath s d) acc Hnd) as [-> Hdel]; [|done|].
    { intros d' Hd'. destruct (Hall d') as (dr & o & ? & ? & ? & ?);
        [by right|].
      exists dr, o. simpl. rewrite lookup_delete_ne; [done|].
      intros ->. done. }
    split; [done|]. intros d' [Heq|Hd']%elem_of_cons Hne; [|by apply Hdel].
    subst d'. destruct (fs s' !! d) as [o|] eqn:Ho; [|done].
    apply Hsub in Ho. simpl in Ho. by rewrite lookup_delete_eq in Ho.
Qed.

Lemma isRealisablePath_ext (s s' : Store) (p : string) :
  dbValidPaths s' = dbValidPaths s → dbSubstitutes s' = dbSubstitutes s →
  isRealisablePath s' p = isRealisablePath s p.
Proof.
  intros Hv Hs.
  unfold isRealisablePath, isValidPathTxn, readSubstitutes.
  by rewrite Hv, Hs.
Qed.

Lemma queryDerivers_inr (s : Store) (storePath identifier user : string)
  (cur : PathSet) :
  queryDerivers s storePath identifier user = inr cur →
  isRealisablePath s storePath = inr true ∧ user ≠ ""
  ∧ queryDerivers_loop s storePath identifier user
      (queryStrings (dbDerivers s) storePath) ∅ = inr cur.
Proof.
  unfold queryDerivers. intros (r & Hr & Hrest)%bind_inr.
  destruct r; simpl in Hrest; [|done].
  destruct (String.eqb user "") eqn:Hu; [done|].
  apply String.eqb_neq in Hu. done.
Qed.

Lemma addStateDeriver_inr (s : Store) (storePath deriver : string)
  (s1 : Store) :
  deriver ≠ "" →
  addStateDeriver s storePath deriver = inr s1 →
  ∃ drv so cur nd sm,
    fs s !! deriver = Some (FsRecipe drv)
    ∧ stateOutputs drv !! "state" = Some so
    ∧ queryDerivers s storePath (stateIdentifier so) (username so) = inr cur
    ∧ mergeNewDerivation_loop s deriver (stateIdentifier so) (username so)
        true (Paths_of cur) ∅ = inr (nd, sm)
    ∧ s1 = set_dbStateInfo (setString (dbStateInfo sm) storePath "")
             (set_dbDerivers
                (setStrings (dbDerivers sm) storePath
                   (Paths_of ({[ deriver ]} ∪ nd))) sm).
Proof.
  intros Hne%String.eqb_neq. unfold addStateDeriver. rewrite Hne.
  intros (_ & _ & H1)%bind_inr.
  apply bind_inr in H1 as (_ & _ & H1).
  apply bind_inr in H1 as (r & _ & H1).
  destruct (negb r); [done|].
  apply bind_inr in H1 as (drv & Hdrv%derivationFromPathTxn_inr & H1).
  apply bind_inr in H1 as (so & Hso%find_second_inr & H1).
  apply bind_inr in H1 as (cur & Hcur & H1).
  apply bind_inr in H1 as ([upd sm] & Hm & H1).
  injection H1 as <-.
  unfold mergeNewDerivationIntoListTxn in Hm.
  rewrite (proj2 (derivationFromPathTxn_inr _ _ _) Hdrv) in Hm. simpl in Hm.
  rewrite (proj2 (find_second_inr _ _ _) Hso) in Hm. simpl in Hm.
  apply bind_inr in Hm as ([nd sm'] & Hloop & Hm).
  injection Hm as <- <-.
  by exists drv, so, cur, nd, sm'.
Qed.


End Derivers.



Section Referrers.
Context `{G : Globals} `{C : Codec} `{B : Backend}.

Lemma scanReferences_spec (path i : string) (references : list string)
  (acc : PathSet) (k : string) :
  k ∈ scanReferences path i references acc
  ↔ k ∈ acc ∨ (k = i ∧ path ∈ references).
Proof.
  revert acc. induction references as [|j rest IH]; intros acc; simpl.
  { split; [by left|]. intros [?|[_ Hp]]; [done|]. by apply elem_of_nil in Hp. }
  rewrite IH. destruct (String.eqb j path) eqn:Hj.
  - apply String.eqb_eq in Hj as ->.
    rewrite elem_of_union, elem_of_singleton, elem_of_cons. naive_solver.
  - apply String.eqb_neq in Hj. rewrite elem_of_cons. naive_solver.
Qed.

Lemma scanKeys_spec (table : gmap string Value) (path : string)
  (keys : list string) (acc : PathSet) (k : string) :
  k ∈ scanKeys table path keys acc
  ↔ k ∈ acc ∨ (k ∈ keys ∧ path ∈ queryStrings table k).
Proof.
  revert acc. induction keys as [|i rest IH]; intros acc; simpl.
  { split; [by left|]. intros [?|[Hk _]]; [done|]. by apply elem_of_nil in Hk. }
  rewrite IH, scanReferences_spec, elem_of_cons. naive_solver.
Qed.

Lemma scanLatest_spec (table : gmap (string * N) Value) (path : string)
  (entries : list (string * N)) (acc : PathSet) (k : string) :
  k ∈ scanLatest table path entries acc
  ↔ k ∈ acc ∨ ∃ t, (k, t) ∈ entries ∧ path ∈ queryStrings table (k, t).
Proof.
  revert acc. induction entries as [|[k' t'] rest IH]; intros acc; simpl.
  { split; [by left|]. intros [?|(t & Hk & _)]; [done|].
    by apply elem_of_nil in Hk. }
  rewrite IH, scanReferences_spec. unfold mergeToDBKey. split.
  - intros [[?|[-> ?]]|(t & ? & ?)]; [by left| |].
    + right. exists t'. split; [by left | done].
    + right. exists t. split; [by right | done].
  - intros [?|(t & [[= -> ->]|?]%elem_of_cons & ?)]; [by left; left| |].
    + left. by right.
    + right. by exists t.
Qed.

Lemma foldr_max_shift (l : list N) (a t : N) :
  foldr N.max (N.max a t) l = N.max t (foldr N.max a l).
Proof. induction l as [|x l IH]; simpl; [lia | rewrite IH; lia]. Qed.

(** The timestamps under which [k] occurs in a list of keys. *)
Lemma latest_loop_spec (revision timestamp : N) (keys : list (string * N))
  (acc : gmap string N) (k : string) :
  latest_loop revision timestamp keys acc !! k
  = match (filter (λ key : string * N, key.1 = k) keys).*2 with
    | [] => acc !! k
    | ts => Some (foldr N.max (default 0%N (acc !! k)) ts)
    end.
Proof.
  revert acc. induction keys as [|[k' t] rest IH]; intros acc; [done|].
  simpl. rewrite IH. clear IH.
  set (cur := default 0%N (acc !! k')).
  set (acc' := if (cur =? 0)%N then <[k':=t]> acc
               else if (cur <? t)%N
                    then if negb (revision =? 0)%N && (t <=? timestamp)%N
                         then <[k':=t]> acc else <[k':=t]> acc
                    else acc).
  destruct (decide (k' = k)) as [->|Hne].
  - rewrite filter_cons_True by done. rewrite fmap_cons. cbn [snd].
    assert (Hacc' : acc' !! k = Some (N.max cur t)).
    { unfold acc'. destruct (N.eqb_spec cur 0) as [H0|H0].
      - rewrite lookup_insert_eq. f_equal. lia.
      - destruct (N.ltb_spec cur t).
        + destruct (negb _ && _); rewrite lookup_insert_eq; f_equal; lia.
        + unfold cur in *. destruct (acc !! k) as [c|]; simpl in *; [|done].
          f_equal. lia. }
    rewrite Hacc'. fold cur.
    generalize ((filter (λ key : string * N, key.1 = k) rest).*2).
    intros [|x l]; simpl.
    + f_equal. lia.
    + f_equal. rewrite foldr_max_shift. lia.
  - rewrite filter_cons_False by done.
    assert (Hacc' : acc' !! k = acc !! k).
    { unfold acc'. repeat case_match; by rewrite ?lookup_insert_ne. }
    by rewrite Hacc'.
Qed.

Lemma latest_loop_latestTimestamp (revision timestamp : N)
  (table : gmap (string * N) Value) (k : string) :
  latest_loop revision timestamp (enumStateTable table) ∅ !! k
  = latestTimestamp table k.
Proof.
  rewrite latest_loop_spec, lookup_empty. unfold latestTimestamp, timestampsOf.
  by destruct ((filter _ (enumStateTable table)).*2).
Qed.

Lemma queryStrings_elem_is_Some {K : Type} `{Countable K}
  (table : gmap K Value) (key : K) (x : string) :
  x ∈ queryStrings table key → is_Some (table !! key).
Proof.
  unfold queryStrings. destruct (table !! key); [eauto|].
  by intros ?%elem_of_nil.
Qed.

(** C4 (amended). Referrer duality holds between paths of the same kind.
    For valid component paths and every revision, [Q] is among the
    component references of [P] exactly when [P] is among the component
    referrers of [Q].  For valid state paths, read without revision, the
    tip of [Q] (where its alias walk ends) is among the state references
    of [P] exactly when the tip of [P] is among the state referrers of
    [Q]; the scan reads, for each
    state path, the row of its largest timestamp, as does the backend's
    read without revision. *)
Theorem referrer_duality (s : Store) :
  (∀ P Q r r' ts,
     isValidPathTxn s P = true → isValidPathTxn s Q = true →
     ∃ refs referrers,
       queryXReferencesTxn s P ∅ true r ts = inr refs
       ∧ getReferrersTxn s Q r' = inr referrers
       ∧ (Q ∈ refs ↔ P ∈ referrers))
  ∧ (∀ P Q P_ns Q_ns ts,
       isValidPathTxn s P = false → readSubstitutes s P = inr [] →
       isValidStatePathTxn s P = true →
       isValidPathTxn s Q = false → isValidStatePathTxn s Q = true →
       (∃ fuel, toNonSharedPath_loop fuel s P = Some P_ns) →
       (∃ fuel, toNonSharedPath_loop fuel s Q = Some Q_ns) →
       readsLatestRow (dbStateStateReferences s) (dbStateRevisions s)
         P_ns ts →
       ∃ refs referrers,
         queryXReferencesTxn s P ∅ false 0 ts = inr refs
         ∧ getStateReferrersTxn s Q 0 = inr referrers
         ∧ (Q_ns ∈ refs ↔ P_ns ∈ referrers)).
Proof.
  split.
  - intros P Q r r' ts HP HQ.
    unfold queryXReferencesTxn, isRealisablePath. rewrite HP. simpl.
    unfold getReferrersTxn, getXReferrers. rewrite HQ. simpl.
    eexists _, _. split; [reflexivity|]. split; [reflexivity|].
    rewrite scanKeys_spec, elem_of_union, elem_of_list_to_set.
    unfold enumTable. rewrite elem_of_Paths_of, elem_of_dom. split.
    + intros [?%not_elem_of_empty|Hin]; [done|]. right.
      split; [by eapply queryStrings_elem_is_Some | done].
    + intros [?%not_elem_of_empty|[_ Hin]]; [done | by right].
  - intros P Q P_ns Q_ns ts HP Hsub HPs HQ HQs [fP HPns] [fQ HQns] Hlatest.
    apply toNonSharedPathTxn_complete in HPns, HQns.
    unfold queryXReferencesTxn, isRealisablePath, isRealisableStatePath.
    rewrite HP, Hsub, HPs. simpl. rewrite HPns. simpl.
    unfold getStateReferrersTxn, getXReferrers. rewrite HQ, HQs. simpl.
    rewrite HQns. simpl.
    eexists _, _. split; [reflexivity|]. split; [reflexivity|].
    unfold readsLatestRow in Hlatest. rewrite Hlatest.
    rewrite scanLatest_spec, elem_of_union, elem_of_list_to_set. split.
    + intros [?%not_elem_of_empty|Hin]; [done|]. right.
      destruct (latestTimestamp (dbStateStateReferences s) P_ns) as [t|] eqn:Ht;
        [|by apply elem_of_nil in Hin].
      exists t. split; [|done].
      apply elem_of_map_to_list. by rewrite latest_loop_latestTimestamp.
    + intros [?%not_elem_of_empty|(t & Ht & Hin)]; [done|]. right.
      apply elem_of_map_to_list in Ht.
      rewrite latest_loop_latestTimestamp in Ht. by rewrite Ht.
Qed.

End Referrers.

Lemma referrer_duality_witness :
  (∃ refs referrers,
     queryXReferencesTxn Scenario.referrerStore Scenario.P ∅ true 0 0
       = inr refs
     ∧ getReferrersTxn Scenario.referrerStore Scenario.Q 0 = inr referrers
     ∧ (Scenario.Q ∈ refs ↔ Scenario.P ∈ referrers))
  ∧ (∃ refs referrers,
       queryXReferencesTxn Scenario.referrerStore Scenario.stateS ∅ false 0 0
         = inr refs
       ∧ getStateReferrersTxn Scenario.referrerStore Scenario.stateT 0
         = inr referrers
       ∧ (Scenario.stateT ∈ refs ↔ Scenario.stateS ∈ referrers)).
Proof.
  destruct (referrer_duality Scenario.referrerStore) as [Hcomponent Hstate].
  split.
  - apply (Hcomponent Scenario.P Scenario.Q 0%N 0%N 0%N);
      vm_compute; reflexivity.
  - apply (Hstate Scenario.stateS Scenario.stateT Scenario.stateS Scenario.stateT 0%N);
      try (vm_compute; reflexivity); exists 0; vm_compute; reflexivity.
Defined.

(** C4 (counterexample). The state path [stateS] and the component [Q]
    are valid and [Q] is among the component references of [stateS], yet
    [stateS] is not among the component referrers of [Q]: that scan reads
    the component-component table.  [stateS] is found among the state
    referrers of [Q]. *)
Lemma referrer_duality_mixed_counterexample :
  isValidStatePathTxn Scenario.referrerStore Scenario.stateS = true
  ∧ isValidPathTxn Scenario.referrerStore Scenario.Q = true
  ∧ queryXReferencesTxn Scenario.referrerStore Scenario.stateS ∅ true 0 0
    = inr {[ Scenario.Q ]}
  ∧ getReferrersTxn Scenario.referrerStore Scenario.Q 0
    = inr {[ Scenario.P ]}
  ∧ (Scenario.stateS ∉ ({[ Scenario.P ]} : PathSet))
  ∧ getStateReferrersTxn Scenario.referrerStore Scenario.Q 0
    = inr {[ Scenario.stateS ]}.
Proof.
  repeat split; try (vm_compute; reflexivity).
  intros Hin%elem_of_singleton. discriminate Hin.
Qed.

Section ExportImport.
Context `{G : Globals} `{C : Codec} `{B : Backend}.

Lemma list_to_set_Paths_of (X : PathSet) : list_to_set (Paths_of X) = X.
Proof.
  apply set_eq. intros x. by rewrite elem_of_list_to_set, elem_of_Paths_of.
Qed.

Lemma assertStorePaths_ok (paths : list string) :
  (∀ p, p ∈ paths → isStorePath p = true) → assertStorePaths paths = inr tt.
Proof.
  induction paths as [|p rest IH]; intros Hall; [done|].
  simpl. unfold assertStorePath. rewrite (Hall p) by (by left). simpl.
  apply IH. intros q Hq. apply Hall. by right.
Qed.

Lemma checkReferencesValid_ok (s : Store) (newPaths : PathSet) (path : string)
  (references : list string) :
  (∀ j, j ∈ references → j ∈ newPaths) →
  checkReferencesValid s newPaths path references = inr tt.
Proof.
  intros Hall.
  pose proof (checkReferencesValid_spec s newPaths path references) as Hc.
  destruct (checkReferencesValid s newPaths path references) as [e|[]]; [|done].
  destruct Hc as (j & _ & Hj & _ & Hout). by apply Hall in Hj.
Qed.

Lemma isValidPathTxn_emptyStore (p : string) :
  isValidPathTxn emptyStore p = false.
Proof. by apply isValidPathTxn_false. Qed.

Lemma pathExists_emptyStore (p : string) : pathExists emptyStore p = false.
Proof.
  unfold pathExists. apply bool_decide_eq_false_2. simpl.
  rewrite lookup_empty. by intros [? ?].
Qed.

Lemma exportPath_inr (s : Store) (path : string) (sign : bool)
  (stream : list StreamItem) :
  exportPath s path sign = inr stream →
  ∃ obj refs deriver,
    isStorePath path = true
    ∧ isValidPathTxn s path = true
    ∧ fs s !! path = Some obj
    ∧ queryXReferencesTxn s path ∅ true 0 defaultTimestamp = inr refs
    ∧ queryDeriver s path = inr deriver
    ∧ let sink := [SArchive obj; SInt EXPORT_MAGIC; SString path;
                   SStringSet (Paths_of refs); SString deriver] in
      if sign
      then ∃ signature,
             rsaSign (printHash (hashStream sink)) = Some signature
             ∧ stream = (sink ++ [SInt 1; SString signature])%list
      else stream = (sink ++ [SInt 0])%list.
Proof.
  unfold exportPath, assertStorePath, dumpPath.
  destruct (isStorePath path); simpl; [|done].
  destruct (isValidPathTxn s path); simpl; [|done].
  destruct (fs s !! path) as [obj|]; simpl; [|done].
  intros (refs & Hrefs & Hrest)%bind_inr.
  apply bind_inr in Hrest as (deriver & Hd & Hrest).
  exists obj, refs, deriver. repeat (split; [done|]).
  destruct sign.
  - apply bind_inr in Hrest as (sig & Hsig & [= <-]).
    exists sig. split; [|done].
    unfold orThrow in Hsig. destruct (rsaSign _); by inversion Hsig.
  - by injection Hrest as <-.
Qed.

(** C3 (amended). Exporting a valid store path whose component references
    are at most itself and importing the stream into the empty store
    yields a store in which the path is valid, its recorded hash is the
    SHA-256 of the restored contents, and its component references are
    the original ones; no deriver is recorded, as the exported deriver is
    not valid in the importing store. *)
Theorem export_import_roundtrip (s : Store) (P : string)
  (sign requireSignature : bool) (stream : list StreamItem)
  (obj : FsObject) (refs : PathSet) (deriver : string) :
  exportPath s P sign = inr stream →
  fs s !! P = Some obj →
  queryXReferencesTxn s P ∅ true 0 defaultTimestamp = inr refs →
  queryDeriver s P = inr deriver →
  refs ⊆ {[ P ]} →
  deriver = "" ∨ isStorePath deriver = true →
  hash_type (hashPath htSHA256 obj) = htSHA256 →
  (requireSignature = true →
   sign = true ∧ ∀ h sig, rsaSign h = Some sig → rsaVerify sig = Some h) →
  ∃ s', importPath emptyStore requireSignature stream = inr (P, s')
        ∧ isValidPathTxn s' P = true
        ∧ dbValidPaths s' !! P
          = Some (VString ("sha256:" ++ printHash (hashPath htSHA256 obj)))
        ∧ queryXReferencesTxn s' P ∅ true 0 defaultTimestamp = inr refs
        ∧ dbDerivers s' !! P = None.
Proof.
  intros Hexp Hobj Hrefs Hder Hself Hdstore Hsha Hrsa.
  apply exportPath_inr in Hexp
    as (obj' & refs' & deriver' & HP & _ & Hobj' & Hrefs' & Hder' & Hstream).
  assert (obj' = obj) as -> by congruence.
  assert (refs' = refs) as -> by congruence.
  assert (deriver' = deriver) as -> by congruence.
  clear Hobj' Hrefs' Hder'.
  assert (Hpaths : assertStorePaths (Paths_of refs) = inr tt).
  { apply assertStorePaths_ok. intros p Hp%elem_of_Paths_of.
    apply Hself, elem_of_singleton in Hp. by subst. }
  assert (Hdassert : (if negb (String.eqb deriver "")
                      then assertStorePath deriver else mret tt) = inr tt).
  { destruct Hdstore as [->|Hd]; [done|].
    unfold assertStorePath. rewrite Hd. by destruct (negb _). }
  (* the registration in the empty store *)
  set (s2 := set_fs (<[P := obj]> ∅) emptyStore).
  assert (Hreg : ∃ s',
    registerValidPath s2 P (hashPath htSHA256 obj) refs ∅ "" 0 = inr s'
    ∧ isValidPathTxn s' P = true
    ∧ dbValidPaths s' !! P
      = Some (VString ("sha256:" ++ printHash (hashPath htSHA256 obj)))
    ∧ queryXReferencesTxn s' P ∅ true 0 defaultTimestamp = inr refs
    ∧ dbDerivers s' !! P = None).
  { unfold registerValidPath, registerValidPaths. simpl.
    unfold assertStorePath. rewrite HP. simpl.
    unfold setHash. rewrite Hsha. simpl.
    set (s3 := set_dbValidPaths _ s2).
    assert (Hv3 : isValidPathTxn s3 P = true).
    { apply isValidPathTxn_true. simpl. unfold setString.
      rewrite lookup_insert_eq. eauto. }
    assert (Hset : ∃ s4,
      setReferences s3 P refs ∅ 0 = inr s4
      ∧ dbValidPaths s4 = dbValidPaths s3
      ∧ dbDerivers s4 = ∅
      ∧ list_to_set (queryStrings (dbComponentComponentReferences s4) P)
        = refs).
    { unfold setReferences, isRealisableComponentOrStatePath,
        isValidComponentOrStatePathTxn, isRealisablePath.
      rewrite Hv3. simpl. destruct (0 <? size refs)%nat; simpl.
      all: unfold queryStrings at 1 2; simpl; rewrite lookup_empty; simpl.
      all: destruct (decide ((∅ : PathSet) = refs)) as [<-|Hne].
      all: rewrite ?bool_decide_eq_true_2 by done;
           rewrite ?(bool_decide_eq_false_2 _ Hne); simpl.
      all: eexists; split; [reflexivity|]; simpl; repeat split; try done.
      all: unfold queryStrings, setStrings; rewrite lookup_insert_eq.
      all: apply list_to_set_Paths_of. }
    destruct Hset as (s4 & -> & Hv4 & Hd4 & Hr4). simpl.
    rewrite checkReferencesValid_ok; simpl.
    2: { intros j Hj%elem_of_Paths_of. set_solver. }
    unfold setDeriver, assertStorePath. rewrite HP. simpl.
    exists s4. split; [done|].
    assert (Hvalid4 : isValidPathTxn s4 P = true)
      by (by rewrite (isValidPathTxn_ext s3 s4 P Hv4)).
    split; [done|]. split.
    { rewrite Hv4. simpl. unfold setString. by rewrite lookup_insert_eq. }
    split; [|by rewrite Hd4].
    unfold queryXReferencesTxn, isRealisablePath. rewrite Hvalid4. simpl.
    by rewrite Hr4, union_empty_l_L. }
  destruct Hreg as (s' & Hreg & Hpost). exists s'. split; [|done].
  assert (Hinvalid : ∀ p, isValidPathTxn s2 p = false)
    by (intros p; by apply isValidPathTxn_false).
  (* reading the stream back *)
  assert (Hrun : ∀ tail,
    (tail = [SInt 0%N] ∧ requireSignature = false
     ∨ ∃ sig, tail = [SInt 1%N; SString sig]
              ∧ (requireSignature = true →
                 rsaVerify sig
                 = Some (printHash
                           (hashStream
                              [SArchive obj; SInt EXPORT_MAGIC; SString P;
                               SStringSet (Paths_of refs);
                               SString deriver])))) →
    importPath emptyStore requireSignature
      ([SArchive obj; SInt EXPORT_MAGIC; SString P;
        SStringSet (Paths_of refs); SString deriver] ++ tail)%list
    = inr (P, s')).
  { intros tail Htail.
    assert (Hassert : assertStorePath P = inr tt)
      by (unfold assertStorePath; by rewrite HP).
    unfold importPath, readStorePath, readStorePaths, readString, readInt,
      restorePath. simpl.
    rewrite Hassert. simpl. rewrite Hpaths. simpl. rewrite Hdassert. simpl.
    rewrite list_to_set_Paths_of, isValidPathTxn_emptyStore,
      pathExists_emptyStore. simpl. fold s2. rewrite Hinvalid. simpl.
    destruct Htail as [[-> ->]|(sig & -> & Hverify)]; simpl; fold s2.
    - by rewrite Hreg.
    - destruct requireSignature; simpl; [|by rewrite Hreg].
      rewrite (Hverify eq_refl). simpl. rewrite String.eqb_refl. simpl.
      by rewrite Hreg. }
  destruct sign.
  - destruct Hstream as (sig & Hsig & ->). apply Hrun. right.
    exists sig. split; [done|]. intros Hreq.
    destruct (Hrsa Hreq) as [_ Hverify]. by apply Hverify.
  - rewrite Hstream. apply Hrun. left. split; [done|].
    destruct requireSignature; [by destruct (Hrsa eq_refl)|done].
Qed.

End ExportImport.

Lemma export_import_roundtrip_witness :
  ∃ s', importPath emptyStore false
          (Scenario.exported [Scenario.P] true) = inr (Scenario.P, s')
        ∧ isValidPathTxn s' Scenario.P = true
        ∧ dbValidPaths s' !! Scenario.P = Some (VString "sha256:contents")
        ∧ queryXReferencesTxn s' Scenario.P ∅ true 0 0
          = inr {[ Scenario.P ]}
        ∧ dbDerivers s' !! Scenario.P = None.
Proof.
  refine (export_import_roundtrip (B := Sample.backend)
            (Scenario.exportStore [Scenario.P]) Scenario.P true false
            (Scenario.exported [Scenario.P] true) (FsOther "contents")
            {[ Scenario.P ]} Scenario.D _ _ _ _ _ _ _ _).
  - vm_compute. reflexivity.
  - vm_compute. reflexivity.
  - vm_compute. reflexivity.
  - vm_compute. reflexivity.
  - set_solver.
  - right. vm_compute. reflexivity.
  - vm_compute. reflexivity.
  - discriminate.
Defined.

(** C3 (counterexample). First, [P] refers to the valid path [Q]: the
    export succeeds and the import into the empty store is refused,
    because [Q] is not valid there.  Second, [P] has no references and
    the deriver [D]: the import succeeds, and the imported store records
    no deriver for [P], so that [queryDeriver] fails instead of
    returning [D]. *)
Lemma export_import_counterexample :
  isValidPathTxn (Scenario.exportStore [Scenario.Q]) Scenario.P = true
  ∧ exportPath (Scenario.exportStore [Scenario.Q]) Scenario.P false
    = inr (Scenario.exported [Scenario.Q] false)
  ∧ importPath emptyStore false (Scenario.exported [Scenario.Q] false)
    = inl (InvalidReference Scenario.P Scenario.Q)
  ∧ exportPath (Scenario.exportStore []) Scenario.P false
    = inr (Scenario.exported [] false)
  ∧ queryDeriver (Scenario.exportStore []) Scenario.P = inr Scenario.D
  ∧ importPath emptyStore false (Scenario.exported [] false)
    = inr (Scenario.P, Scenario.imported [] false false)
  ∧ dbDerivers (Scenario.imported [] false false) !! Scenario.P = None
  ∧ queryDeriver (Scenario.imported [] false false) Scenario.P
    = inl (CannotReadDerivation "").
Proof. repeat split; vm_compute; reflexivity. Qed.

End Properties.

(** * Properties of the rest of the code *)

Module Coverage.
Import StoreApi StorePaths Db LocalStore StoreOps Sharing Spec Frames.
Import Intervals Canonicalise.
Import Properties.

Section Strings.

Lemma get_length_None (s : string) (n : nat) :
  String.get n s = None ↔ (String.length s ≤ n)%nat.
Proof.
  revert n. induction s as [|a s IH]; intros [|n]; simpl; try (split; [lia|done]).
  - split; [done|lia].
  - rewrite IH. lia.
Qed.

Lemma get_Some_lt (s : string) (n : nat) (c : ascii) :
  String.get n s = Some c → (n < String.length s)%nat.
Proof.
  intros H. destruct (decide (String.length s ≤ n)%nat) as [Hle|]; [|lia].
  apply get_length_None in Hle. congruence.
Qed.

Lemma length_substring_0 (s : string) (n : nat) :
  (n ≤ String.length s)%nat → String.length (substring 0 n s) = n.
Proof.
  revert n. induction s as [|a s IH]; intros [|n]; simpl; try lia.
  intros Hn. rewrite IH; lia.
Qed.

Lemma get_substring_0 (s : string) (n i : nat) :
  (i < n)%nat → String.get i (substring 0 n s) = String.get i s.
Proof.
  intros Hi. rewrite (substring_correct1 s 0 n i Hi). f_equal. lia.
Qed.

Lemma substring_0_substring_0 (s : string) (n m : nat) :
  (n ≤ m)%nat → substring 0 n (substring 0 m s) = substring 0 n s.
Proof.
  revert n m. induction s as [|a s IH]; intros [|n] [|m]; simpl; try done; try lia.
  intros Hn. rewrite IH; [done|lia].
Qed.

Lemma substring_0_length (s : string) :
  substring 0 (String.length s) s = s.
Proof. induction s; simpl; congruence. Qed.

Lemma substring_0_app (a b : string) :
  substring 0 (String.length a) (a ++ b) = a.
Proof.
  induction a as [|c a IH]; simpl; [by destruct b|]. by rewrite IH.
Qed.

Lemma substring_skip_app (a b : string) :
  substring (String.length a) (String.length b) (a ++ b) = b.
Proof.
  induction a as [|c a IH]; simpl; [apply substring_0_length|done].
Qed.

Lemma get_app_length (a b : string) (n : nat) :
  String.get (String.length a + n) (a ++ b) = String.get n b.
Proof. induction a; simpl; done. Qed.

Lemma get_app_lt (a b : string) (n : nat) :
  (n < String.length a)%nat → String.get n (a ++ b) = String.get n a.
Proof.
  revert n. induction a as [|c a IH]; intros [|n]; simpl; try lia; [done|].
  intros Hn. apply IH. lia.
Qed.

Lemma length_app (a b : string) :
  String.length (a ++ b) = (String.length a + String.length b)%nat.
Proof. induction a as [|c a IH]; simpl; [done|by rewrite IH]. Qed.

(** [find_char_from] gives the first index at or after [pos] that holds
    [c]. *)
Lemma find_char_from_Some (c : ascii) (pos : nat) (s : string) (k : nat) :
  find_char_from c pos s = Some k →
  (pos ≤ k)%nat ∧ String.get k s = Some c
  ∧ ∀ j, (pos ≤ j < k)%nat → String.get j s ≠ Some c.
Proof.
  revert pos k. induction s as [|a s IH]; intros pos k; simpl; [done|].
  destruct pos as [|pos].
  - destruct (Ascii.eqb_spec a c) as [->|Hne].
    + intros [= <-]. split; [lia|]. split; [done|]. intros j Hj. lia.
    + destruct (find_char_from c 0 s) as [k'|] eqn:Hf; simpl; [|done].
      apply IH in Hf as (_ & Hk' & Hfirst'). intros [= <-].
      split; [lia|]. split; [done|].
      intros [|j] Hj; simpl; [congruence|]. apply Hfirst'. lia.
  - destruct (find_char_from c pos s) as [k'|] eqn:Hf; simpl; [|done].
    apply IH in Hf as (Hle & Hk' & Hfirst'). intros [= <-].
    split; [lia|]. split; [done|].
    intros [|j] Hj; simpl; [lia|]. apply Hfirst'. lia.
Qed.

Lemma find_char_from_None (c : ascii) (pos : nat) (s : string) :
  find_char_from c pos s = None ↔
  ∀ j, (pos ≤ j)%nat → String.get j s ≠ Some c.
Proof.
  split.
  - revert pos. induction s as [|a s IH]; intros pos; simpl.
    + intros _ j _. by destruct j.
    + destruct pos as [|pos].
      * destruct (Ascii.eqb_spec a c) as [->|Hne]; [done|].
        destruct (find_char_from c 0 s) eqn:Hf; simpl; [done|].
        intros _ [|j] Hj; simpl; [congruence|]. apply (IH 0%nat Hf). lia.
      * destruct (find_char_from c pos s) eqn:Hf; simpl; [done|].
        intros _ [|j] Hj; simpl; [lia|]. apply (IH pos Hf). lia.
  - intros Hno. destruct (find_char_from c pos s) as [k|] eqn:Hf; [|done].
    apply find_char_from_Some in Hf as (Hle & Hk & _).
    by destruct (Hno k Hle).
Qed.

End Strings.

Section PathShapes.
Context `{G : Globals}.

Lemma inRoot_spec (root p : string) :
  bool_decide (String.get 0 p = Some "/"%char)
  && String.eqb (substring 0 (String.length root) p) root
  && (String.length root + 2 <=? String.length p)%nat
  && bool_decide (String.get (String.length root) p = Some "/"%char) = true
  ↔ String.get 0 p = Some "/"%char
    ∧ substring 0 (String.length root) p = root
    ∧ (String.length root + 2 ≤ String.length p)%nat
    ∧ String.get (String.length root) p = Some "/"%char.
Proof.
  rewrite !andb_true_iff, !bool_decide_eq_true, String.eqb_eq, Nat.leb_le.
  tauto.
Qed.

(** Cutting a path under [root] at the first slash after the root's own
    gives a path with no such slash; it still has a name part unless the
    cut is at the very next character. *)
Lemma cut_at_slash (root p : string) (slash : nat) :
  String.get 0 p = Some "/"%char →
  substring 0 (String.length root) p = root →
  String.get (String.length root) p = Some "/"%char →
  find_char_from "/" (String.length root + 1) p = Some slash →
  let q := substring 0 slash p in
  String.length q = slash
  ∧ substring 0 (String.length q) p = q
  ∧ String.get 0 q = Some "/"%char
  ∧ substring 0 (String.length root) q = root
  ∧ String.get (String.length root) q = Some "/"%char
  ∧ find_char_from "/" (String.length root + 1) q = None
  ∧ ((String.length root + 2 ≤ String.length q)%nat
     ↔ String.get (String.length root + 1) p ≠ Some "/"%char).
Proof.
  intros H0 Hpre Hroot Hfind q.
  apply find_char_from_Some in Hfind as (Hle & Hslash & Hfirst).
  assert (Hlt : (slash < String.length p)%nat) by (by eapply get_Some_lt).
  assert (Hlen : String.length q = slash)
    by (apply length_substring_0; lia).
  split; [done|]. split; [by rewrite Hlen|].
  split; [unfold q; rewrite get_substring_0 by lia; done|].
  split; [unfold q; rewrite substring_0_substring_0 by lia; done|].
  split; [unfold q; rewrite get_substring_0 by lia; done|].
  split.
  - apply find_char_from_None. intros j Hj.
    destruct (decide (j < slash)%nat) as [Hjs|Hjs].
    + unfold q. rewrite get_substring_0 by done. apply Hfirst. lia.
    + assert (String.get j q = None) as ->; [|done].
      apply get_length_None. lia.
  - rewrite Hlen. split.
    + intros Hge. apply Hfirst. lia.
    + intros Hne. destruct (decide (slash = String.length root + 1)%nat)
        as [->|]; [done|lia].
Qed.

(** X1. What [toStorePath] returns is a prefix of its argument, and it
    is a store path exactly when the character after the store root's
    slash is not a second slash: for [<store>//x] the result is
    [<store>/], which is not in the store. *)
Theorem toStorePath_prefix_store_path (path q : string) :
  toStorePath path = Some q →
  substring 0 (String.length q) path = q
  ∧ (isStorePath q = true
     ↔ String.get (String.length nixStore + 1) path ≠ Some "/"%char).
Proof.
  unfold toStorePath. destruct (isInStore path) eqn:Hin; simpl; [|done].
  pose proof Hin as Hin'. unfold isInStore in Hin'.
  apply inRoot_spec in Hin' as (H0 & Hpre & Hlen & Hroot).
  destruct (find_char_from "/" (String.length nixStore + 1) path)
    as [slash|] eqn:Hfind; intros [= <-].
  - destruct (cut_at_slash nixStore path slash H0 Hpre Hroot Hfind)
      as (Hl & Hp & Hq0 & Hqpre & Hqroot & Hqnone & Hqlen).
    split; [done|]. rewrite <- Hqlen.
    unfold isStorePath, isInStore.
    rewrite andb_true_iff, inRoot_spec, bool_decide_eq_true. tauto.
  - split; [apply substring_0_length|].
    unfold isStorePath. rewrite Hin, Hfind. simpl.
    split; [|done]. intros _.
    rewrite find_char_from_None in Hfind. apply Hfind. lia.
Qed.

(** X2. [toStoreOrStatePath] agrees with [toStorePath] on every path in
    the store; on a path in the state store only, what it returns is a
    prefix of the argument and is a state path exactly when the
    character after the state root's slash is not a second slash. *)
Theorem toStoreOrStatePath_cases (path q : string) :
  toStoreOrStatePath path = Some q →
  if isInStore path then toStorePath path = Some q
  else substring 0 (String.length q) path = q
       ∧ (isStatePath q = true
          ↔ String.get (String.length nixStoreState + 1) path ≠ Some "/"%char).
Proof.
  unfold toStoreOrStatePath, toStorePath.
  destruct (isInStore path) eqn:Hin; simpl; [done|].
  destruct (isInStateStore path) eqn:Hst; simpl; [|done].
  pose proof Hst as Hst'. unfold isInStateStore in Hst'.
  apply inRoot_spec in Hst' as (H0 & Hpre & Hlen & Hroot).
  destruct (find_char_from "/" (String.length nixStoreState + 1) path)
    as [slash|] eqn:Hfind; intros [= <-].
  - destruct (cut_at_slash nixStoreState path slash H0 Hpre Hroot Hfind)
      as (Hl & Hp & Hq0 & Hqpre & Hqroot & Hqnone & Hqlen).
    split; [done|]. rewrite <- Hqlen.
    unfold isStatePath, isInStateStore.
    rewrite andb_true_iff, inRoot_spec, bool_decide_eq_true. tauto.
  - split; [apply substring_0_length|].
    unfold isStatePath. rewrite Hst, Hfind. simpl.
    split; [|done]. intros _.
    rewrite find_char_from_None in Hfind. apply Hfind. lia.
Qed.

Lemma no_char_app (c : ascii) (a b : string) :
  (∀ j, String.get j a ≠ Some c) →
  (∀ j, String.get j b ≠ Some c) →
  ∀ j, String.get j (a ++ b) ≠ Some c.
Proof.
  intros Ha Hb j. destruct (decide (j < String.length a)%nat) as [Hlt|Hge].
  - rewrite get_app_lt by done. apply Ha.
  - replace j with (String.length a + (j - String.length a))%nat by lia.
    rewrite get_app_length. apply Hb.
Qed.

Lemma checkStoreName_no_slash (name : string) :
  checkStoreName name = inr tt → ∀ j, String.get j name ≠ Some "/"%char.
Proof.
  unfold checkStoreName. destruct (String.eqb _ "."); [done|].
  generalize name at 1. intros name0.
  induction name as [|c rest IH]; simpl; [by intros _ []|].
  destruct (nameCharOk c) eqn:Hc; simpl; [|done].
  intros Hrest [|j]; simpl; [|by apply IH].
  intros [= ->]. vm_compute in Hc. done.
Qed.

(** A root that starts with a slash, a slash, and a non-empty rest with
    no slash make a path directly under the root. *)
Lemma under_root (root rest : string) :
  String.get 0 root = Some "/"%char →
  (1 ≤ String.length rest)%nat →
  (∀ j, String.get j rest ≠ Some "/"%char) →
  let p := root ++ "/" ++ rest in
  String.get 0 p = Some "/"%char
  ∧ substring 0 (String.length root) p = root
  ∧ (String.length root + 2 ≤ String.length p)%nat
  ∧ String.get (String.length root) p = Some "/"%char
  ∧ find_char_from "/" (String.length root + 1) p = None.
Proof.
  intros H0 Hlen Hno p. unfold p.
  change ("/" ++ rest) with (String "/" rest).
  split; [rewrite get_app_lt; [done|by eapply get_Some_lt]|].
  split; [apply substring_0_app|].
  split; [rewrite length_app; simpl; lia|].
  split.
  - replace (String.length root) with (String.length root + 0)%nat at 1 by lia.
    by rewrite get_app_length.
  - apply find_char_from_None. intros j Hj.
    replace j with (String.length root + S (j - (String.length root + 1)))%nat
      by lia.
    rewrite get_app_length. simpl. apply Hno.
Qed.

Lemma makeStorePath_isStorePath (type : string) (hash : Hash)
  (suffix p : string) :
  String.get 0 nixStore = Some "/"%char →
  (∀ h, find_char_from "/" 0 (printHash32 h) = None) →
  makeStorePath type hash suffix = inr p →
  isStorePath p = true.
Proof.
  intros H0 Hdigest. unfold makeStorePath.
  destruct (checkStoreName suffix) as [e|[]] eqn:Hname; simpl; [done|].
  intros [= <-].
  match goal with |- context [printHash32 ?h] => set (d := printHash32 h);
    assert (Hd : ∀ j, String.get j d ≠ Some "/"%char)
      by (intros j; apply (proj1 (find_char_from_None "/" 0 d));
          [apply Hdigest|lia]) end.
  destruct (under_root nixStore (d ++ "-" ++ suffix) H0) as (?&?&?&?&?).
  - rewrite length_app. simpl. lia.
  - apply (no_char_app _ d); [done|]. intros [|j]; simpl; [done|].
    by apply checkStoreName_no_slash.
  - unfold isStorePath, isInStore.
    rewrite andb_true_iff, inRoot_spec, bool_decide_eq_true. done.
Qed.

(** X3. When the store root starts with a slash and printed digests hold
    no slash, every path that [makeStorePath], [makeFixedOutputPath] or
    [computeStorePathForText] returns passes [assertStorePath]. *)
Theorem made_paths_are_store_paths :
  String.get 0 nixStore = Some "/"%char →
  (∀ h, find_char_from "/" 0 (printHash32 h) = None) →
  (∀ type hash suffix p,
     makeStorePath type hash suffix = inr p → assertStorePath p = inr tt)
  ∧ (∀ recursive hashAlgo hash name p,
       makeFixedOutputPath recursive hashAlgo hash name = inr p →
       assertStorePath p = inr tt)
  ∧ (∀ suffix s references p,
       computeStorePathForText suffix s references = inr p →
       assertStorePath p = inr tt).
Proof.
  intros H0 Hdigest.
  assert (Hmk : ∀ type hash suffix p,
    makeStorePath type hash suffix = inr p → assertStorePath p = inr tt).
  { intros type hash suffix p Hp. unfold assertStorePath.
    by rewrite (makeStorePath_isStorePath type hash suffix p). }
  split; [exact Hmk|]. split.
  - intros recursive hashAlgo hash name p. apply Hmk.
  - intros suffix s references p. apply Hmk.
Qed.

(** X4. When the state root starts with a slash and printed digests hold
    no slash, every path that [makeStatePath] returns passes
    [assertStatePath]. *)
Theorem makeStatePath_is_state_path (componentHash suffix stateIdentifier p
  : string) :
  String.get 0 nixStoreState = Some "/"%char →
  (∀ h, find_char_from "/" 0 (printHash32 h) = None) →
  makeStatePath componentHash suffix stateIdentifier = inr p →
  assertStatePath p = inr tt.
Proof.
  intros H0 Hdigest. unfold makeStatePath.
  destruct (checkStoreName suffix) as [e|[]] eqn:Hname; simpl; [done|].
  destruct (checkStoreName stateIdentifier) as [e|[]] eqn:Hid; simpl; [done|].
  intros [= <-].
  match goal with |- context [printHash32 ?h] => set (d := printHash32 h);
    assert (Hd : ∀ j, String.get j d ≠ Some "/"%char)
      by (intros j; apply (proj1 (find_char_from_None "/" 0 d));
          [apply Hdigest|lia]) end.
  destruct (under_root nixStoreState
              (d ++ "-" ++ suffix ++ "-" ++ stateIdentifier) H0) as (?&?&?&?&?).
  - rewrite length_app. simpl. lia.
  - apply (no_char_app _ d); [done|]. intros [|j]; simpl; [done|].
    apply (no_char_app _ suffix); [by apply checkStoreName_no_slash|].
    intros [|j']; simpl; [done|]. by apply checkStoreName_no_slash.
  - unfold assertStatePath, isStatePath, isInStateStore.
    rewrite (proj2 (inRoot_spec nixStoreState _)) by done.
    rewrite bool_decide_eq_true_2 by done. done.
Qed.

End PathShapes.

Lemma slashFree_no_slash (s : string) :
  find_char_from "/" 0 (SlashFree.slashFree s) = None.
Proof.
  induction s as [|c s IH]; simpl; [done|].
  destruct (Ascii.eqb_spec c "/") as [->|Hne]; simpl; [by rewrite IH|].
  destruct (Ascii.eqb_spec c "/"); [done|]. by rewrite IH.
Qed.

Lemma toStorePath_prefix_store_path_witness :
  toStorePath (G := Sample.globals) "/nix/store/pppp-app/bin/sh"
    = Some "/nix/store/pppp-app"
  ∧ isStorePath (G := Sample.globals) "/nix/store/pppp-app" = true
  ∧ toStorePath (G := Sample.globals) "/nix/store//bin" = Some "/nix/store/"
  ∧ isStorePath (G := Sample.globals) "/nix/store/" = false.
Proof.
  split; [reflexivity|]. split.
  - apply (toStorePath_prefix_store_path (G := Sample.globals)
             "/nix/store/pppp-app/bin/sh" "/nix/store/pppp-app");
      [reflexivity | discriminate].
  - split; reflexivity.
Defined.

Lemma toStoreOrStatePath_cases_witness :
  toStoreOrStatePath (G := Sample.globals) "/nix/state/ssss-app/log"
    = Some "/nix/state/ssss-app"
  ∧ isStatePath (G := Sample.globals) "/nix/state/ssss-app" = true.
Proof.
  split; [reflexivity|].
  apply (toStoreOrStatePath_cases (G := Sample.globals)
           "/nix/state/ssss-app/log" "/nix/state/ssss-app");
    [reflexivity | discriminate].
Defined.

Lemma made_paths_are_store_paths_witness :
  assertStorePath (G := SlashFree.globals) "/nix/store/text:sha256:a_b:_nix-hello"
  = inr tt.
Proof.
  apply (made_paths_are_store_paths (G := SlashFree.globals) eq_refl
           (λ h, slashFree_no_slash (hash_bytes h)))
    with (suffix := "hello") (s := "a/b") (references := ∅).
  vm_compute. reflexivity.
Defined.

Lemma makeStatePath_is_state_path_witness :
  assertStatePath (G := SlashFree.globals)
    "/nix/state/:sha256:ab_cd:_nix_s-hello-default"
  = inr tt.
Proof.
  apply (makeStatePath_is_state_path (G := SlashFree.globals)
           "ab/cd" "hello" "default" _ eq_refl
           (λ h, slashFree_no_slash (hash_bytes h))).
  vm_compute. reflexivity.
Defined.

Section SharedWith.
Context `{G : Globals} `{C : Codec} `{B : Backend}.

Lemma getDirectlySharedWith_loop_spec (s : Store) (statePath : string)
  (keys : list string) (acc : PathSet) (x : string) :
  x ∈ getDirectlySharedWith_loop s statePath keys acc
  ↔ x ∈ acc
    ∨ (x ∈ keys ∧ default "" (queryString (dbSharedState s) x) = statePath).
Proof.
  revert acc. induction keys as [|i rest IH]; intros acc; simpl.
  - rewrite elem_of_nil. tauto.
  - rewrite IH, elem_of_cons.
    destruct (String.eqb_spec (default "" (queryString (dbSharedState s) i))
                statePath) as [Heq|Hne].
    + rewrite elem_of_union, elem_of_singleton. naive_solver.
    + naive_solver.
Qed.

(** The paths that share directly with [statePath] are the rows of the
    SharedState table that read [statePath]. *)
Lemma getDirectlySharedWithPathSetTxn_spec (s : Store) (statePath x : string) :
  x ∈ getDirectlySharedWithPathSetTxn s statePath
  ↔ queryString (dbSharedState s) x = Some statePath.
Proof.
  unfold getDirectlySharedWithPathSetTxn.
  rewrite getDirectlySharedWith_loop_spec.
  unfold enumTable. rewrite elem_of_Paths_of, elem_of_dom.
  unfold queryString.
  destruct (dbSharedState s !! x) as [[v|vs]|] eqn:Hx; simpl.
  - split; [intros [?%elem_of_empty|[_ ->]]; done|].
    intros [= ->]. right. eauto.
  - split; [intros [?%elem_of_empty|[_ ->]]; done|].
    intros [= ->]. right. eauto.
  - split; [intros [?%elem_of_empty|[[? ?] _]]; done|done].
Qed.

Lemma getSharedWith_loop_spec (s : Store) (ns : string)
  (rec : string → PathSet → Result PathSet) (bound : nat)
  (sp : string) (S0 : PathSet) :
  let t := dbSharedState s in
  (∀ i Si, queryString t i = Some sp →
     (size (dom t ∖ Si) < bound)%nat →
     ∃ R, rec i Si = inr R
       ∧ Si ⊆ R
       ∧ (∀ x, queryString t x = Some i → x ∈ R)
       ∧ (∀ y, y ∈ R → y ∉ Si → ∀ x, queryString t x = Some y → x ∈ R)
       ∧ (∀ x, x ∈ R → x ∈ Si ∨ ∃ k, aliasWalk t k x = Some ns)) →
  (∃ m, aliasWalk t m sp = Some ns) →
  ∀ (l : list string) (Sk : PathSet),
    (∀ i, i ∈ l → queryString t i = Some sp) →
    (size (dom t ∖ Sk) ≤ bound)%nat →
    S0 ⊆ Sk →
    (∀ y, y ∈ Sk → y ∉ S0 → ∀ x, queryString t x = Some y → x ∈ Sk) →
    (∀ x, x ∈ Sk → x ∈ S0 ∨ ∃ k, aliasWalk t k x = Some ns) →
    ∃ R, getSharedWith_loop rec l Sk = inr R
      ∧ Sk ⊆ R
      ∧ (∀ i, i ∈ l → i ∈ R)
      ∧ (∀ y, y ∈ R → y ∉ S0 → ∀ x, queryString t x = Some y → x ∈ R)
      ∧ (∀ x, x ∈ R → x ∈ S0 ∨ ∃ k, aliasWalk t k x = Some ns).
Proof.
  intros t Hrec [m Hm] l.
  induction l as [|i rest IH]; intros Sk Hl Hsize Hsub Hclosed Hsound; simpl.
  - exists Sk. split; [done|]. split; [done|].
    split; [by intros i ?%elem_of_nil|]. done.
  - assert (Hi : queryString t i = Some sp) by (apply Hl; left).
    assert (Hrest : ∀ j, j ∈ rest → queryString t j = Some sp)
      by (intros j Hj; apply Hl; by right).
    destruct (decide (i ∈ Sk)) as [Hin|Hout].
    + rewrite bool_decide_eq_false_2 by (intros Hn; by apply Hn).
      destruct (IH Sk) as (R & HR & HSR & HlR & Hc & Hs); try done.
      exists R. split; [done|]. split; [done|]. split; [|done].
      intros j [->|Hj]%elem_of_cons; [by apply HSR | by apply HlR].
    + rewrite bool_decide_eq_true_2 by done.
      assert (Hidom : i ∈ dom t).
      { apply elem_of_dom. unfold queryString in Hi.
        destruct (t !! i); [eauto | done]. }
      assert (Hless : (size (dom t ∖ ({[ i ]} ∪ Sk)) < size (dom t ∖ Sk))%nat).
      { apply subset_size. split; [set_solver|].
        intros Hsubset. assert (i ∈ dom t ∖ ({[ i ]} ∪ Sk)); set_solver. }
      destruct (Hrec i ({[ i ]} ∪ Sk) Hi) as (Ri & HRi & HSRi & Hpred & Hci & Hsi);
        [lia|].
      rewrite HRi. simpl. rewrite (union_idemp_L Ri).
      destruct (IH Ri) as (R & HR & HSR & HlR & Hc & Hs); try done.
      * assert ((size (dom t ∖ Ri) ≤ size (dom t ∖ Sk))%nat); [|lia].
        apply subseteq_size. set_solver.
      * set_solver.
      * intros y Hy Hy0 x Hx.
        destruct (decide (y = i)) as [->|Hyi]; [by apply Hpred|].
        destruct (decide (y ∈ Sk)) as [HySk|HySk].
        -- apply HSRi. apply elem_of_union_r. by apply (Hclosed y).
        -- apply (Hci y); [done|set_solver|done].
      * intros x Hx. destruct (Hsi x Hx) as [[Hxi|HxSk]%elem_of_union|Hw];
          [|by apply Hsound|by right].
        apply elem_of_singleton in Hxi as ->. right. exists (S m).
        simpl. by rewrite Hi.
      * exists R. split; [done|]. split; [set_solver|]. split; [|done].
        intros j [->|Hj]%elem_of_cons; [|by apply HlR].
        apply HSR, HSRi. set_solver.
Qed.

Lemma getSharedWithPathSetRecTxn_private_spec (s : Store) (ns : string)
  (fuel : nat) :
  let t := dbSharedState s in
  ∀ (sp : string) (S0 : PathSet),
    (size (dom t ∖ S0) < fuel)%nat →
    (∃ m, aliasWalk t m sp = Some ns) →
    ∃ R, getSharedWithPathSetRecTxn_private fuel s sp S0 = inr R
      ∧ S0 ⊆ R
      ∧ (∀ x, queryString t x = Some sp → x ∈ R)
      ∧ (∀ y, y ∈ R → y ∉ S0 → ∀ x, queryString t x = Some y → x ∈ R)
      ∧ (∀ x, x ∈ R → x ∈ S0 ∨ ∃ k, aliasWalk t k x = Some ns).
Proof.
  intros t. induction fuel as [|fuel IH]; intros sp S0 Hsize Hsp; [lia|].
  simpl.
  assert (Hrec : ∀ i Si, queryString t i = Some sp →
     (size (dom t ∖ Si) < fuel)%nat →
     ∃ R, getSharedWithPathSetRecTxn_private fuel s i Si = inr R
       ∧ Si ⊆ R
       ∧ (∀ x, queryString t x = Some i → x ∈ R)
       ∧ (∀ y, y ∈ R → y ∉ Si → ∀ x, queryString t x = Some y → x ∈ R)
       ∧ (∀ x, x ∈ R → x ∈ Si ∨ ∃ k, aliasWalk t k x = Some ns)).
  { intros i Si Hi Hlt. apply IH; [done|].
    destruct Hsp as [m Hm]. exists (S m). simpl. by rewrite Hi. }
  assert (Hl : ∀ i, i ∈ Paths_of (getDirectlySharedWithPathSetTxn s sp) →
                    queryString t i = Some sp).
  { intros i Hi. by apply elem_of_Paths_of,
      getDirectlySharedWithPathSetTxn_spec in Hi. }
  destruct (getSharedWith_loop_spec s ns
              (getSharedWithPathSetRecTxn_private fuel s) fuel sp S0
              Hrec Hsp (Paths_of (getDirectlySharedWithPathSetTxn s sp)) S0 Hl)
    as (R & HR & HSR & HlR & Hc & Hs).
  - fold t. lia.
  - done.
  - done.
  - intros x Hx. by left.
  - exists R. split; [done|]. split; [done|]. split; [|done].
    intros x Hx. apply HlR, elem_of_Paths_of.
    by apply getDirectlySharedWithPathSetTxn_spec.
Qed.

Lemma toNonSharedPathTxn_inr (s : Store) (p r : string) :
  toNonSharedPathTxn s p = inr r
  ↔ ∃ k, aliasWalk (dbSharedState s) k p = Some r.
Proof.
  split.
  - unfold toNonSharedPathTxn. rewrite toNonSharedPath_loop_aliasWalk.
    destruct (aliasWalk _ _ p) as [r'|] eqn:Hw; [|done].
    intros [= <-]. eauto.
  - intros [k Hk]. apply (toNonSharedPathTxn_complete s p r k).
    by rewrite toNonSharedPath_loop_aliasWalk.
Qed.

(** X5. Whenever the alias walk from [statePath] ends,
    [getSharedWithPathSetRecTxn] returns, and its result is the set of
    all other paths whose alias walk ends where the walk from
    [statePath] ends; when the walk does not end, neither does the
    function. *)
Theorem getSharedWithPathSetRecTxn_same_tip (s : Store) (statePath : string) :
  match toNonSharedPathTxn s statePath with
  | inr statePath_ns =>
      ∃ result, getSharedWithPathSetRecTxn s statePath = inr result
        ∧ ∀ x, x ∈ result
               ↔ x ≠ statePath ∧ toNonSharedPathTxn s x = inr statePath_ns
  | inl e => getSharedWithPathSetRecTxn s statePath = inl e
  end.
Proof.
  unfold getSharedWithPathSetRecTxn.
  destruct (toNonSharedPathTxn s statePath) as [e|ns] eqn:Hns; simpl; [done|].
  set (t := dbSharedState s).
  set (S0 := (if negb (String.eqb ns statePath) then {[ ns ]} else ∅) : PathSet).
  apply toNonSharedPathTxn_inr in Hns as [k0 Hk0]. fold t in Hk0.
  assert (Htip : queryString t ns = None) by (by eapply aliasWalk_end).
  assert (Hns0 : aliasWalk t 0 ns = Some ns) by (simpl; by rewrite Htip).
  assert (HS0 : ∀ y, y ∈ S0 → y = ns).
  { intros y. unfold S0. destruct (negb _); set_solver. }
  destruct (getSharedWithPathSetRecTxn_private_spec s ns (S (size t)) ns S0)
    as (R & HR & HSR & Hpred & Hc & Hs).
  - fold t. assert ((size (dom t ∖ S0) ≤ size (dom t))%nat)
      by (apply subseteq_size; set_solver).
    rewrite size_dom in *. lia.
  - by exists 0%nat.
  - simpl in HR. fold t in HR, Hpred, Hc, Hs. rewrite HR. simpl. eexists. split; [reflexivity|].
    intros x. rewrite elem_of_difference, elem_of_singleton.
    split.
    + intros [Hx Hxp]. split; [done|]. apply toNonSharedPathTxn_inr.
      destruct (Hs x Hx) as [->%HS0|Hw]; [by exists 0%nat | done].
    + intros [Hxp [k Hk]%toNonSharedPathTxn_inr]. split; [|done].
      fold t in Hk.
      assert (Hall : ∀ k x, aliasWalk t k x = Some ns → x = ns ∨ x ∈ R).
      { clear -Hpred Hc HS0 Htip. induction k as [|k IH]; intros x; simpl;
          destruct (queryString t x) as [y|] eqn:Hy; try done.
        - intros [= ->]. by left.
        - intros Hw. right. destruct (IH y Hw) as [->|HyR]; [by apply Hpred|].
          destruct (decide (y = ns)) as [->|Hyns]; [by apply Hpred|].
          apply (Hc y); [done| |done]. intros ?%HS0. done.
        - intros [= ->]. by left. }
      destruct (Hall k x Hk) as [->|?]; [|done].
      apply HSR. unfold S0.
      destruct (String.eqb_spec ns statePath) as [->|?]; [done|]. set_solver.
Qed.

Lemma toNonSharedPathTxn_tip (s : Store) (p : string) :
  querySharedStateTxn s p = None → toNonSharedPathTxn s p = inr p.
Proof.
  intros Hp. apply (toNonSharedPathTxn_complete s p p 0). simpl. by rewrite Hp.
Qed.

Lemma toNonSharedPathTxn_end (s : Store) (p r : string) :
  toNonSharedPathTxn s p = inr r → querySharedStateTxn s r = None.
Proof.
  intros [k Hk]%toNonSharedPathTxn_inr. by eapply aliasWalk_end.
Qed.

Lemma toNonSharedPathSet_loop_inr (s : Store) (l : list string)
  (acc R : PathSet) :
  toNonSharedPathSet_loop s l acc = inr R →
  ∀ r, r ∈ R ↔ r ∈ acc ∨ ∃ x, x ∈ l ∧ toNonSharedPathTxn s x = inr r.
Proof.
  revert acc. induction l as [|i rest IH]; intros acc; simpl.
  - intros [= <-] r. split; [by left|]. intros [?|(x & ?%elem_of_nil & _)]; done.
  - destruct (toNonSharedPathTxn s i) as [e|p] eqn:Hp; simpl; [done|].
    intros HR r. rewrite (IH _ HR), elem_of_union, elem_of_singleton.
    split.
    + intros [[->|?]|(x & Hx & Hr)]; [|by left|].
      * right. exists i. split; [by left | done].
      * right. exists x. split; [by right | done].
    + intros [?|(x & [->|Hx]%elem_of_cons & Hr)]; [by left; right| |].
      * left; left. congruence.
      * right. eauto.
Qed.

Lemma toNonSharedPathSet_loop_tips (s : Store) (l : list string)
  (acc : PathSet) :
  (∀ x, x ∈ l → querySharedStateTxn s x = None) →
  toNonSharedPathSet_loop s l acc = inr (list_to_set l ∪ acc).
Proof.
  revert acc. induction l as [|i rest IH]; intros acc Htips; simpl.
  - f_equal. set_solver.
  - rewrite toNonSharedPathTxn_tip by (apply Htips; left). simpl.
    rewrite IH by (intros x Hx; apply Htips; by right).
    f_equal. set_solver.
Qed.

(** X6. When [toNonSharedPathSetTxn] returns, its result holds exactly
    the ends of the alias walks from the given paths; none of them has
    an alias of its own, and dereferencing the result again gives the
    result. *)
Theorem toNonSharedPathSetTxn_tips (s : Store) (statePaths R : PathSet) :
  toNonSharedPathSetTxn s statePaths = inr R →
  (∀ r, r ∈ R ↔ ∃ x, x ∈ statePaths ∧ toNonSharedPathTxn s x = inr r)
  ∧ (∀ r, r ∈ R → querySharedStateTxn s r = None)
  ∧ toNonSharedPathSetTxn s R = inr R.
Proof.
  unfold toNonSharedPathSetTxn. intros HR.
  pose proof (toNonSharedPathSet_loop_inr s _ _ _ HR) as Hspec.
  assert (Himg : ∀ r, r ∈ R
            ↔ ∃ x, x ∈ statePaths ∧ toNonSharedPathTxn s x = inr r).
  { intros r. rewrite Hspec. split.
    - intros [?%elem_of_empty|(x & Hx%elem_of_Paths_of & Hr)]; [done|eauto].
    - intros (x & Hx & Hr). right. exists x.
      split; [by apply elem_of_Paths_of | done]. }
  assert (Htips : ∀ r, r ∈ R → querySharedStateTxn s r = None).
  { intros r (x & _ & Hr)%Himg. by eapply toNonSharedPathTxn_end. }
  split; [done|]. split; [done|].
  rewrite toNonSharedPathSet_loop_tips
    by (intros x Hx%elem_of_Paths_of; by apply Htips).
  rewrite list_to_set_Paths_of. f_equal. set_solver.
Qed.

Lemma aliasWalk_cycle (t : gmap string Value) (fromExisting toNew : string) :
  queryString t toNew = None →
  ∀ n x k, aliasWalk t k x = Some toNew →
    aliasWalk (<[toNew := VString fromExisting]> t) n x
    = match n with
      | O => None
      | S n' => aliasWalk (<[toNew := VString fromExisting]> t) n'
                  (if decide (x = toNew) then fromExisting
                   else default "" (queryString t x))
      end.
Proof.
  intros Htip n x k Hk.
  assert (Hq : queryString (<[toNew := VString fromExisting]> t) x
               = Some (if decide (x = toNew) then fromExisting
                       else default "" (queryString t x))).
  { unfold queryString. destruct (decide (x = toNew)) as [->|Hne].
    - by rewrite lookup_insert_eq.
    - rewrite lookup_insert_ne by done.
      fold (queryString t x). destruct (queryString t x) eqn:Hx; [done|].
      destruct k; simpl in Hk; rewrite Hx in Hk; congruence. }
  destruct n; simpl; by rewrite Hq.
Qed.

Lemma aliasWalk_cycle_None (t : gmap string Value) (fromExisting toNew : string)
  (k0 : nat) :
  queryString t toNew = None →
  aliasWalk t k0 fromExisting = Some toNew →
  ∀ n x k, aliasWalk t k x = Some toNew →
    aliasWalk (<[toNew := VString fromExisting]> t) n x = None.
Proof.
  intros Htip Hfrom. induction n as [|n IH]; intros x k Hk;
    rewrite (aliasWalk_cycle t fromExisting toNew Htip _ x k Hk); [done|].
  destruct (decide (x = toNew)) as [->|Hne]; [by apply (IH _ k0)|].
  destruct k as [|k]; simpl in Hk;
    destruct (queryString t x) as [y|] eqn:Hx; try congruence.
  simpl. by apply (IH y k).
Qed.

(** X7. [setSharedStateTxn] makes no legality check: sharing a path with
    itself, or with a path whose own alias walk ends at it, closes a
    cycle, and from then on the loop of [toNonSharedPathTxn] from that
    path is still running after any number of iterations. *)
Theorem setSharedStateTxn_cycle_diverges (s : Store) :
  (∀ a fuel, toNonSharedPath_loop fuel (setSharedStateTxn s a a) a = None)
  ∧ (∀ fromExisting toNew fuel,
       toNonSharedPathTxn s fromExisting = inr toNew →
       toNonSharedPath_loop fuel (setSharedStateTxn s fromExisting toNew) toNew
         = None
       ∧ toNonSharedPath_loop fuel (setSharedStateTxn s fromExisting toNew)
           fromExisting = None
       ∧ toNonSharedPathTxn (setSharedStateTxn s fromExisting toNew) toNew
         = inl DoesNotTerminate).
Proof.
  assert (Htab : ∀ a b, dbSharedState (setSharedStateTxn s a b)
            = <[b := VString a]> (delete b (dbSharedState s))) by done.
  split.
  - intros a fuel. rewrite toNonSharedPath_loop_aliasWalk, Htab.
    apply (aliasWalk_cycle_None _ a a 0 ) with (k := 0%nat);
      simpl; by rewrite queryString_delete, decide_True.
  - intros fromExisting toNew fuel [k Hk]%toNonSharedPathTxn_inr.
    assert (Htip : queryString (dbSharedState s) toNew = None)
      by (by eapply aliasWalk_end).
    assert (Hdel : delete toNew (dbSharedState s) = dbSharedState s).
    { apply delete_id. unfold queryString in Htip.
      by destruct (dbSharedState s !! toNew) as [[]|]. }
    assert (Hnone : ∀ n x k', aliasWalk (dbSharedState s) k' x = Some toNew →
              toNonSharedPath_loop n (setSharedStateTxn s fromExisting toNew) x
              = None).
    { intros n x k' Hx. rewrite toNonSharedPath_loop_aliasWalk, Htab, Hdel.
      by apply (aliasWalk_cycle_None _ fromExisting toNew k) with (k := k'). }
    split; [apply (Hnone _ _ 0%nat); simpl; by rewrite Htip|].
    split; [by apply (Hnone _ _ k)|].
    unfold toNonSharedPathTxn.
    rewrite (Hnone _ _ 0%nat); [done|]. simpl. by rewrite Htip.
Qed.

End SharedWith.

Lemma toNonSharedPathSetTxn_tips_witness :
  (∀ r, r ∈ ({[ Scenario.stateS ]} : PathSet)
        ↔ ∃ x, x ∈ ({[ Cases.stateU; Scenario.stateS ]} : PathSet)
               ∧ toNonSharedPathTxn Cases.sharingStore x = inr r)
  ∧ (∀ r, r ∈ ({[ Scenario.stateS ]} : PathSet) →
          querySharedStateTxn Cases.sharingStore r = None)
  ∧ toNonSharedPathSetTxn Cases.sharingStore {[ Scenario.stateS ]}
    = inr {[ Scenario.stateS ]}.
Proof.
  apply (toNonSharedPathSetTxn_tips (C := Sample.codec) Cases.sharingStore
           {[ Cases.stateU; Scenario.stateS ]} {[ Scenario.stateS ]}).
  vm_compute. reflexivity.
Defined.

Section Registry2.
Context `{G : Globals} `{C : Codec} `{B : Backend}.

(** X8. A hash stored by [setHash] is the hash that [queryPathHash]
    reads back, provided the hash parser reads the algorithm name
    "sha256" and the printed form of this hash. *)
Theorem setHash_queryPathHash (s s' : Store) (p : string) (h : Hash) :
  parseHashType "sha256" = htSHA256 →
  parseHash htSHA256 (printHash h) = Some h →
  setHash s p h = inr s' →
  isValidPathTxn s' p = true ∧ queryPathHash s' p = inr h.
Proof.
  intros Hty Hparse. unfold setHash.
  destruct (hash_type h) eqn:Hh; try done. intros [= <-].
  assert (Hv : isValidPathTxn
            (set_dbValidPaths
               (setString (dbValidPaths s) p ("sha256:" ++ printHash h)) s) p
            = true) by (apply isValidPathTxn_setString; by left).
  split; [done|]. unfold queryPathHash. rewrite Hv. simpl.
  unfold queryHash, queryString. simpl. unfold setString.
  rewrite lookup_insert_eq. simpl.
  change ("" ++ printHash h) with (printHash h).
  rewrite Hty, Nat.sub_0_r, substring_0_length. by rewrite Hparse.
Qed.

Lemma setReferences_frame (s s' : Store) (p : string)
  (references stateReferences : PathSet) (revision : N) :
  setReferences s p references stateReferences revision = inr s' →
  referencesOnly s s'.
Proof.
  unfold setReferences, orThrow, referencesOnly.
  destruct (isRealisableComponentOrStatePath s p) as [e3|b3];
  destruct (isRealisablePath s p) as [e1|b1];
  destruct (isRealisableStatePath s p) as [e2|b2];
  simpl; repeat (case_match; simpl; try done);
  intros [= <-]; done.
Qed.

Lemma isRealisable_ext (s s' : Store) (p : string) :
  dbValidPaths s' = dbValidPaths s →
  dbValidStatePaths s' = dbValidStatePaths s →
  dbSubstitutes s' = dbSubstitutes s →
  isRealisablePath s' p = isRealisablePath s p
  ∧ isRealisableStatePath s' p = isRealisableStatePath s p
  ∧ isRealisableComponentOrStatePath s' p
    = isRealisableComponentOrStatePath s p.
Proof.
  intros Hv Hvs Hsub.
  unfold isRealisablePath, isRealisableStatePath,
    isRealisableComponentOrStatePath, isValidComponentOrStatePathTxn,
    isValidPathTxn, isValidStatePathTxn, readSubstitutes.
  by rewrite Hv, Hvs, Hsub.
Qed.

Lemma isRealisablePath_either (s : Store) (p : string) :
  isRealisablePath s p = inr true →
  isRealisableComponentOrStatePath s p = inr true.
Proof.
  unfold isRealisablePath, isRealisableComponentOrStatePath,
    isValidComponentOrStatePathTxn.
  destruct (isValidPathTxn s p); simpl; [done|].
  by destruct (isValidStatePathTxn s p).
Qed.

Lemma setReferences_component (s s' : Store) (p : string)
  (references stateReferences : PathSet) (revision : N) :
  isRealisablePath s p = inr true →
  setReferences s p references stateReferences revision = inr s' →
  isRealisablePath s' p = inr true
  ∧ list_to_set (queryStrings (dbComponentComponentReferences s') p)
    = references
  ∧ list_to_set (queryStrings (dbComponentStateReferences s') p)
    = stateReferences.
Proof.
  intros Hreal Hset.
  destruct (setReferences_frame _ _ _ _ _ _ Hset) as (Hv & Hvs & Hsub & _).
  destruct (isRealisable_ext s s' p Hv Hvs Hsub) as (-> & _ & _).
  split; [done|]. revert Hset. unfold setReferences.
  rewrite (isRealisablePath_either s p Hreal), Hreal.
  assert (Hgoal :
    (if bool_decide
          (list_to_set (queryStrings (dbComponentComponentReferences s) p)
           = references)
        && bool_decide
             (list_to_set (queryStrings (dbComponentStateReferences s) p)
              = stateReferences)
     then (inr s : Result Store)
     else inr
            (set_dbComponentStateReferences
               (setStrings (dbComponentStateReferences s) p
                  (Paths_of stateReferences))
               (set_dbComponentComponentReferences
                  (setStrings (dbComponentComponentReferences s) p
                     (Paths_of references)) s))) = inr s' →
    list_to_set (queryStrings (dbComponentComponentReferences s') p)
      = references
    ∧ list_to_set (queryStrings (dbComponentStateReferences s') p)
      = stateReferences).
  { destruct (bool_decide (_ = references)) eqn:H1;
      destruct (bool_decide (_ = stateReferences)) eqn:H2; simpl;
      intros [= <-]; simpl;
      try (apply bool_decide_eq_true in H1, H2; done);
      unfold queryStrings, setStrings; rewrite !lookup_insert_eq;
      by rewrite !list_to_set_Paths_of. }
  destruct (0 <? size references)%nat; simpl; exact Hgoal.
Qed.

(** X9. After [setReferences] on a realisable component path,
    [queryXReferencesTxn] adds to its accumulator exactly the component
    references that were set when asked for components, and exactly the
    state references when asked for state, whatever the revision; and
    [setReferences] has changed nothing but the reference tables. *)
Theorem setReferences_queryXReferencesTxn (s s' : Store) (p : string)
  (references stateReferences : PathSet) (revision : N) :
  isRealisablePath s p = inr true →
  setReferences s p references stateReferences revision = inr s' →
  (∀ acc r ts, queryXReferencesTxn s' p acc true r ts
               = inr (acc ∪ references))
  ∧ (∀ acc r ts, queryXReferencesTxn s' p acc false r ts
                 = inr (acc ∪ stateReferences))
  ∧ referencesOnly s s'.
Proof.
  intros Hreal Hset.
  destruct (setReferences_component _ _ _ _ _ _ Hreal Hset)
    as (Hreal' & Hcc & Hcs).
  split; [|split; [|by eapply setReferences_frame]];
    intros acc r ts; unfold queryXReferencesTxn; rewrite Hreal'; simpl;
    by rewrite ?Hcc, ?Hcs.
Qed.

(** X10. [LocalStore::queryReferences] and
    [LocalStore::queryStateReferences] hand their revision to
    [queryXReferencesTxn] in the place of the component-or-state flag:
    after [setReferences] on a realisable component path both return the
    state references at revision 0 and the component references at every
    other revision. *)
Theorem queryReferences_flag_is_revision (s s' : Store) (p : string)
  (references stateReferences : PathSet) (revision : N) :
  isRealisablePath s p = inr true →
  setReferences s p references stateReferences revision = inr s' →
  queryReferences s' p ∅ 0 = inr stateReferences
  ∧ queryStateReferences s' p ∅ 0 = inr stateReferences
  ∧ ∀ r, r ≠ 0%N →
         queryReferences s' p ∅ r = inr references
         ∧ queryStateReferences s' p ∅ r = inr references.
Proof.
  intros Hreal Hset.
  destruct (setReferences_component _ _ _ _ _ _ Hreal Hset)
    as (Hreal' & Hcc & Hcs).
  unfold queryReferences, queryStateReferences, queryXReferencesTxn.
  rewrite Hreal'. simpl. rewrite Hcs.
  split; [f_equal; set_solver|]. split; [f_equal; set_solver|].
  intros r Hr. apply N.eqb_neq in Hr. rewrite Hr. simpl. rewrite Hcc.
  split; f_equal; set_solver.
Qed.

Lemma latest_loop_revision (revision timestamp revision' timestamp' : N)
  (keys : list (string * N)) (latest : gmap string N) :
  latest_loop revision timestamp keys latest
  = latest_loop revision' timestamp' keys latest.
Proof.
  revert latest. induction keys as [|[k t] rest IH]; intros latest; simpl;
    [done|].
  rewrite IH. do 2 f_equal.
  by repeat case_match.
Qed.

(** X11. The revision given to the referrer scans does not bound what
    they read: the component scan is the same for every revision, and
    whenever the state scan returns for a revision, it returns the same
    set for revision 0, the scan of the latest rows. *)
Theorem getXReferrers_revision_unused (s : Store) (p : string) (r : N)
  (referrers : PathSet) :
  getStateReferrersTxn s p r = inr referrers →
  getStateReferrersTxn s p 0 = inr referrers
  ∧ getReferrersTxn s p r = getReferrersTxn s p 0.
Proof.
  unfold getStateReferrersTxn, getReferrersTxn, getXReferrers.
  intros Hr. split; [|done]. revert Hr.
  destruct (negb (isValidPathTxn s p) && negb (isValidStatePathTxn s p));
    [done|].
  destruct (_ : Result (string * gmap (string * N) Value))
    as [e|[path table]]; simpl; [done|].
  destruct (negb (r =? 0)%N); simpl.
  - destruct (db_revisionToTimeStamp _ path r) as [t|]; simpl; [|done].
    by rewrite (latest_loop_revision r t 0 0).
  - by rewrite (latest_loop_revision r 0 0 0).
Qed.

End Registry2.

Lemma setHash_queryPathHash_witness :
  queryPathHash
    (set_dbValidPaths {[ Scenario.P := VString "sha256:00ff" ]} emptyStore)
    Scenario.P
  = inr (mkHash htSHA256 "00ff").
Proof.
  apply (setHash_queryPathHash (G := Sample.globals) (B := Sample.backend)
           emptyStore _ Scenario.P (mkHash htSHA256 "00ff")
           eq_refl eq_refl).
  reflexivity.
Defined.

Lemma setReferences_queryXReferencesTxn_witness :
  (∀ acc r ts, queryXReferencesTxn Cases.referencedStore Scenario.P acc true r ts
               = inr (acc ∪ {[ Scenario.Q ]}))
  ∧ (∀ acc r ts,
       queryXReferencesTxn Cases.referencedStore Scenario.P acc false r ts
       = inr (acc ∪ {[ Scenario.stateS ]}))
  ∧ referencesOnly (Scenario.exportStore []) Cases.referencedStore.
Proof.
  apply (setReferences_queryXReferencesTxn (B := Sample.backend)
           (Scenario.exportStore []) Cases.referencedStore Scenario.P
           {[ Scenario.Q ]} {[ Scenario.stateS ]} 0);
    vm_compute; reflexivity.
Defined.

Lemma queryReferences_flag_is_revision_witness :
  queryReferences Cases.referencedStore Scenario.P ∅ 0
    = inr {[ Scenario.stateS ]}
  ∧ queryStateReferences Cases.referencedStore Scenario.P ∅ 0
    = inr {[ Scenario.stateS ]}
  ∧ ∀ r, r ≠ 0%N →
         queryReferences Cases.referencedStore Scenario.P ∅ r
           = inr {[ Scenario.Q ]}
         ∧ queryStateReferences Cases.referencedStore Scenario.P ∅ r
           = inr {[ Scenario.Q ]}.
Proof.
  apply (queryReferences_flag_is_revision (B := Sample.backend)
           (Scenario.exportStore []) Cases.referencedStore Scenario.P
           {[ Scenario.Q ]} {[ Scenario.stateS ]} 0);
    vm_compute; reflexivity.
Defined.

Lemma getXReferrers_revision_unused_witness :
  getStateReferrersTxn (B := Cases.revisionBackend) Scenario.referrerStore
    Scenario.stateT 0 = inr {[ Scenario.stateS ]}
  ∧ getReferrersTxn (B := Cases.revisionBackend) Scenario.referrerStore
      Scenario.stateT 4
    = getReferrersTxn (B := Cases.revisionBackend) Scenario.referrerStore
        Scenario.stateT 0.
Proof.
  apply (getXReferrers_revision_unused (B := Cases.revisionBackend)
           Scenario.referrerStore Scenario.stateT 4 {[ Scenario.stateS ]}).
  vm_compute. reflexivity.
Defined.

Section Registration2.
Context `{G : Globals} `{C : Codec} `{B : Backend}.

Lemma addStateDeriver_frame (s s' : Store) (storePath deriver : string) :
  addStateDeriver s storePath deriver = inr s' → deriversOnly s s'.
Proof.
  destruct (decide (deriver = "")) as [->|Hne].
  - unfold addStateDeriver. destruct (assertStorePath storePath); simpl;
      [done|]. intros [= <-]. by repeat split.
  - intros (drv & so & cur & nd & sm & _ & _ & _ & Hm & ->)%addStateDeriver_inr;
      [|done].
    pose proof (onlyFsChanged_mergeNewDerivation_loop s deriver
                  (stateIdentifier so) (username so) true (Paths_of cur) ∅)
      as Hfs.
    rewrite Hm in Hfs. simpl in Hfs. rewrite Hfs. by repeat split.
Qed.

Lemma setDeriver_frame (s s' : Store) (storePath deriver : string) :
  setDeriver s storePath deriver = inr s' → deriversOnly s s'.
Proof.
  unfold setDeriver.
  destruct (assertStorePath storePath); simpl; [done|].
  destruct (String.eqb deriver ""); [intros [= <-]; by repeat split|].
  destruct (assertStorePath deriver); simpl; [done|].
  destruct (isRealisablePath s storePath) as [e|[]]; simpl; [done| |done].
  destruct (isStateDrvPathTxn s deriver) as [e|[]]; simpl; [done| |].
  - apply addStateDeriver_frame.
  - intros [= <-]. by repeat split.
Qed.

Lemma isValidStatePathTxn_true (s : Store) (p : string) :
  isValidStatePathTxn s p = true ↔ is_Some (dbValidStatePaths s !! p).
Proof.
  unfold isValidStatePathTxn, queryString. rewrite bool_decide_eq_true.
  destruct (dbValidStatePaths s !! p) as [[]|]; split; intros [? ?];
    try done; eauto.
Qed.

Lemma registerValidPaths_loop_valid (newPaths : PathSet)
  (infos : list ValidPathInfo) :
  ∀ s s', registerValidPaths_loop newPaths s infos = inr s' →
    (∀ p, isValidPathTxn s p = true → isValidPathTxn s' p = true)
    ∧ (∀ p, isValidStatePathTxn s p = true → isValidStatePathTxn s' p = true)
    ∧ (∀ i, i ∈ infos →
         if isStorePath (info_path i)
         then isValidPathTxn s' (info_path i) = true
         else isStatePath (info_path i) = true
              ∧ isValidStatePathTxn s' (info_path i) = true).
Proof.
  induction infos as [|i rest IH]; intros s s'; simpl.
  { intros [= <-]. split; [done|]. split; [done|].
    by intros i ?%elem_of_nil. }
  intros (b & Hb & (s1 & Hs1 & (s2 & Hs2 & (u & _ & (s3 & Hs3 & Hrest)
            %bind_inr)%bind_inr)%bind_inr)%bind_inr)%bind_inr.
  destruct (IH s3 s' Hrest) as (Hv3 & Hvs3 & Hin3).
  destruct (setReferences_frame _ _ _ _ _ _ Hs2) as (Hv2 & Hvs2 & _).
  assert (H3 : dbValidPaths s3 = dbValidPaths s2
               ∧ dbValidStatePaths s3 = dbValidStatePaths s2).
  { destruct b; [|injection Hs3 as <-; done].
    by destruct (setDeriver_frame _ _ _ _ Hs3) as (? & ? & _). }
  destruct H3 as (Hv32 & Hvs32).
  assert (Hstep : (∀ p, isValidPathTxn s p = true → isValidPathTxn s3 p = true)
            ∧ (∀ p, isValidStatePathTxn s p = true →
                    isValidStatePathTxn s3 p = true)
            ∧ (if isStorePath (info_path i)
               then isValidPathTxn s3 (info_path i) = true
               else isStatePath (info_path i) = true
                    ∧ isValidStatePathTxn s3 (info_path i) = true)).
  { unfold isValidStatePathTxn in *.
    setoid_rewrite (isValidPathTxn_ext s2 s3 _ Hv32).
    setoid_rewrite (isValidPathTxn_ext s1 s2 _ Hv2).
    rewrite Hvs32, Hvs2.
    unfold assertStorePath, assertStatePath in Hb.
    destruct (isStorePath (info_path i)) eqn:Hsp; simpl in Hb.
    - injection Hb as <-.
      unfold setHash in Hs1. destruct (hash_type (info_hash i)); try done.
      injection Hs1 as <-. split; [|split; [done|]].
      + intros p Hp. apply isValidPathTxn_setString. by right.
      + apply isValidPathTxn_setString. by left.
    - destruct (isStatePath (info_path i)) eqn:Hst; simpl in Hb; [|done].
      injection Hb as <-.
      injection Hs1 as <-. split; [done|]. simpl. unfold setString.
      split; [|split; [done|]].
      + intros p. rewrite !bool_decide_eq_true. unfold queryString.
        destruct (decide (p = info_path i)) as [->|Hne].
        * rewrite lookup_insert_eq. eauto.
        * by rewrite lookup_insert_ne.
      + rewrite bool_decide_eq_true. unfold queryString.
        rewrite lookup_insert_eq. eauto. }
  destruct Hstep as (Hvs & Hvss & Hi).
  split; [intros p Hp; by apply Hv3, Hvs|].
  split; [intros p Hp; by apply Hvs3, Hvss|].
  intros j [->|Hj]%elem_of_cons; [|by apply Hin3].
  destruct (isStorePath (info_path i)); [by apply Hv3|].
  split; [apply Hi | by apply Hvs3, Hi].
Qed.

(** X12. When [registerValidPaths] succeeds, every path of the batch is
    valid afterwards, as a component when it is a store path and as a
    state path otherwise (it is then a state path), and every path that
    was valid before, of either kind, still is. *)
Theorem registerValidPaths_registers (s s' : Store)
  (infos : list ValidPathInfo) :
  registerValidPaths s infos = inr s' →
  (∀ i, i ∈ infos →
     if isStorePath (info_path i)
     then isValidPathTxn s' (info_path i) = true
     else isStatePath (info_path i) = true
          ∧ isValidStatePathTxn s' (info_path i) = true)
  ∧ (∀ p, isValidPathTxn s p = true → isValidPathTxn s' p = true)
  ∧ (∀ p, isValidStatePathTxn s p = true → isValidStatePathTxn s' p = true).
Proof.
  intros Hreg. apply registerValidPaths_loop_valid in Hreg. tauto.
Qed.

End Registration2.

Lemma registerValidPaths_registers_witness :
  (∀ i, i ∈ Cases.batch →
     if isStorePath (info_path i)
     then isValidPathTxn Cases.registered (info_path i) = true
     else isStatePath (info_path i) = true
          ∧ isValidStatePathTxn Cases.registered (info_path i) = true)
  ∧ (∀ p, isValidPathTxn emptyStore p = true →
          isValidPathTxn Cases.registered p = true)
  ∧ (∀ p, isValidStatePathTxn emptyStore p = true →
          isValidStatePathTxn Cases.registered p = true).
Proof.
  apply (registerValidPaths_registers (B := Sample.backend) emptyStore
           Cases.registered Cases.batch).
  vm_compute. reflexivity.
Defined.

Section Derivers2.
Context `{G : Globals} `{C : Codec} `{B : Backend} `{U : Util}.

(** X13. A deriver without state output that [setDeriver] records for a
    path is the deriver that [queryDeriver] returns for it. *)
Theorem setDeriver_queryDeriver (s s' : Store) (p d : string)
  (drv : Derivation) :
  d ≠ "" →
  fs s !! d = Some (FsRecipe drv) →
  isStateDrv drv = false →
  setDeriver s p d = inr s' →
  queryDeriver s' p = inr d.
Proof.
  intros Hd Hfs Hstate. unfold setDeriver.
  destruct (assertStorePath p); simpl; [done|].
  rewrite (proj2 (String.eqb_neq d "") Hd).
  destruct (assertStorePath d); simpl; [done|].
  destruct (isRealisablePath s p) as [e|[]] eqn:Hreal; simpl; [done| |done].
  unfold isStateDrvPathTxn.
  rewrite (proj2 (derivationFromPathTxn_inr s d drv) Hfs). simpl.
  rewrite Hstate. intros [= <-].
  unfold queryDeriver.
  rewrite (isRealisablePath_ext s _ p) by done. rewrite Hreal. simpl.
  unfold queryString, setString. rewrite lookup_insert_eq. simpl.
  rewrite (proj2 (derivationFromPathTxn_inr _ d drv)) by done. simpl.
  by rewrite Hstate.
Qed.

(** X14. For a valid store path without a row in the derivers table, and
    with nothing on disk under the empty path, [queryDeriver] does not
    return the empty string: it throws when it reads the derivation of
    the empty deriver, and so does [exportPath] of such a path. *)
Theorem queryDeriver_without_row_throws (s : Store) (p : string)
  (obj : FsObject) (sign : bool) :
  isStorePath p = true →
  isValidPathTxn s p = true →
  fs s !! p = Some obj →
  dbDerivers s !! p = None →
  fs s !! "" = None →
  queryDeriver s p = inl (CannotReadDerivation "")
  ∧ exportPath s p sign = inl (CannotReadDerivation "").
Proof.
  intros Hsp Hv Hobj Hrow Hempty.
  assert (Hreal : isRealisablePath s p = inr true)
    by (unfold isRealisablePath; by rewrite Hv).
  assert (Hq : queryDeriver s p = inl (CannotReadDerivation "")).
  { unfold queryDeriver. rewrite Hreal. simpl.
    unfold queryString. rewrite Hrow. simpl.
    unfold derivationFromPathTxn. by rewrite Hempty. }
  split; [done|].
  unfold exportPath, assertStorePath, dumpPath, queryXReferencesTxn.
  rewrite Hsp. simpl. rewrite Hv, Hobj. simpl.
  rewrite Hreal. simpl. by rewrite Hq.
Qed.

Lemma set_set_id (sm : Store) (P : string) (row : list string) :
  let s1 := set_dbStateInfo (setString (dbStateInfo sm) P "")
              (set_dbDerivers (setStrings (dbDerivers sm) P row) sm) in
  set_dbStateInfo (setString (dbStateInfo (set_dbDerivers
      (setStrings (dbDerivers s1) P row) s1)) P "")
    (set_dbDerivers (setStrings (dbDerivers s1) P row) s1) = s1.
Proof.
  destruct sm. unfold set_dbStateInfo, set_dbDerivers, setString, setStrings.
  simpl. by rewrite !insert_insert_eq.
Qed.

(** X15. Registering the same state deriver a second time changes
    nothing: when [addStateDeriver] succeeds for a recipe with one output
    whose identifier and user are not the wildcard, calling it again
    with the same arguments returns the store it is given; the path is
    then a state component, and [queryDerivers] for the declared pair
    returns this deriver alone. *)
Theorem addStateDeriver_idempotent (s s1 : Store) (P D : string)
  (drv : Derivation) (so : DerivationStateOutput) :
  D ≠ "" →
  fs s !! D = Some (FsRecipe drv) →
  stateOutputs drv !! "state" = Some so →
  size (outputs drv) = 1%nat →
  stateIdentifier so ≠ "*" → username so ≠ "*" →
  addStateDeriver s P D = inr s1 →
  addStateDeriver s1 P D = inr s1
  ∧ isStateComponentTxn s1 P = true
  ∧ queryDerivers s1 P (stateIdentifier so) (username so) = inr {[ D ]}.
Proof.
  intros HD Hfs Hso Hout Hid Huser Hadd.
  assert (HaP : assertStorePath P = inr tt).
  { unfold addStateDeriver in Hadd.
    by destruct (assertStorePath P) as [|[]]. }
  assert (HaD : assertStorePath D = inr tt).
  { unfold addStateDeriver in Hadd. rewrite HaP in Hadd. simpl in Hadd.
    rewrite (proj2 (String.eqb_neq D "") HD) in Hadd.
    by destruct (assertStorePath D) as [|[]]. }
  destruct (addStateDeriver_inr s P D s1 HD Hadd)
    as (drv0 & so0 & cur & nd & sm & Hfs0 & Hso0 & Hcur & Hm & Hs1).
  assert (drv0 = drv) as -> by congruence.
  assert (so0 = so) as -> by congruence.
  destruct (queryDerivers_inr _ _ _ _ _ Hcur) as (Hreal & Hu & Hloop).
  pose proof (queryDerivers_loop_inr _ _ _ _ _ _ _ Hid Huser Hloop) as Hdecl.
  destruct (mergeNewDerivation_loop_all_match s D (stateIdentifier so)
              (username so) (Paths_of cur) ∅ nd sm)
    as [-> _]; [apply NoDup_Paths_of| |done|].
  { intros d Hd%elem_of_Paths_of. apply Hdecl in Hd as [?|[_ ?]]; [|done].
    by apply elem_of_empty in H. }
  destruct (mergeNewDerivation_loop_fs _ _ _ _ _ _ _ _ Hm) as [HfsD _].
  pose proof (onlyFsChanged_mergeNewDerivation_loop s D
                (stateIdentifier so) (username so) true (Paths_of cur) ∅)
    as Hsm.
  rewrite Hm in Hsm. simpl in Hsm.
  rewrite union_empty_r_L, Paths_of_singleton in Hs1.
  assert (Hfs1 : fs s1 !! D = Some (FsRecipe drv))
    by (rewrite Hs1; simpl; congruence).
  assert (Hreal1 : isRealisablePath s1 P = inr true).
  { rewrite <- Hreal. apply isRealisablePath_ext; rewrite Hs1, Hsm; done. }
  assert (Hrow1 : queryStrings (dbDerivers s1) P = [D]).
  { rewrite Hs1. simpl. unfold queryStrings, setStrings.
    by rewrite lookup_insert_eq. }
  assert (Hdrv1 : derivationFromPathTxn s1 D = inr drv)
    by (by apply derivationFromPathTxn_inr).
  assert (Hfind : find_second (stateOutputs drv) "state" = inr so)
    by (by apply find_second_inr).
  assert (Hq1 : queryDerivers s1 P (stateIdentifier so) (username so)
                = inr {[ D ]}).
  { unfold queryDerivers. rewrite Hreal1. simpl.
    rewrite (proj2 (String.eqb_neq _ "") Hu), Hrow1. simpl.
    rewrite Hdrv1. simpl. rewrite Hout. simpl. rewrite Hfind. simpl.
    rewrite !String.eqb_refl. simpl. f_equal. set_solver. }
  split; [|split; [|done]].
  - unfold addStateDeriver. rewrite HaP. simpl.
    rewrite (proj2 (String.eqb_neq D "") HD), HaD. simpl.
    rewrite Hreal1. simpl. rewrite Hdrv1. simpl. rewrite Hfind. simpl.
    rewrite Hq1. simpl. unfold mergeNewDerivationIntoListTxn.
    rewrite Hdrv1. simpl. rewrite Hfind. simpl.
    rewrite Paths_of_singleton. simpl.
    rewrite Hdrv1. simpl. rewrite Hfind. simpl.
    rewrite !String.eqb_refl. simpl.
    rewrite union_empty_r_L, Paths_of_singleton.
    f_equal. rewrite Hs1. apply set_set_id.
  - unfold isStateComponentTxn. rewrite Hs1. simpl.
    unfold queryString, setString. rewrite lookup_insert_eq.
    apply bool_decide_eq_true. eauto.
Qed.

End Derivers2.

Lemma setDeriver_queryDeriver_witness :
  queryDeriver (Scenario.exportStore []) Scenario.P = inr Scenario.D.
Proof.
  apply (setDeriver_queryDeriver (Scenario.exportStore []) (Scenario.exportStore [])
           Scenario.P Scenario.D Scenario.plainDrv);
    [discriminate | reflexivity | reflexivity | vm_compute; reflexivity].
Defined.

Lemma queryDeriver_without_row_throws_witness :
  queryDeriver (Scenario.imported [] false false) Scenario.P
    = inl (CannotReadDerivation "")
  ∧ exportPath (Scenario.imported [] false false) Scenario.P false
    = inl (CannotReadDerivation "").
Proof.
  apply (queryDeriver_without_row_throws (B := Sample.backend)
           (Scenario.imported [] false false) Scenario.P
           (FsOther "contents") false);
    vm_compute; reflexivity.
Defined.

Lemma addStateDeriver_idempotent_witness :
  addStateDeriver (Scenario.afterFirst "default" "u") Scenario.P Scenario.D
    = inr (Scenario.afterFirst "default" "u")
  ∧ isStateComponentTxn (Scenario.afterFirst "default" "u") Scenario.P = true
  ∧ queryDerivers (Scenario.afterFirst "default" "u") Scenario.P
      "default" "u" = inr {[ Scenario.D ]}.
Proof.
  apply (addStateDeriver_idempotent (Scenario.deriverStore "default" "u")
           (Scenario.afterFirst "default" "u") Scenario.P Scenario.D
           (Scenario.stateDrv "default" "u")
           (mkDerivationStateOutput "/nix/state/ssss-app" "abcd"
              "default" "u"));
    try discriminate; vm_compute; reflexivity.
Defined.

Section Substitutes2.
Context `{G : Globals} `{C : Codec} `{B : Backend} `{U : Util}.

Lemma readSubstitutes_loop_cons (r : string) (x : Substitute)
  (rest : list string) :
  readSubstitutes_loop [r] = inr [x] →
  readSubstitutes_loop (r :: rest)
  = (subs ← readSubstitutes_loop rest; mret (x :: subs)).
Proof.
  simpl. destruct (_ || _); [done|].
  destruct (unpackStrings r) as [|front tl]; [done|].
  destruct (string2Int front) as [version|]; [|done].
  destruct (negb _); [done|].
  destruct tl as [|d [|p [|a [|? ?]]]]; try done.
  simpl. by intros [= <-].
Qed.

Lemma readSubstitutes_loop_records (subs : list Substitute) :
  (∀ x, x ∈ subs → readsBack x) →
  readSubstitutes_loop (map substituteRecord subs) = inr subs.
Proof.
  induction subs as [|x subs IH]; intros Hall; [done|].
  change (map substituteRecord (x :: subs))
    with (substituteRecord x :: map substituteRecord subs).
  rewrite (readSubstitutes_loop_cons _ x) by (apply Hall; left).
  rewrite IH by (intros y Hy; apply Hall; by right). done.
Qed.

Lemma std_remove_absent (subs : list Substitute) (sub : Substitute) :
  existsb (λ x, Substitute_eq x sub) subs = false →
  std_remove subs sub = subs.
Proof.
  unfold std_remove.
  induction subs as [|x subs IH]; simpl; [done|].
  intros [Hx Hrest]%orb_false_iff.
  rewrite filter_cons, decide_True by done. by rewrite IH.
Qed.

(** X16. When the substitute is not yet in the row of the path, under
    [operator ==], and the packed-string framing reads back the records
    that are written, [registerSubstitute] puts it in front of the
    substitutes that were there, in their order; the path then has
    substitutes, and the rows of the other paths are as they were. *)
Theorem registerSubstitute_new_first (s s' : Store) (srcPath : string)
  (sub : Substitute) (subs : list Substitute) :
  readSubstitutes s srcPath = inr subs →
  existsb (λ x, Substitute_eq x sub) subs = false →
  (∀ x, x ∈ sub :: subs → readsBack x) →
  registerSubstitute s srcPath sub = inr s' →
  readSubstitutes s' srcPath = inr (sub :: subs)
  ∧ hasSubstitutes s' srcPath = inr true
  ∧ ∀ q, q ≠ srcPath → readSubstitutes s' q = readSubstitutes s q.
Proof.
  intros Hsubs Hnew Hcodec. unfold registerSubstitute.
  destruct (assertStorePath srcPath); simpl; [done|].
  rewrite Hsubs. simpl. rewrite Hnew, std_remove_absent by done.
  intros [= <-].
  assert (Hrow : readSubstitutes (writeSubstitutes s srcPath (sub :: subs))
                   srcPath = inr (sub :: subs)).
  { unfold readSubstitutes, writeSubstitutes. simpl.
    unfold queryStrings, setStrings. rewrite lookup_insert_eq.
    by apply (readSubstitutes_loop_records (sub :: subs)). }
  split; [done|]. split.
  - unfold hasSubstitutes, querySubstitutes. by rewrite Hrow.
  - intros q Hq. unfold readSubstitutes, writeSubstitutes. simpl.
    unfold queryStrings, setStrings. by rewrite lookup_insert_ne.
Qed.

End Substitutes2.

Lemma registerSubstitute_new_first_witness :
  readSubstitutes Cases.afterRegister Scenario.P
    = inr [Cases.sub3; Scenario.sub1; Scenario.sub2]
  ∧ hasSubstitutes Cases.afterRegister Scenario.P = inr true
  ∧ ∀ q, q ≠ Scenario.P →
         readSubstitutes Cases.afterRegister q
         = readSubstitutes Scenario.substituteStore q.
Proof.
  apply (registerSubstitute_new_first Scenario.substituteStore
           Cases.afterRegister Scenario.P Cases.sub3
           [Scenario.sub1; Scenario.sub2]).
  - vm_compute. reflexivity.
  - vm_compute. reflexivity.
  - intros x Hx. repeat (apply elem_of_cons in Hx as [->|Hx]);
      [vm_compute; reflexivity .. | by apply elem_of_nil in Hx].
  - vm_compute. reflexivity.
Defined.

Section Deletion2.
Context `{G : Globals} `{C : Codec} `{B : Backend} `{U : Util}.

Lemma checkNotInUse_err (s : Store) (path : string) (referrers : list string) :
  (∃ i, i ∈ referrers ∧ i ≠ path ∧ isValidPathTxn s i = true) →
  ∃ j, j ∈ referrers ∧ j ≠ path ∧ isValidPathTxn s j = true
       ∧ checkNotInUse s path referrers = inl (PathInUse path j).
Proof.
  induction referrers as [|i rest IH]; intros (i0 & Hi0 & Hne & Hv).
  { by apply elem_of_nil in Hi0. }
  simpl. destruct (String.eqb_spec i path) as [->|Hip]; simpl.
  - apply elem_of_cons in Hi0 as [->|Hi0]; [done|].
    destruct IH as (j & ? & ? & ? & ?); [eauto|].
    exists j. split; [by right | done].
  - destruct (isValidPathTxn s i) eqn:Hvi.
    + exists i. split; [by left | done].
    + apply elem_of_cons in Hi0 as [->|Hi0]; [congruence|].
      destruct IH as (j & ? & ? & ? & ?); [eauto|].
      exists j. split; [by right | done].
Qed.

Lemma getReferrersTxn_valid (s : Store) (path : string) (revision : N) :
  isValidPathTxn s path = true →
  ∃ referrers, getReferrersTxn s path revision = inr referrers
    ∧ ∀ i, i ∈ referrers
           ↔ path ∈ queryStrings (dbComponentComponentReferences s) i.
Proof.
  intros Hv. unfold getReferrersTxn, getXReferrers. rewrite Hv. simpl.
  eexists. split; [reflexivity|]. intros i. rewrite scanKeys_spec.
  split; [intros [?%elem_of_empty|[_ ?]]; done|].
  intros Hi. right. split; [|done].
  unfold enumTable. apply elem_of_Paths_of, elem_of_dom.
  by eapply queryStrings_elem_is_Some.
Qed.

(** X17. [deleteFromStore] refuses a valid store path that occurs among
    the component references of another valid path: it throws the
    "in use" exception, naming a valid referrer. *)
Theorem deleteFromStore_in_use (s : Store) (_path i : string) :
  let path := canonPath _path in
  isStorePath path = true →
  isValidPathTxn s path = true →
  i ≠ path →
  isValidPathTxn s i = true →
  path ∈ queryStrings (dbComponentComponentReferences s) i →
  ∃ j, deleteFromStore s _path = inl (PathInUse path j)
       ∧ j ≠ path ∧ isValidPathTxn s j = true
       ∧ path ∈ queryStrings (dbComponentComponentReferences s) j.
Proof.
  intros path Hsp Hv Hne Hvi Href.
  destruct (getReferrersTxn_valid s path UINT_MAX Hv) as (referrers & Hr & Hin).
  destruct (checkNotInUse_err s path (Paths_of referrers))
    as (j & Hj & Hjne & Hjv & Herr).
  { exists i. split; [by apply elem_of_Paths_of, Hin | done]. }
  exists j. split; [|split; [done|split; [done|]]].
  - unfold deleteFromStore, assertStorePath. fold path.
    rewrite Hsp. simpl. rewrite Hv, Hr. simpl. by rewrite Herr.
  - by apply Hin, elem_of_Paths_of.
Qed.

Lemma list_to_set_empty_inv (l : list string) :
  (list_to_set l : PathSet) = ∅ → l = [].
Proof.
  destruct l as [|x l]; [done|]. simpl. intros Hx.
  assert (x ∈ (∅ : PathSet)) by (rewrite <- Hx; set_solver).
  by apply elem_of_empty in H.
Qed.

(** Clearing the references of a realisable component path leaves both of
    its rows empty and touches the row of no other path. *)
Lemma setReferences_clear (s : Store) (p : string) (revision : N) :
  isRealisablePath s p = inr true →
  ∃ s', setReferences s p ∅ ∅ revision = inr s'
    ∧ queryStrings (dbComponentComponentReferences s') p = []
    ∧ queryStrings (dbComponentStateReferences s') p = []
    ∧ (∀ q, q ≠ p →
         dbComponentComponentReferences s' !! q
           = dbComponentComponentReferences s !! q
         ∧ dbComponentStateReferences s' !! q
           = dbComponentStateReferences s !! q)
    ∧ referencesOnly s s'.
Proof.
  intros Hreal. unfold setReferences. rewrite size_empty. simpl.
  rewrite Hreal. simpl.
  destruct (bool_decide
              (list_to_set (queryStrings (dbComponentComponentReferences s) p)
               = (∅ : PathSet))) eqn:H1;
    destruct (bool_decide
                (list_to_set (queryStrings (dbComponentStateReferences s) p)
                 = (∅ : PathSet))) eqn:H2; simpl;
    eexists; (split; [reflexivity|]).
  1: { apply bool_decide_eq_true in H1, H2.
       apply list_to_set_empty_inv in H1, H2. by repeat split. }
  all: simpl; unfold queryStrings, setStrings; rewrite !lookup_insert_eq;
    rewrite Paths_of_empty; split; [done|]; split; [done|];
    split; [|by repeat split];
    intros q Hq; by rewrite !lookup_insert_ne.
Qed.

(** X18. Deleting a valid store path that has no substitute and that no
    other valid path refers to removes its validity row, leaves its two
    reference rows empty, removes its deriver row and what is on disk
    under it; the substitutes and the state tables are not touched. *)
Theorem deleteFromStore_without_substitutes (s : Store) (_path : string) :
  let path := canonPath _path in
  isStorePath path = true →
  isValidPathTxn s path = true →
  (∀ i, i ≠ path →
        path ∈ queryStrings (dbComponentComponentReferences s) i →
        isValidPathTxn s i = false) →
  readSubstitutes s path = inr [] →
  ∃ s', deleteFromStore s _path = inr s'
    ∧ isValidPathTxn s' path = false
    ∧ queryStrings (dbComponentComponentReferences s') path = []
    ∧ queryStrings (dbComponentStateReferences s') path = []
    ∧ dbDerivers s' !! path = None
    ∧ fs s' !! path = None
    ∧ dbSubstitutes s' = dbSubstitutes s
    ∧ dbValidStatePaths s' = dbValidStatePaths s
    ∧ ∀ q, q ≠ path →
        dbValidPaths s' !! q = dbValidPaths s !! q
        ∧ dbComponentComponentReferences s' !! q
          = dbComponentComponentReferences s !! q
        ∧ dbDerivers s' !! q = dbDerivers s !! q
        ∧ fs s' !! q = fs s !! q.
Proof.
  intros path Hsp Hv Hfree Hsubs.
  destruct (getReferrersTxn_valid s path UINT_MAX Hv) as (referrers & Hr & Hin).
  assert (Hreal : isRealisablePath s path = inr true)
    by (unfold isRealisablePath; by rewrite Hv).
  destruct (setReferences_clear s path UINT_MAX Hreal)
    as (s1 & Hs1 & Hcc & Hcs & Hother & Hframe).
  destruct Hframe as (Hv1 & Hvs1 & Hsub1 & Hd1 & _ & _ & _ & Hfs1).
  eexists. split.
  { unfold deleteFromStore, assertStorePath. fold path.
    rewrite Hsp. simpl. rewrite Hv, Hr. simpl.
    rewrite checkNotInUse_ok.
    2: { intros i Hi%elem_of_Paths_of%Hin Hne. by apply Hfree. }
    simpl. unfold invalidatePath, querySubstitutes. rewrite Hsubs. simpl.
    rewrite Hs1. simpl. reflexivity. }
  simpl. unfold delPair.
  split; [apply isValidPathTxn_false; simpl; apply lookup_delete_eq|].
  split; [done|]. split; [done|].
  split; [apply lookup_delete_eq|]. split; [apply lookup_delete_eq|].
  split; [done|]. split; [done|].
  intros q Hq. rewrite !lookup_delete_ne by done.
  rewrite Hv1, Hd1, Hfs1. destruct (Hother q Hq) as [-> _]. done.
Qed.

End Deletion2.

Lemma deleteFromStore_in_use_witness :
  ∃ j, deleteFromStore (Scenario.exportStore [Scenario.Q]) Scenario.Q
         = inl (PathInUse Scenario.Q j)
       ∧ j ≠ Scenario.Q
       ∧ isValidPathTxn (Scenario.exportStore [Scenario.Q]) j = true
       ∧ Scenario.Q
         ∈ queryStrings
             (dbComponentComponentReferences (Scenario.exportStore [Scenario.Q]))
             j.
Proof.
  refine (deleteFromStore_in_use (B := Sample.backend)
            (Scenario.exportStore [Scenario.Q]) Scenario.Q Scenario.P
            _ _ _ _ _).
  - vm_compute. reflexivity.
  - vm_compute. reflexivity.
  - discriminate.
  - vm_compute. reflexivity.
  - vm_compute. left.
Defined.

Lemma deleteFromStore_without_substitutes_witness :
  ∃ s', deleteFromStore (Scenario.exportStore [Scenario.Q]) Scenario.P = inr s'
    ∧ isValidPathTxn s' Scenario.P = false
    ∧ queryStrings (dbComponentComponentReferences s') Scenario.P = []
    ∧ queryStrings (dbComponentStateReferences s') Scenario.P = []
    ∧ dbDerivers s' !! Scenario.P = None
    ∧ fs s' !! Scenario.P = None
    ∧ dbSubstitutes s' = dbSubstitutes (Scenario.exportStore [Scenario.Q])
    ∧ dbValidStatePaths s'
      = dbValidStatePaths (Scenario.exportStore [Scenario.Q])
    ∧ ∀ q, q ≠ Scenario.P →
        dbValidPaths s' !! q
          = dbValidPaths (Scenario.exportStore [Scenario.Q]) !! q
        ∧ dbComponentComponentReferences s' !! q
          = dbComponentComponentReferences
              (Scenario.exportStore [Scenario.Q]) !! q
        ∧ dbDerivers s' !! q
          = dbDerivers (Scenario.exportStore [Scenario.Q]) !! q
        ∧ fs s' !! q = fs (Scenario.exportStore [Scenario.Q]) !! q.
Proof.
  refine (deleteFromStore_without_substitutes (B := Sample.backend)
            (Scenario.exportStore [Scenario.Q]) Scenario.P _ _ _ _).
  - vm_compute. reflexivity.
  - vm_compute. reflexivity.
  - intros i Hi Href.
    apply queryStrings_elem_is_Some in Href as Hrow.
    simpl in Hrow. apply lookup_singleton_is_Some in Hrow. by destruct Hi.
  - vm_compute. reflexivity.
Defined.

Section Clearing.
Context `{G : Globals} `{C : Codec} `{B : Backend} `{U : Util}.

Lemma clearSubstitutes_loop_spec (keys : list string) :
  ∀ s, (∀ k, k ∈ keys → isValidStatePathTxn s k = false) →
    match clearSubstitutes_loop s keys with
    | inr s' =>
        (∃ t', s' = set_dbSubstitutes t' s
               ∧ ∀ k, t' !! k = if decide (k ∈ keys) then None
                                else dbSubstitutes s !! k)
        ∧ ∀ k, k ∈ keys → isValidPathTxn s k = true
    | inl e =>
        ∃ k0, e = NotComponentOrStatePath k0 ∧ k0 ∈ keys
              ∧ isValidPathTxn s k0 = false
    end.
Proof.
  induction keys as [|i rest IH]; intros s Hstate; simpl.
  { split; [|by intros k ?%elem_of_nil].
    exists (dbSubstitutes s). split; [by destruct s|].
    done. }
  set (s1 := set_dbSubstitutes (delPair (dbSubstitutes s) i) s).
  assert (Hv1 : ∀ k, isValidPathTxn s1 k = isValidPathTxn s k) by done.
  assert (Hvs1 : ∀ k, isValidStatePathTxn s1 k = isValidStatePathTxn s k)
    by done.
  rewrite Hv1. destruct (isValidPathTxn s i) eqn:Hvi; simpl.
  - specialize (IH s1). destruct (clearSubstitutes_loop s1 rest) as [e|s'].
    + destruct IH as (k0 & -> & Hk0 & Hnv).
      { intros k Hk. rewrite Hvs1. apply Hstate. by right. }
      exists k0. split; [done|]. split; [by right | done].
    + destruct IH as ((t' & -> & Ht') & Hall).
      { intros k Hk. rewrite Hvs1. apply Hstate. by right. }
      split.
      * exists t'. split; [done|]. intros k. rewrite Ht'. simpl.
        unfold delPair. destruct (decide (k ∈ rest)) as [Hin|Hout].
        -- by rewrite decide_True by (by right).
        -- destruct (decide (k = i)) as [->|Hne].
           ++ rewrite lookup_delete_eq. by rewrite decide_True by (by left).
           ++ rewrite lookup_delete_ne by done.
              rewrite decide_False; [done|].
              by intros [?|?]%elem_of_cons.
      * intros k [->|Hk]%elem_of_cons; [done | by apply Hall].
  - unfold invalidatePath, querySubstitutes, readSubstitutes.
    assert (Hrow : queryStrings (dbSubstitutes s1) i = []).
    { unfold s1, queryStrings, delPair. simpl. by rewrite lookup_delete_eq. }
    rewrite Hrow. simpl.
    rewrite setReferences_unrealisable.
    + simpl. exists i. split; [done|]. split; [by left | done].
    + by rewrite Hv1.
    + rewrite Hvs1. apply Hstate. by left.
    + unfold readSubstitutes. by rewrite Hrow.
Qed.

(** X19. On a store in which no path with substitutes is a valid state
    path, [clearSubstitutes] succeeds exactly when every path with
    substitutes is valid, and then it empties the substitutes table and
    changes nothing else; otherwise it throws for a path with substitutes
    that is not valid, the exception that [setReferences] raises when
    [invalidatePath] tries to clear its references. *)
Theorem clearSubstitutes_needs_valid_paths (s : Store) :
  (∀ k, is_Some (dbSubstitutes s !! k) → isValidStatePathTxn s k = false) →
  match clearSubstitutes s with
  | inr s' =>
      s' = set_dbSubstitutes ∅ s
      ∧ ∀ k, is_Some (dbSubstitutes s !! k) → isValidPathTxn s k = true
  | inl e =>
      ∃ k0, e = NotComponentOrStatePath k0
            ∧ is_Some (dbSubstitutes s !! k0)
            ∧ isValidPathTxn s k0 = false
  end.
Proof.
  intros Hstate. unfold clearSubstitutes.
  assert (Hkeys : ∀ k, k ∈ enumTable (dbSubstitutes s)
                       ↔ is_Some (dbSubstitutes s !! k)).
  { intros k. unfold enumTable. by rewrite elem_of_Paths_of, elem_of_dom. }
  pose proof (clearSubstitutes_loop_spec (enumTable (dbSubstitutes s)) s)
    as Hloop.
  destruct (clearSubstitutes_loop s _) as [e|s'].
  - destruct Hloop as (k0 & -> & Hk0 & Hnv).
    { intros k Hk. by apply Hstate, Hkeys. }
    exists k0. split; [done|]. split; [by apply Hkeys | done].
  - destruct Hloop as ((t' & -> & Ht') & Hall).
    { intros k Hk. by apply Hstate, Hkeys. }
    split; [|intros k Hk; by apply Hall, Hkeys].
    f_equal. apply map_empty. intros k. rewrite Ht'.
    destruct (decide _) as [|Hout]; [done|].
    destruct (dbSubstitutes s !! k) eqn:Hk; [|done].
    exfalso. apply Hout, Hkeys. eauto.
Qed.

End Clearing.

Lemma clearSubstitutes_needs_valid_paths_witness :
  match clearSubstitutes Scenario.deletionStore with
  | inr s' =>
      s' = set_dbSubstitutes ∅ Scenario.deletionStore
      ∧ ∀ k, is_Some (dbSubstitutes Scenario.deletionStore !! k) →
             isValidPathTxn Scenario.deletionStore k = true
  | inl e =>
      ∃ k0, e = NotComponentOrStatePath k0
            ∧ is_Some (dbSubstitutes Scenario.deletionStore !! k0)
            ∧ isValidPathTxn Scenario.deletionStore k0 = false
  end.
Proof.
  apply (clearSubstitutes_needs_valid_paths (B := Sample.backend)
           Scenario.deletionStore).
  intros k _. unfold isValidStatePathTxn, queryString. simpl.
  by rewrite lookup_empty.
Defined.

Section Ingestion.
Context `{G : Globals} `{C : Codec} `{B : Backend} `{U : Util}.

Lemma setHash_inr (s s1 : Store) (p : string) (h : Hash) :
  setHash s p h = inr s1 →
  (∀ j, isValidPathTxn s1 j = true ↔ j = p ∨ isValidPathTxn s j = true)
  ∧ fs s1 = fs s.
Proof.
  unfold setHash. destruct (hash_type h); try done. intros [= <-].
  split; [|done]. intros j. apply isValidPathTxn_setString.
Qed.

Lemma registerValidPath_store_path (s s' : Store) (p : string) (h : Hash)
  (references stateReferences : PathSet) (revision : N) :
  isStorePath p = true →
  registerValidPath s p h references stateReferences "" revision = inr s' →
  ∃ s1, setHash s p h = inr s1
    ∧ setReferences s1 p references stateReferences revision = inr s'
    ∧ ∀ j, j ∈ references → isValidPathTxn s' j = true ∨ j = p.
Proof.
  intros Hsp. unfold registerValidPath, registerValidPaths. simpl.
  unfold assertStorePath. rewrite Hsp. simpl.
  intros (s1 & Hs1 & (s2 & Hs2 & (u & Hchk & Hrest)%bind_inr)%bind_inr)%bind_inr.
  unfold setDeriver, assertStorePath in Hrest. rewrite Hsp in Hrest.
  simpl in Hrest. injection Hrest as <-.
  exists s1. split; [done|]. split; [done|].
  intros j Hj.
  pose proof (checkReferencesValid_spec s2 ({[ p ]} ∪ ∅) p
                (Paths_of references)) as Hc.
  rewrite Hchk in Hc. destruct (Hc j) as [?|Hin]; [by apply elem_of_Paths_of| |].
  - by left.
  - right. set_solver.
Qed.

(** X20. When the store root starts with a slash and printed digests
    hold no slash: a successful [addTextToStore] returns the store path
    that [computeStorePathForText] computes, and the path is valid
    afterwards; a second call with the same arguments returns the same
    path and changes nothing.  If the path was already valid the store is
    returned as it is; otherwise the file with the given contents is on
    disk under the path, the given references are what
    [queryXReferencesTxn] reads for it, and each of them is the path
    itself or was valid before. *)
Theorem addTextToStore_registers (s s' : Store) (suffix str : string)
  (references : PathSet) (p : string) :
  String.get 0 nixStore = Some "/"%char →
  (∀ h, find_char_from "/" 0 (printHash32 h) = None) →
  addTextToStore s suffix str references = inr (p, s') →
  computeStorePathForText suffix str references = inr p
  ∧ isStorePath p = true
  ∧ isValidPathTxn s' p = true
  ∧ addTextToStore s' suffix str references = inr (p, s')
  ∧ (isValidPathTxn s p = true → s' = s)
  ∧ (isValidPathTxn s p = false →
       fs s' !! p = Some (writeStringToFile str)
       ∧ (∀ acc r ts, queryXReferencesTxn s' p acc true r ts
                      = inr (acc ∪ references))
       ∧ ∀ j, j ∈ references → j = p ∨ isValidPathTxn s j = true).
Proof.
  intros H0 Hdigest. unfold addTextToStore.
  destruct (computeStorePathForText suffix str references) as [e|dst] eqn:Hdst;
    simpl; [done|].
  assert (Hsp : isStorePath dst = true)
    by (by eapply makeStorePath_isStorePath).
  destruct (isValidPathTxn s dst) eqn:Hv; simpl.
  { intros [= <- <-]. rewrite Hv. simpl. by repeat split. }
  set (s1 := if pathExists s dst then deletePath s dst else s).
  set (s2 := set_fs (<[dst := writeStringToFile str]> (fs s1)) s1).
  assert (Hv2 : ∀ j, isValidPathTxn s2 j = isValidPathTxn s j).
  { intros j. unfold s2, s1. by destruct (pathExists s dst). }
  unfold dumpPath. simpl. rewrite lookup_insert_eq. simpl.
  destruct (registerValidPath s2 dst _ references ∅ "" 0) as [e|s3] eqn:Hreg;
    simpl; [done|].
  intros [= <- <-].
  destruct (registerValidPath_store_path _ _ _ _ _ _ _ Hsp Hreg)
    as (sh & Hsh & Hrefs & Hclosed).
  assert (Hvh : ∀ j, isValidPathTxn sh j = true
                     ↔ j = dst ∨ isValidPathTxn s j = true).
  { intros j. rewrite (proj1 (setHash_inr _ _ _ _ Hsh) j). by rewrite Hv2. }
  assert (Hrealh : isRealisablePath sh dst = inr true).
  { unfold isRealisablePath. rewrite (proj2 (Hvh dst)); [done | by left]. }
  destruct (setReferences_frame _ _ _ _ _ _ Hrefs)
    as (Hv3 & _ & _ & _ & _ & _ & _ & Hfs3).
  assert (Hvalid3 : ∀ j, isValidPathTxn s3 j = true
                         ↔ j = dst ∨ isValidPathTxn s j = true).
  { intros j. rewrite (isValidPathTxn_ext sh s3 j Hv3). apply Hvh. }
  assert (Hdst3 : isValidPathTxn s3 dst = true) by (apply Hvalid3; by left).
  split; [done|]. split; [done|]. split; [done|].
  split; [rewrite Hdst3; simpl; done|].
  split; [intros ?; congruence|]. intros _.
  split; [|split].
  - rewrite Hfs3, (proj2 (setHash_inr _ _ _ _ Hsh)).
    simpl. apply lookup_insert_eq.
  - destruct (setReferences_queryXReferencesTxn _ _ _ _ _ _ Hrealh Hrefs)
      as [Hq _]. exact Hq.
  - intros j Hj. destruct (Hclosed j Hj) as [Hvj | ->]; [|by left].
    by apply Hvalid3.
Qed.

End Ingestion.

Lemma addTextToStore_registers_witness :
  computeStorePathForText (G := SlashFree.globals) "notes.txt" "see lib"
    {[ Scenario.Q ]} = inr Cases.textAdded.1
  ∧ isStorePath (G := SlashFree.globals) Cases.textAdded.1 = true
  ∧ isValidPathTxn Cases.textAdded.2 Cases.textAdded.1 = true
  ∧ addTextToStore (G := SlashFree.globals) Cases.textAdded.2
      "notes.txt" "see lib" {[ Scenario.Q ]}
    = inr (Cases.textAdded.1, Cases.textAdded.2)
  ∧ fs Cases.textAdded.2 !! Cases.textAdded.1 = Some (FsOther "see lib").
Proof.
  destruct (addTextToStore_registers (G := SlashFree.globals)
              (B := Sample.backend) (U := SampleUtil.util)
              (Scenario.exportStore []) Cases.textAdded.2
              "notes.txt" "see lib" {[ Scenario.Q ]} Cases.textAdded.1
              eq_refl (λ h, slashFree_no_slash (hash_bytes h)))
    as (H1 & H2 & H3 & H4 & _ & H6).
  - vm_compute. reflexivity.
  - split; [exact H1|]. split; [exact H2|]. split; [exact H3|].
    split; [exact H4|]. apply H6. vm_compute. reflexivity.
Defined.

Section Import2.
Context `{G : Globals} `{C : Codec} `{B : Backend} `{U : Util}.

(** X21. An archive that [exportPath] writes without a signature is
    refused by [importPath] whenever a signature is required, in any
    store: when the exported references and deriver are store paths, so
    that the readers accept them, the import ends in the "lacks a
    signature" exception. *)
Theorem importPath_lacks_signature (s : Store) (P : string)
  (stream : list StreamItem) (refs : PathSet) (deriver : string)
  (s2 : Store) :
  exportPath s P false = inr stream →
  queryXReferencesTxn s P ∅ true 0 defaultTimestamp = inr refs →
  queryDeriver s P = inr deriver →
  (∀ r, r ∈ refs → isStorePath r = true) →
  deriver = "" ∨ isStorePath deriver = true →
  importPath s2 true stream = inl LacksSignature.
Proof.
  intros Hexp Hrefs Hder Hstore Hdok.
  destruct (exportPath_inr _ _ _ _ Hexp)
    as (obj & refs' & deriver' & Hsp & _ & _ & Hrefs' & Hder' & Hstream).
  assert (refs' = refs) as -> by congruence.
  assert (deriver' = deriver) as -> by congruence.
  simpl in Hstream. subst stream.
  unfold importPath. simpl. unfold readStorePath, assertStorePath. simpl.
  rewrite Hsp. simpl.
  rewrite assertStorePaths_ok
    by (intros r Hr%elem_of_Paths_of; by apply Hstore).
  simpl.
  assert (Hda : (if negb (String.eqb deriver "")
                 then (if negb (isStorePath deriver)
                       then throw (NotInStore deriver) else mret tt)
                 else mret tt) = inr tt).
  { destruct Hdok as [->|Hd]; [done|].
    rewrite Hd. by destruct (negb _). }
  rewrite Hda. reflexivity.
Qed.

(** X22. When [importPath] succeeds, the path it returns is a store path
    and is valid in the store it returns; if it was valid already the
    store is returned unchanged, and so importing the same archive a
    second time returns the same path and changes nothing. *)
Theorem importPath_valid_after (s s' : Store) (requireSignature : bool)
  (source : list StreamItem) (p : string) :
  importPath s requireSignature source = inr (p, s') →
  isStorePath p = true
  ∧ isValidPathTxn s' p = true
  ∧ (isValidPathTxn s p = true → s' = s)
  ∧ importPath s' requireSignature source = inr (p, s').
Proof.
  unfold importPath.
  destruct (restorePath source) as [e|[unpacked src1]]; simpl; [done|].
  destruct (readInt src1) as [e|[magic src2]]; simpl; [done|].
  destruct (negb (magic =? EXPORT_MAGIC)%N); [done|].
  destruct (readStorePath src2) as [e|[dstPath src3]] eqn:Hdst; simpl; [done|].
  assert (Hsp : isStorePath dstPath = true).
  { revert Hdst. unfold readStorePath, assertStorePath.
    destruct (readString src2) as [e|[x y]]; simpl; [done|].
    destruct (isStorePath x) eqn:Hx; simpl; [|done]. by intros [= <- _]. }
  destruct (readStorePaths src3) as [e|[references src4]]; simpl; [done|].
  destruct (readString src4) as [e|[deriver src5]]; simpl; [done|].
  destruct (if negb (String.eqb deriver "") then assertStorePath deriver
            else mret tt) as [e|[]]; simpl; [done|].
  destruct (readInt src5) as [e|[n src6]]; simpl; [done|].
  destruct (requireSignature && negb (n =? 1)%N); [done|].
  match goal with
  | |- context [?m ≫= (λ _ : (), if negb (isValidPathTxn s dstPath)
                                  then _ else _)] =>
      destruct m as [e|[]]; simpl; [done|]
  end.
  destruct (isValidPathTxn s dstPath) eqn:Hv; simpl.
  - intros [= <- <-]. rewrite Hv. simpl. done.
  - destruct (registerValidPath _ dstPath _ references ∅ _ 0) as [e|s3]
      eqn:Hreg; simpl; [done|].
    intros [= <- <-].
    assert (Hv3 : isValidPathTxn s3 dstPath = true).
    { unfold registerValidPath in Hreg.
      apply registerValidPaths_registers in Hreg as (Hin & _).
      specialize (Hin _ (list_elem_of_here _ _)). simpl in Hin.
      by rewrite Hsp in Hin. }
    rewrite Hv3. simpl. split; [done|]. split; [done|].
    split; [intros ?; congruence | done].
Qed.

End Import2.

Lemma importPath_lacks_signature_witness :
  importPath emptyStore true (Scenario.exported [] false) = inl LacksSignature.
Proof.
  apply (importPath_lacks_signature (B := Sample.backend)
           (Scenario.exportStore []) Scenario.P (Scenario.exported [] false)
           ∅ Scenario.D emptyStore).
  - vm_compute. reflexivity.
  - vm_compute. reflexivity.
  - vm_compute. reflexivity.
  - intros r Hr. by apply elem_of_empty in Hr.
  - right. vm_compute. reflexivity.
Defined.

Lemma importPath_valid_after_witness :
  isStorePath Scenario.P = true
  ∧ isValidPathTxn (Scenario.imported [Scenario.P] true false) Scenario.P = true
  ∧ (isValidPathTxn emptyStore Scenario.P = true →
     Scenario.imported [Scenario.P] true false = emptyStore)
  ∧ importPath (Scenario.imported [Scenario.P] true false) false
      (Scenario.exported [Scenario.P] true)
    = inr (Scenario.P, Scenario.imported [Scenario.P] true false).
Proof.
  apply (importPath_valid_after (B := Sample.backend) emptyStore
           (Scenario.imported [Scenario.P] true false) false
           (Scenario.exported [Scenario.P] true) Scenario.P).
  vm_compute. reflexivity.
Defined.

Section Derivers3.
Context `{G : Globals} `{C : Codec} `{B : Backend} `{U : Util}.

Lemma queryDerivers_loop_recipes (s : Store)
  (storePath identifier user : string) (alldata : list string)
  (acc res : PathSet) :
  queryDerivers_loop s storePath identifier user alldata acc = inr res →
  acc ⊆ res
  ∧ (∀ d, d ∈ res → d ∈ acc ∨ d ∈ alldata)
  ∧ (∀ d, d ∈ alldata →
       ∃ drv so, fs s !! d = Some (FsRecipe drv)
                 ∧ size (outputs drv) = 1%nat
                 ∧ stateOutputs drv !! "state" = Some so
                 ∧ ((String.eqb (stateIdentifier so) identifier
                     || String.eqb identifier "*")
                    && (String.eqb (username so) user || String.eqb user "*")
                    = true → d ∈ res)).
Proof.
  revert acc. induction alldata as [|d rest IH]; intros acc; simpl.
  { intros [= <-]. split; [done|]. split; [by left|].
    by intros d ?%elem_of_nil. }
  destruct (derivationFromPathTxn s d) as [e|drv] eqn:Hdrv; simpl; [done|].
  apply derivationFromPathTxn_inr in Hdrv.
  destruct (Nat.eqb_spec (size (outputs drv)) 1) as [Hout|Hout]; simpl;
    [|done].
  destruct (find_second (stateOutputs drv) "state") as [e|so] eqn:Hso; simpl;
    [done|].
  apply find_second_inr in Hso.
  intros Hrest. destruct (IH _ Hrest) as (Hsub & Hfrom & Hall).
  split; [|split].
  - etrans; [|exact Hsub]. destruct (_ && _); set_solver.
  - intros x Hx. destruct (Hfrom x Hx) as [Hacc|?]; [|right; by right].
    destruct (_ && _); [|by left].
    apply elem_of_union in Hacc as [->%elem_of_singleton|?];
      [right; by left | by left].
  - intros x [->|Hx]%elem_of_cons; [|by apply Hall].
    exists drv, so. split; [done|]. split; [done|]. split; [done|].
    intros Hmatch. apply Hsub. rewrite Hmatch. set_solver.
Qed.

(** X28. When [queryDerivers] returns, every deriver recorded for the
    path is a recipe on disk with exactly one output and a state output.
    Without wildcards the result holds exactly the recorded derivers that
    declare the given identifier and user; with "*" for both it holds
    all recorded derivers. *)
Theorem queryDerivers_exact (s : Store) (storePath identifier user : string)
  (res : PathSet) :
  queryDerivers s storePath identifier user = inr res →
  let recorded := queryStrings (dbDerivers s) storePath in
  (∀ d, d ∈ recorded →
     ∃ drv so, fs s !! d = Some (FsRecipe drv)
               ∧ size (outputs drv) = 1%nat
               ∧ stateOutputs drv !! "state" = Some so)
  ∧ (identifier ≠ "*" → user ≠ "*" →
     ∀ d, d ∈ res ↔ d ∈ recorded ∧ declares s d identifier user)
  ∧ (identifier = "*" → user = "*" → ∀ d, d ∈ res ↔ d ∈ recorded).
Proof.
  intros (_ & _ & Hloop)%queryDerivers_inr recorded.
  destruct (queryDerivers_loop_recipes _ _ _ _ _ _ _ Hloop)
    as (_ & Hfrom & Hall).
  split; [|split].
  - intros d Hd. destruct (Hall d Hd) as (drv & so & ? & ? & ? & _). eauto.
  - intros Hid Huser d.
    rewrite (queryDerivers_loop_inr _ _ _ _ _ _ _ Hid Huser Hloop d).
    split; [intros [?%elem_of_empty|?]; done | by right].
  - intros -> -> d. split.
    + intros Hd. by destruct (Hfrom d Hd) as [?%elem_of_empty|?].
    + intros Hd. destruct (Hall d Hd) as (drv & so & _ & _ & _ & Hin).
      apply Hin. by rewrite !orb_true_r.
Qed.

End Derivers3.

Lemma queryDerivers_exact_witness :
  (∀ d, d ∈ queryStrings (dbDerivers (Scenario.afterSecond "default" "u"))
              Scenario.P →
     ∃ drv so, fs (Scenario.afterSecond "default" "u") !! d
                 = Some (FsRecipe drv)
               ∧ size (outputs drv) = 1%nat
               ∧ stateOutputs drv !! "state" = Some so)
  ∧ (∀ d, d ∈ ({[ Scenario.D' ]} : PathSet)
          ↔ d ∈ queryStrings (dbDerivers (Scenario.afterSecond "default" "u"))
                  Scenario.P
            ∧ declares (Scenario.afterSecond "default" "u") d "default" "u").
Proof.
  destruct (queryDerivers_exact (Scenario.afterSecond "default" "u")
              Scenario.P "default" "u" {[ Scenario.D' ]})
    as (Hall & Hexact & _).
  - vm_compute. reflexivity.
  - split; [exact Hall|]. apply Hexact; discriminate.
Defined.

Section Referrers2.
Context `{G : Globals} `{C : Codec} `{B : Backend} `{U : Util}.

(** X29. The referrer queries have no answer for a path that is not
    valid, as component or as state: without substitutes they throw "is
    not valid", and with substitutes, where the realisability test lets
    the path through, the scan throws "is not a valid component or state
    path". *)
Theorem queryReferrers_of_invalid_path (s : Store) (p : string)
  (acc : PathSet) (r : N) (subs : list Substitute) :
  isValidPathTxn s p = false →
  isValidStatePathTxn s p = false →
  readSubstitutes s p = inr subs →
  let e := match subs with
           | [] => PathNotValid p
           | _ => NotComponentOrStatePath p
           end in
  queryReferrersTxn s p acc r = inl e
  ∧ queryStateReferrersTxn s p acc r = inl e.
Proof.
  intros Hv Hvs Hsubs e.
  unfold queryReferrersTxn, queryStateReferrersTxn,
    isRealisableComponentOrStatePath, isValidComponentOrStatePathTxn,
    getReferrersTxn, getStateReferrersTxn, getXReferrers.
  rewrite Hv, Hvs, Hsubs. simpl. unfold e. by destruct subs.
Qed.

End Referrers2.

Lemma queryReferrers_of_invalid_path_witness :
  queryReferrersTxn Scenario.substituteStore Scenario.P ∅ 0
    = inl (NotComponentOrStatePath Scenario.P)
  ∧ queryStateReferrersTxn Scenario.substituteStore Scenario.P ∅ 0
    = inl (NotComponentOrStatePath Scenario.P).
Proof.
  apply (queryReferrers_of_invalid_path (B := Sample.backend)
           Scenario.substituteStore Scenario.P ∅ 0
           [Scenario.sub1; Scenario.sub2]);
    vm_compute; reflexivity.
Defined.

Section Verifier2.
Context `{G : Globals} `{C : Codec} `{B : Backend} `{U : Util}.

Lemma invalidatePath_inr (s s' : Store) (p : string) :
  invalidatePath s p = inr s' →
  dbValidPaths s' = delete p (dbValidPaths s) ∧ fs s' = fs s.
Proof.
  unfold invalidatePath.
  destruct (querySubstitutes s p) as [e|subs]; simpl; [done|].
  destruct (List.length subs =? 0)%nat; simpl.
  - destruct (setReferences s p ∅ ∅ UINT_MAX) as [e|s1] eqn:Hs1; simpl; [done|].
    destruct (setReferences_frame _ _ _ _ _ _ Hs1)
      as (Hv & _ & _ & _ & _ & _ & _ & Hfs).
    intros [= <-]. simpl. unfold delPair. by rewrite Hv, Hfs.
  - by intros [= <-].
Qed.

Lemma isValidPathTxn_delete (s s' : Store) (p j : string) :
  dbValidPaths s' = delete p (dbValidPaths s) →
  isValidPathTxn s' j = true ↔ isValidPathTxn s j = true ∧ j ≠ p.
Proof.
  intros Hv. rewrite !isValidPathTxn_true, Hv.
  destruct (decide (j = p)) as [->|Hne].
  - rewrite lookup_delete_eq. split; [by intros [? ?] | by intros [_ ?]].
  - rewrite lookup_delete_ne by done. naive_solver.
Qed.

Lemma pathExists_ext (s s' : Store) (p : string) :
  fs s' = fs s → pathExists s' p = pathExists s p.
Proof. unfold pathExists. by intros ->. Qed.

Lemma verify_validPaths_spec (checkContents : bool) (paths : list string) :
  ∀ s validPaths log s' validPaths' log',
    verify_validPaths checkContents paths s validPaths log
      = inr (s', validPaths', log') →
    fs s' = fs s
    ∧ ∀ p, isValidPathTxn s' p = true
           ↔ isValidPathTxn s p = true
             ∧ (p ∈ paths → pathExists s p = true ∧ isStorePath p = true).
Proof.
  induction paths as [|i rest IH]; intros s vp log s' vp' log'; simpl.
  { intros [= <- _ _]. split; [done|]. intros p. split; [|tauto].
    intros Hp. split; [done|]. by intros ?%elem_of_nil. }
  assert (Hdrop : ∀ s1, invalidatePath s i = inr s1 →
            pathExists s i = false ∨ isStorePath i = false →
            verify_validPaths checkContents rest s1 vp
              (log ++ [if negb (pathExists s i) then LogDisappeared i
                       else LogNotInStore i])%list = inr (s', vp', log') →
            fs s' = fs s
            ∧ ∀ p, isValidPathTxn s' p = true
                   ↔ isValidPathTxn s p = true
                     ∧ (p ∈ i :: rest →
                        pathExists s p = true ∧ isStorePath p = true)).
  { intros s1 [Hv1 Hfs1]%invalidatePath_inr Hbad Hrest.
    destruct (IH _ _ _ _ _ _ Hrest) as (Hfs' & Hv').
    split; [congruence|]. intros p. rewrite Hv'.
    rewrite (isValidPathTxn_delete s s1 i p Hv1).
    rewrite (pathExists_ext s s1 p Hfs1).
    split.
    - intros [[Hp Hne] Hin]. split; [done|].
      intros [->|Hp']%elem_of_cons; [done | by apply Hin].
    - intros [Hp Hin]. assert (Hne : p ≠ i).
      { intros ->. destruct (Hin (list_elem_of_here _ _)) as [He Hs].
        destruct Hbad; congruence. }
      split; [done|]. intros Hp'. apply Hin. by right. }
  destruct (pathExists s i) eqn:Hex; simpl.
  2: { destruct (invalidatePath s i) as [e|s1] eqn:Hinv; simpl; [done|].
       intros Hrest. apply (Hdrop s1); [done | by left | done]. }
  destruct (isStorePath i) eqn:Hsp; simpl.
  2: { destruct (invalidatePath s i) as [e|s1] eqn:Hinv; simpl; [done|].
       intros Hrest. apply (Hdrop s1); [done | by right | done]. }
  destruct (_ : Result (list VerifyLog)) as [e|log1]; simpl; [done|].
  intros Hrest. destruct (IH _ _ _ _ _ _ Hrest) as (Hfs' & Hv').
  split; [done|]. intros p. rewrite Hv'. split.
  - intros [Hp Hin]. split; [done|].
    intros [->|Hp']%elem_of_cons; [done | by apply Hin].
  - intros [Hp Hin]. split; [done|]. intros Hp'. apply Hin. by right.
Qed.

Lemma verify_substitutes_frame (subKeys : list string) :
  ∀ s realisablePaths log s' realisablePaths' log',
    verify_substitutes subKeys s realisablePaths log
      = inr (s', realisablePaths', log') →
    dbValidPaths s' = dbValidPaths s ∧ fs s' = fs s.
Proof.
  induction subKeys as [|i rest IH]; intros s rp log s' rp' log'; simpl.
  { by intros [= <- _ _]. }
  destruct (readSubstitutes s i) as [e|subs]; simpl; [done|].
  repeat case_match; intros Hrest;
    by destruct (IH _ _ _ _ _ _ Hrest) as [-> ->].
Qed.

Lemma verify_derivers_frame (realisablePaths : PathSet)
  (deriversKeys : list string) :
  ∀ s log s' log',
    verify_derivers realisablePaths deriversKeys s log = inr (s', log') →
    dbValidPaths s' = dbValidPaths s ∧ fs s' = fs s.
Proof.
  induction deriversKeys as [|i rest IH]; intros s log s' log'; simpl.
  { by intros [= <- _]. }
  destruct (negb _).
  - intros Hrest. by destruct (IH _ _ _ _ Hrest) as [-> ->].
  - destruct (queryDeriver s i) as [e|deriver]; simpl; [done|].
    destruct (negb _); intros Hrest;
      by destruct (IH _ _ _ _ Hrest) as [-> ->].
Qed.

Lemma verify_references_frame (validPaths realisablePaths : PathSet)
  (referencesKeys : list string) :
  ∀ s log s' log',
    verify_references validPaths realisablePaths referencesKeys s log
      = inr (s', log') →
    dbValidPaths s' = dbValidPaths s ∧ fs s' = fs s.
Proof.
  induction referencesKeys as [|i rest IH]; intros s log s' log'; simpl.
  { by intros [= <- _]. }
  destruct (negb _).
  - destruct (setReferences s i ∅ ∅ 0) as [e|s1] eqn:Hs1; simpl; [done|].
    destruct (setReferences_frame _ _ _ _ _ _ Hs1)
      as (Hv & _ & _ & _ & _ & _ & _ & Hfs).
    intros Hrest. destruct (IH _ _ _ _ Hrest) as [-> ->]. done.
  - destruct (queryXReferencesTxn s i ∅ true UINT_MAX defaultTimestamp)
      as [e|refs]; simpl; [done|].
    intros Hrest. by destruct (IH _ _ _ _ Hrest) as [-> ->].
Qed.

(** X23. When [verifyStore] returns, it has not touched the file system,
    and the valid paths of the store it returns are exactly the paths
    that were valid before, are on disk and are store paths. *)
Theorem verifyStore_valid_paths (s s' : Store) (checkContents : bool)
  (log : list VerifyLog) :
  verifyStore s checkContents = inr (s', log) →
  fs s' = fs s
  ∧ ∀ p, isValidPathTxn s' p = true
         ↔ isValidPathTxn s p = true ∧ pathExists s p = true
           ∧ isStorePath p = true.
Proof.
  unfold verifyStore.
  destruct (verify_validPaths _ _ s ∅ []) as [e|[[s1 vp] log1]] eqn:H1;
    simpl; [done|].
  destruct (verify_substitutes _ s1 vp log1) as [e|[[s2 rp] log2]] eqn:H2;
    simpl; [done|].
  destruct (verify_derivers rp _ s2 log2) as [e|[s3 log3]] eqn:H3;
    simpl; [done|].
  intros H4.
  destruct (verify_validPaths_spec _ _ _ _ _ _ _ _ H1) as (Hfs1 & Hv1).
  destruct (verify_substitutes_frame _ _ _ _ _ _ _ H2) as (Hv2 & Hfs2).
  destruct (verify_derivers_frame _ _ _ _ _ _ H3) as (Hv3 & Hfs3).
  destruct (verify_references_frame _ _ _ _ _ _ _ H4) as (Hv4 & Hfs4).
  split; [congruence|]. intros p.
  rewrite (isValidPathTxn_ext s3 s' p Hv4), (isValidPathTxn_ext s2 s3 p Hv3),
    (isValidPathTxn_ext s1 s2 p Hv2), Hv1.
  split; [|tauto]. intros [Hp Hin]. split; [done|]. apply Hin.
  unfold enumTable. apply elem_of_Paths_of, elem_of_dom.
  by apply isValidPathTxn_true.
Qed.

End Verifier2.

Lemma verifyStore_valid_paths_witness :
  fs Cases.verified.1 = fs Cases.damagedStore
  ∧ ∀ p, isValidPathTxn Cases.verified.1 p = true
         ↔ isValidPathTxn Cases.damagedStore p = true
           ∧ pathExists Cases.damagedStore p = true
           ∧ isStorePath p = true.
Proof.
  apply (verifyStore_valid_paths (B := Sample.backend) Cases.damagedStore
           Cases.verified.1 false Cases.verified.2).
  vm_compute. reflexivity.
Defined.

Section Intervals2.
Context `{C : Codec} `{U : Util}.

Lemma setStatePathsInterval_loop_false (intervals : list Z)
  (paths : list string) :
  ∀ table n,
    (n + List.length paths ≤ List.length intervals)%nat →
    NoDup paths →
    ∃ table', setStatePathsInterval_loop intervals false table paths n
              = inr table'
      ∧ (∀ k i, paths !! k = Some i →
           ∃ v, intervals !! (n + k)%nat = Some v
                ∧ table' !! i = Some (VString (int2String v)))
      ∧ ∀ i, i ∉ paths → table' !! i = table !! i.
Proof.
  induction paths as [|i rest IH]; intros table n Hlen Hnd; simpl.
  { exists table. split; [done|]. split; [by intros k i ?|done]. }
  apply NoDup_cons in Hnd as [Hi Hnd]. simpl in Hlen.
  destruct (intervals !! n) as [v|] eqn:Hv.
  2: { apply lookup_ge_None in Hv. lia. }
  destruct (IH (setString table i (int2String v)) (S n)) as (t' & Ht' & Hin & Hout);
    [lia|done|].
  exists t'. split; [done|]. split.
  - intros [|k] j; simpl.
    + intros [= <-]. exists v. rewrite Nat.add_0_r. split; [done|].
      rewrite Hout by done. apply lookup_insert_eq.
    + intros Hk. destruct (Hin k j Hk) as (w & Hw & Hrow).
      exists w. split; [|done]. by replace (n + S k)%nat with (S n + k)%nat by lia.
  - intros j [Hji Hj]%not_elem_of_cons. rewrite Hout by done.
    by apply lookup_insert_ne.
Qed.

Lemma setStatePathsInterval_loop_true (intervals : list Z)
  (paths : list string) :
  ∀ table n,
    ∃ table', setStatePathsInterval_loop intervals true table paths n
              = inr table'
      ∧ (∀ i, i ∈ paths → table' !! i = Some (VString (int2String 0)))
      ∧ ∀ i, i ∉ paths → table' !! i = table !! i.
Proof.
  induction paths as [|i rest IH]; intros table n; simpl.
  { exists table. split; [done|]. split; [by intros i ?%elem_of_nil|done]. }
  destruct (IH (setString table i (int2String 0)) (S n)) as (t' & Ht' & Hin & Hout).
  exists t'. split; [done|]. split.
  - intros j Hj. destruct (decide (j ∈ rest)) as [Hr|Hr]; [by apply Hin|].
    apply elem_of_cons in Hj as [->|?]; [|done].
    rewrite Hout by done. apply lookup_insert_eq.
  - intros j [Hji Hj]%not_elem_of_cons. rewrite Hout by done.
    by apply lookup_insert_ne.
Qed.

Lemma getStatePathsInterval_loop_rows (table : gmap string Value)
  (paths : list string) (values : list Z) :
  Forall2 (λ i v, table !! i = Some (VString (int2String v))) paths values →
  Forall (λ v, string2Int (int2String v) = Some v) values →
  ∀ data acc,
    getStatePathsInterval_loop table paths data acc = inr (acc ++ values)%list.
Proof.
  induction 1 as [|i v paths values Hrow _ IH]; intros Hcodec data acc; simpl.
  { by rewrite app_nil_r. }
  apply Forall_cons in Hcodec as [Hv Hcodec].
  unfold queryString. rewrite Hrow. simpl. rewrite Hv.
  rewrite IH by done. by rewrite <- app_assoc.
Qed.

(** X24. [setStatePathsIntervalTxn] throws only its own exception, and
    exactly when the intervals are to be taken and their number differs
    from the number of state paths: [intervals.at(n)] is never out of
    range.  What it has stored [getStatePathsIntervalTxn] reads back for
    the same set of paths: the given intervals, or a zero for every path
    when [allZero] is set, provided [string2Int] reads what [int2String]
    prints for these numbers. *)
Theorem setStatePathsInterval_round_trip (table : gmap string Value)
  (statePaths : PathSet) (intervals : list Z) (allZero : bool) :
  Forall (λ v, string2Int (int2String v) = Some v) (0%Z :: intervals) →
  match setStatePathsIntervalTxn table statePaths intervals allZero with
  | inl e =>
      e = SizesDiffer ∧ allZero = false
      ∧ size statePaths ≠ List.length intervals
  | inr table' =>
      getStatePathsIntervalTxn table' statePaths
      = inr (if allZero then replicate (size statePaths) 0%Z else intervals)
      ∧ ∀ i, i ∉ statePaths → table' !! i = table !! i
  end.
Proof.
  intros [H0 Hcodec]%Forall_cons. unfold setStatePathsIntervalTxn.
  assert (Hsize : List.length (Paths_of statePaths) = size statePaths).
  { unfold Paths_of. by rewrite merge_sort_Permutation. }
  destruct allZero; simpl.
  - destruct (setStatePathsInterval_loop_true intervals (Paths_of statePaths)
                table 0) as (t' & -> & Hin & Hout).
    split; [|intros i Hi; apply Hout; by rewrite elem_of_Paths_of].
    unfold getStatePathsIntervalTxn.
    rewrite (getStatePathsInterval_loop_rows t' _
               (replicate (size statePaths) 0%Z)); [done| |].
    + rewrite <- Hsize. clear Hsize Hout.
      induction (Paths_of statePaths) as [|i l IH]; simpl; [constructor|].
      constructor; [apply Hin; by left|].
      apply IH. intros j Hj. apply Hin. by right.
    + by apply Forall_replicate.
  - destruct (Nat.eqb_spec (size statePaths) (List.length intervals))
      as [Heq|Hne]; simpl; [|done].
    destruct (setStatePathsInterval_loop_false intervals
                (Paths_of statePaths) table 0) as (t' & -> & Hin & Hout);
      [simpl; lia | apply NoDup_Paths_of|].
    split; [|intros i Hi; apply Hout; by rewrite elem_of_Paths_of].
    unfold getStatePathsIntervalTxn.
    rewrite (getStatePathsInterval_loop_rows t' _ intervals); [done| |done].
    apply Forall2_same_length_lookup. split; [lia|].
    intros k i v Hi Hv. destruct (Hin k i Hi) as (w & Hw & Hrow).
    simpl in Hw. congruence.
Qed.

Lemma Paths_of_pair (a b : string) :
  String.ltb a b = true → Paths_of {[ a; b ]} = [a; b].
Proof.
  intros Hab. unfold String.ltb in Hab.
  assert (Hne : a ≠ b).
  { intros ->. destruct (String.compare b b) eqn:Hc; try done.
    pose proof (String.compare_antisym b b) as Hanti.
    rewrite Hc in Hanti. done. }
  assert (Hnle : ¬ path_le b a).
  { unfold path_le, String.leb. rewrite String.compare_antisym.
    by destruct (String.compare a b). }
  assert (Htotal : Total path_le) by (intros x y; apply String.leb_total).
  pose proof (Sorted_merge_sort path_le (elements ({[ a; b ]} : PathSet)))
    as Hsorted.
  assert (Hperm : Paths_of {[ a; b ]} ≡ₚ [a; b]).
  { unfold Paths_of. rewrite merge_sort_Permutation.
    rewrite elements_disj_union by set_solver.
    by rewrite !elements_singleton. }
  fold (Paths_of {[ a; b ]}) in Hsorted.
  symmetry in Hperm.
  apply Permutation.Permutation_length_2_inv in Hperm as [->| Hba]; [done|].
  rewrite Hba in Hsorted. apply Sorted_inv in Hsorted as [_ Hhd].
  by apply HdRel_inv in Hhd.
Qed.

(** X25. [getStatePathsIntervalTxn] does not notice a path without a row
    that comes after a path with one: the string read for the earlier
    path is still in [data], and the later path gets the same
    interval. *)
Theorem getStatePathsInterval_missing_row (table : gmap string Value)
  (a b data : string) (n : Z) :
  String.ltb a b = true →
  queryString table a = Some data →
  string2Int data = Some n →
  queryString table b = None →
  getStatePathsIntervalTxn table {[ a; b ]} = inr [n; n].
Proof.
  intros Hab Ha Hn Hb. unfold getStatePathsIntervalTxn.
  rewrite (Paths_of_pair a b Hab). simpl. rewrite Ha. simpl. rewrite Hn.
  rewrite Hb. simpl. by rewrite Hn.
Qed.

End Intervals2.

Lemma setStatePathsInterval_round_trip_witness :
  match setStatePathsIntervalTxn (U := SampleUtil.util) ∅
          {[ Scenario.stateS; Scenario.stateT ]} [5; 30]%Z false with
  | inl e =>
      e = SizesDiffer ∧ false = false
      ∧ size ({[ Scenario.stateS; Scenario.stateT ]} : PathSet)
        ≠ List.length [5; 30]%Z
  | inr table' =>
      getStatePathsIntervalTxn table' {[ Scenario.stateS; Scenario.stateT ]}
      = inr [5; 30]%Z
      ∧ ∀ i, i ∉ ({[ Scenario.stateS; Scenario.stateT ]} : PathSet) →
             table' !! i = (∅ : gmap string Value) !! i
  end.
Proof.
  apply (setStatePathsInterval_round_trip (C := Sample.codec)
           (U := SampleUtil.util) ∅ {[ Scenario.stateS; Scenario.stateT ]}
           [5; 30]%Z false).
  repeat constructor.
Defined.

Lemma getStatePathsInterval_missing_row_witness :
  getStatePathsIntervalTxn (C := Sample.codec)
    {[ Scenario.stateS := VString "5" ]}
    {[ Scenario.stateS; Scenario.stateT ]}
  = inr [5; 5]%Z.
Proof.
  apply (getStatePathsInterval_missing_row (C := Sample.codec)
           {[ Scenario.stateS := VString "5" ]}
           Scenario.stateS Scenario.stateT "5" 5);
    vm_compute; reflexivity.
Defined.

Section Canonical.
Context `{Sys : SysStat}.
Local Open Scope Z_scope.

Lemma land_lnot_disjoint (a f : Z) : Z.land a f = 0 → Z.land a (Z.lnot f) = a.
Proof.
  intros Hd. apply Z.bits_inj'. intros n Hn.
  rewrite Z.land_spec, Z.lnot_spec by done.
  assert (Hbit : Z.testbit (Z.land a f) n = false)
    by (rewrite Hd; apply Z.bits_0).
  rewrite Z.land_spec in Hbit.
  destruct (Z.testbit a n), (Z.testbit f n); done.
Qed.

Lemma land_sub_disjoint (a b f : Z) :
  Z.land a b = a → Z.land b f = 0 → Z.land a f = 0.
Proof.
  intros Hab Hbf. rewrite <- Hab, <- Z.land_assoc, Hbf. apply Z.land_0_r.
Qed.

Lemma land_type_lnot (m : Z) : Z.land (Z.land m S_IFMT) (Z.lnot S_IFMT) = 0.
Proof. rewrite <- Z.land_assoc, Z.land_lnot_diag. apply Z.land_0_r. Qed.

Lemma land_lnot_type (m : Z) : Z.land (Z.land m (Z.lnot S_IFMT)) S_IFMT = 0.
Proof.
  rewrite <- Z.land_assoc, (Z.land_comm (Z.lnot S_IFMT)), Z.land_lnot_diag.
  apply Z.land_0_r.
Qed.

(** What [chmod] leaves of the mode that the function computes. *)
Lemma chmod_mode (m : Z) (x : Z) :
  Z.land mode_0555 S_IFMT = 0 →
  x = mode_0111 ∨ x = 0 →
  let new := Z.lor (Z.land m S_IFMT)
               (Z.land (Z.lor (Z.lor (Z.land m S_IFMT) mode_0444) x)
                  (Z.lnot S_IFMT)) in
  Z.land new S_IFMT = Z.land m S_IFMT
  ∧ (Z.land new (Z.lnot S_IFMT) = mode_0444
     ∨ Z.land new (Z.lnot S_IFMT) = mode_0555).
Proof.
  intros Hdisj Hx new.
  assert (H444 : Z.land mode_0444 (Z.lnot S_IFMT) = mode_0444).
  { apply land_lnot_disjoint.
    by apply (land_sub_disjoint _ mode_0555). }
  assert (Hxl : Z.land x (Z.lnot S_IFMT) = x).
  { apply land_lnot_disjoint. destruct Hx as [->| ->]; [|done].
    by apply (land_sub_disjoint _ mode_0555). }
  assert (Hperm : Z.land (Z.lor (Z.lor (Z.land m S_IFMT) mode_0444) x)
                    (Z.lnot S_IFMT) = Z.lor mode_0444 x).
  { by rewrite !Z.land_lor_distr_l, land_type_lnot, H444, Hxl. }
  unfold new. rewrite Hperm. split.
  - rewrite Z.land_lor_distr_l, <- Z.land_assoc, Z.land_diag.
    assert (Z.land (Z.lor mode_0444 x) S_IFMT = 0) as ->;
      [|apply Z.lor_0_r].
    rewrite <- Hperm. apply land_lnot_type.
  - rewrite Z.land_lor_distr_l, land_type_lnot, Z.lor_0_l.
    rewrite Z.land_lor_distr_l, H444, Hxl.
    destruct Hx as [->| ->]; [by right | by left].
Qed.

(** The result for anything but a symlink, written out. *)
Lemma canonicaliseStat_file (st : Stat) :
  S_ISLNK (st_mode st) = false →
  canonicaliseStat st
  = mkStat geteuid
      (if negb (Z.land (st_mode st) (Z.lnot S_IFMT) =? mode_0444)
          && negb (Z.land (st_mode st) (Z.lnot S_IFMT) =? mode_0555)
       then Z.lor (Z.land (st_mode st) S_IFMT)
              (Z.land
                 (Z.lor (Z.lor (Z.land (st_mode st) S_IFMT) mode_0444)
                    (if negb (Z.land (st_mode st) S_IXUSR =? 0)
                     then mode_0111 else 0))
                 (Z.lnot S_IFMT))
       else st_mode st)
      0 (st_atime st).
Proof.
  intros Hl. unfold canonicaliseStat. rewrite Hl.
  destruct st as [uid m mt atime]. simpl in *.
  destruct (Z.eqb_spec uid geteuid) as [->|Hu];
    destruct (Z.eqb_spec mt 0) as [->|Hm];
    destruct HAVE_LCHOWN;
    destruct (negb (Z.land m (Z.lnot S_IFMT) =? mode_0444)
              && negb (Z.land m (Z.lnot S_IFMT) =? mode_0555));
    reflexivity.
Qed.

(** The result for a symlink: at most the owner changes. *)
Lemma canonicaliseStat_symlink (st : Stat) :
  S_ISLNK (st_mode st) = true →
  canonicaliseStat st
  = mkStat (if HAVE_LCHOWN then geteuid else st_uid st)
      (st_mode st) (st_mtime st) (st_atime st).
Proof.
  intros Hl. unfold canonicaliseStat. rewrite Hl.
  destruct st as [uid m mt atime]. simpl in *.
  destruct (Z.eqb_spec uid geteuid) as [->|Hu]; destruct HAVE_LCHOWN;
    reflexivity.
Qed.

Lemma canonicaliseStat_spec (st : Stat) :
  Z.land mode_0555 S_IFMT = 0 →
  Z.land (st_mode (canonicaliseStat st)) S_IFMT = Z.land (st_mode st) S_IFMT
  ∧ st_atime (canonicaliseStat st) = st_atime st
  ∧ canonicalStat (canonicaliseStat st).
Proof.
  intros Hdisj.
  destruct (S_ISLNK (st_mode st)) eqn:Hl.
  - rewrite (canonicaliseStat_symlink st Hl). simpl.
    split; [done|]. split; [done|]. unfold canonicalStat. simpl.
    split; [intros ?; congruence|]. by intros ->.
  - rewrite (canonicaliseStat_file st Hl). simpl.
    set (x := if negb (Z.land (st_mode st) S_IXUSR =? 0) then mode_0111 else 0).
    assert (Hx : x = mode_0111 ∨ x = 0) by (unfold x; destruct (negb _); auto).
    destruct (chmod_mode (st_mode st) x Hdisj Hx) as (Htype & Hperm).
    destruct (Z.eqb_spec (Z.land (st_mode st) (Z.lnot S_IFMT)) mode_0444)
      as [H4|H4];
    destruct (Z.eqb_spec (Z.land (st_mode st) (Z.lnot S_IFMT)) mode_0555)
      as [H5|H5]; simpl;
    (split; [done|]); (split; [done|]);
    unfold canonicalStat; simpl; (split; [|done]);
    intros _; (split; [|done]); auto.
Qed.

(** On canonical metadata the calls change nothing. *)
Lemma canonicaliseStat_canonical (st : Stat) :
  canonicalStat st → canonicaliseStat st = st.
Proof.
  intros [Hfile Hown]. destruct (S_ISLNK (st_mode st)) eqn:Hl.
  - rewrite (canonicaliseStat_symlink st Hl).
    destruct st as [uid m mt atime]. simpl in *.
    destruct HAVE_LCHOWN; [by rewrite Hown|done].
  - rewrite (canonicaliseStat_file st Hl).
    destruct (Hfile eq_refl) as (Hperm & Hmt & Huid).
    destruct st as [uid m mt atime]. simpl in *. subst uid mt. f_equal.
    destruct Hperm as [-> | ->]; done.
Qed.

Lemma canonicaliseStat_idem (st : Stat) :
  Z.land mode_0555 S_IFMT = 0 →
  canonicaliseStat (canonicaliseStat st) = canonicaliseStat st.
Proof.
  intros Hdisj. apply canonicaliseStat_canonical.
  by destruct (canonicaliseStat_spec st Hdisj) as (_ & _ & ?).
Qed.

Lemma FsTree_induction (P : FsTree → Prop) :
  (∀ st entries, Forall (λ e, P e.2) entries → P (FsNode st entries)) →
  ∀ t, P t.
Proof.
  intros Hnode. fix IH 1. intros [st entries]. apply Hnode.
  induction entries as [|[name child] rest IHrest]; constructor;
    [apply IH | apply IHrest].
Qed.

Lemma sameShape_refl (t : FsTree) : sameShape t t.
Proof.
  induction t as [st entries IH] using FsTree_induction.
  simpl. split; [done|]. split; [done|].
  induction IH as [|[name child] rest Hs _ IHrest]; simpl; [done|].
  split; [done|]. split; [done | apply IHrest].
Qed.

Lemma sameButListed_refl (t : FsTree) : sameButListed t t.
Proof.
  induction t as [st entries IH] using FsTree_induction.
  simpl. do 4 (split; [done|]).
  induction IH as [|[name child] rest Hs _ IHrest]; simpl; [done|].
  split; [done|]. split; [done | apply IHrest].
Qed.

(** Every file under the path is left with canonical metadata. *)
Lemma _canonicalisePathMetaData_canonicalTree
  (listed : string → Z → Z) (t : FsTree) :
  Z.land mode_0555 S_IFMT = 0 →
  ∀ path, canonicalTree (_canonicalisePathMetaData listed path t).
Proof.
  intros Hdisj. induction t as [st entries IH] using FsTree_induction.
  intros path.
  destruct (canonicaliseStat_spec st Hdisj) as (Htype & _ & Hcanon).
  assert (Hdir : S_ISDIR (st_mode (canonicaliseStat st)) = S_ISDIR (st_mode st))
    by (unfold S_ISDIR; by rewrite Htype).
  simpl. destruct (S_ISDIR (st_mode st)) eqn:Hd; simpl.
  - split; [done|]. intros _.
    induction IH as [|[name child] rest Hc _ IHrest]; simpl; [done|].
    split; [apply Hc | apply IHrest].
  - split; [done|]. intros Hd'. congruence.
Qed.

Lemma _canonicalisePathMetaData_sameShape
  (listed : string → Z → Z) (t : FsTree) :
  Z.land mode_0555 S_IFMT = 0 →
  ∀ path, sameShape t (_canonicalisePathMetaData listed path t).
Proof.
  intros Hdisj. induction t as [st entries IH] using FsTree_induction.
  intros path.
  destruct (canonicaliseStat_spec st Hdisj) as (Htype & Hatime & _).
  simpl. destruct (S_ISDIR (st_mode st)) eqn:Hd; simpl.
  - split; [done|]. split; [done|].
    induction IH as [|[name child] rest Hs _ IHrest]; simpl; [done|].
    split; [done|]. split; [apply Hs | apply IHrest].
  - split; [done|]. split; [done|].
    clear IH. induction entries as [|[name child] rest IHrest]; simpl;
      [done|]. split; [done|]. split; [apply sameShape_refl | done].
Qed.

(** A second run, whatever listing does to access times then, changes
    nothing else. *)
Lemma _canonicalisePathMetaData_again
  (listed listed' : string → Z → Z) (t : FsTree) :
  Z.land mode_0555 S_IFMT = 0 →
  ∀ path,
    sameButListed (_canonicalisePathMetaData listed path t)
      (_canonicalisePathMetaData listed' path
         (_canonicalisePathMetaData listed path t)).
Proof.
  intros Hdisj. induction t as [st entries IH] using FsTree_induction.
  intros path.
  destruct (canonicaliseStat_spec st Hdisj) as (Htype & _ & Hcanon).
  assert (Hdir : S_ISDIR (st_mode (canonicaliseStat st)) = S_ISDIR (st_mode st))
    by (unfold S_ISDIR; by rewrite Htype).
  simpl. destruct (S_ISDIR (st_mode st)) eqn:Hd; simpl.
  - rewrite Hdir.
    assert (Hfix : canonicaliseStat
                     (afterReadDirectory listed path (canonicaliseStat st))
                   = afterReadDirectory listed path (canonicaliseStat st))
      by (by apply canonicaliseStat_canonical).
    rewrite Hfix. simpl. do 3 (split; [done|]).
    split; [intros Hd'; congruence|].
    induction IH as [|[name child] rest Hs _ IHrest]; simpl; [done|].
    split; [done|]. split; [apply Hs | apply IHrest].
  - rewrite Hdir, canonicaliseStat_idem by done. simpl.
    do 4 (split; [done|]).
    clear IH. induction entries as [|[name child] rest IHrest]; simpl;
      [done|]. split; [done|]. split; [apply sameButListed_refl | done].
Qed.

(** X26. When the permission bits 0555 lie outside the file-type mask,
    [_canonicalisePathMetaData] leaves canonical metadata on the path and
    on everything under it: every file that is not a symlink has mode
    0444 or 0555, modification time 0 and the effective user as owner.
    Names and file types are as before, and so is the access time of
    everything that is not a directory: listing a directory may change
    its access time.  Running the function again, whatever listing does
    to access times then, changes nothing else. *)
Theorem _canonicalisePathMetaData_canonical
  (listed listed' : string → Z → Z) (path : string) (t : FsTree) :
  Z.land mode_0555 S_IFMT = 0 →
  canonicalTree (_canonicalisePathMetaData listed path t)
  ∧ sameShape t (_canonicalisePathMetaData listed path t)
  ∧ sameButListed (_canonicalisePathMetaData listed path t)
      (_canonicalisePathMetaData listed' path
         (_canonicalisePathMetaData listed path t)).
Proof.
  intros Hdisj.
  split; [by apply _canonicalisePathMetaData_canonicalTree|].
  split; [by apply _canonicalisePathMetaData_sameShape|].
  by apply _canonicalisePathMetaData_again.
Qed.

(** X27. The assertion in [canonicalisePathMetaData] never fails.  The
    function throws "wrong ownership" exactly for a top-level symlink
    of another owner on a platform without [lchown]; in every other case
    it returns the canonical tree. *)
Theorem canonicalisePathMetaData_cases (listed : string → Z → Z)
  (path : string) (st : Stat) (entries : list (string * FsTree)) :
  Z.land mode_0555 S_IFMT = 0 →
  match canonicalisePathMetaData listed path (FsNode st entries) with
  | inl e =>
      e = WrongOwnership ∧ HAVE_LCHOWN = false
      ∧ S_ISLNK (st_mode st) = true ∧ st_uid st ≠ geteuid
  | inr t' =>
      t' = _canonicalisePathMetaData listed path (FsNode st entries)
      ∧ canonicalTree t'
      ∧ ¬ (HAVE_LCHOWN = false ∧ S_ISLNK (st_mode st) = true
           ∧ st_uid st ≠ geteuid)
  end.
Proof.
  intros Hdisj.
  pose proof (_canonicalisePathMetaData_canonicalTree listed
                (FsNode st entries) Hdisj path) as Hcanon.
  destruct (canonicaliseStat_spec st Hdisj) as (Htype & _ & Hnl & Hown).
  unfold canonicalisePathMetaData.
  assert (Htop : ∃ entries',
             _canonicalisePathMetaData listed path (FsNode st entries)
             = FsNode (mkStat (st_uid (canonicaliseStat st))
                         (st_mode (canonicaliseStat st))
                         (st_mtime (canonicaliseStat st))
                         (if S_ISDIR (st_mode st)
                          then listed path (st_atime (canonicaliseStat st))
                          else st_atime (canonicaliseStat st)))
                 entries').
  { simpl. destruct (S_ISDIR (st_mode st)); eexists; [done|].
    by destruct (canonicaliseStat st). }
  destruct Htop as [entries' Htop]. rewrite Htop in *.
  cbv beta iota zeta. simpl st_uid. simpl st_mode.
  assert (Hlnk : S_ISLNK (st_mode (canonicaliseStat st)) = S_ISLNK (st_mode st))
    by (unfold S_ISLNK; by rewrite Htype).
  destruct (Z.eqb_spec (st_uid (canonicaliseStat st)) geteuid) as [Hu|Hu];
    simpl.
  - split; [done|]. split; [done|]. intros (Hl & Hs & Hne).
    apply Hne. revert Hu. unfold canonicaliseStat.
    rewrite Hs, Hl. simpl.
    by destruct (Z.eqb_spec (st_uid st) geteuid).
  - rewrite Hlnk. destruct (S_ISLNK (st_mode st)) eqn:Hs.
    + split; [done|]. destruct HAVE_LCHOWN eqn:Hl; [by destruct Hu, Hown|].
      split; [done|]. split; [done|]. intros Heq. apply Hu.
      unfold canonicaliseStat. rewrite Hs, Heq, Z.eqb_refl. done.
    + rewrite Hlnk in Hnl. by destruct Hu, (Hnl eq_refl) as (_ & _ & ?).
Qed.

End Canonical.

Lemma _canonicalisePathMetaData_canonical_witness :
  canonicalTree (Sys := SampleSys.linux false)
    (_canonicalisePathMetaData (Sys := SampleSys.linux false)
       (SampleSys.listedAt 2000) "/nix/store/pppp-app" SampleSys.sampleTree)
  ∧ sameShape (Sys := SampleSys.linux false) SampleSys.sampleTree
      (_canonicalisePathMetaData (Sys := SampleSys.linux false)
         (SampleSys.listedAt 2000) "/nix/store/pppp-app"
         SampleSys.sampleTree)
  ∧ sameButListed (Sys := SampleSys.linux false)
      (_canonicalisePathMetaData (Sys := SampleSys.linux false)
         (SampleSys.listedAt 2000) "/nix/store/pppp-app"
         SampleSys.sampleTree)
      (_canonicalisePathMetaData (Sys := SampleSys.linux false)
         (SampleSys.listedAt 3000) "/nix/store/pppp-app"
         (_canonicalisePathMetaData (Sys := SampleSys.linux false)
            (SampleSys.listedAt 2000) "/nix/store/pppp-app"
            SampleSys.sampleTree)).
Proof.
  apply (_canonicalisePathMetaData_canonical (Sys := SampleSys.linux false)
           (SampleSys.listedAt 2000) (SampleSys.listedAt 3000)
           "/nix/store/pppp-app" SampleSys.sampleTree).
  reflexivity.
Defined.

Lemma canonicalisePathMetaData_cases_witness :
  canonicalisePathMetaData (Sys := SampleSys.linux false)
    (SampleSys.listedAt 2000) "/nix/store/llll-link"
    (FsNode (mkStat 30001 (40960 + 511) 777 5) [])
  = inl WrongOwnership.
Proof.
  pose proof (canonicalisePathMetaData_cases (Sys := SampleSys.linux false)
                (SampleSys.listedAt 2000) "/nix/store/llll-link"
                (mkStat 30001 (40960 + 511) 777 5) [] eq_refl) as Hcases.
  destruct (canonicalisePathMetaData _ _ _) as [e|t'].
  - by destruct Hcases as (-> & _).
  - destruct Hcases as (_ & _ & Hno). destruct Hno.
    split; [reflexivity|]. split; [reflexivity | discriminate].
Defined.

End Coverage.
